(** * nado_bot: position tracker, fill handler, pivot levels, reconnect backoff

    A shallow embedding of the TypeScript sources
      - [src/orders/tracker.ts]      (module [Tracker]),
      - [src/strategy/dynamicLevels] (module [Levels]),
      - [src/ws/manager.ts]          (module [WS]),
      - [src/strategy/engine.ts]     (module [Engine]),
    with the JavaScript built-ins they use (module [JS]) and the facts
    about binary64 numbers the statements rest on (module [Doubles]).

    JavaScript numbers are IEEE-754 binary64 values: they are modelled by
    Rocq's primitive floats, whose operations round exactly as the
    JavaScript ones do.  A [Map] is a [gmap]; an object held in a [Map] and
    mutated in place is modelled by re-inserting the updated record under
    the same key.  [Date.now()] is an explicit argument [now]. *)

From Stdlib Require Import ZArith PrimFloat FloatOps SpecFloat Uint63 FloatAxioms Lia.
From Stdlib Require Import Ascii.
From stdpp Require Import gmap strings list fin_maps pretty.

(* ===================================================================== *)
(** ** JavaScript primitives used by the sources *)
(* ===================================================================== *)

Module JS.

(** A string is falsy exactly when it is empty. *)
Definition truthy (s : string) : bool :=
  match s with
  | EmptyString => false
  | String _ _ => true
  end.

(** [if (x)] on a value of type [string | null]. *)
Definition truthyOpt (o : option string) : bool :=
  match o with
  | Some s => truthy s
  | None => false
  end.

(** [Number.isFinite]. *)
Definition isFinite (x : float) : bool := PrimFloat.is_finite x.

(** An integer of magnitude at most 2^53 as a number. *)
Definition ofZ (n : Z) : float :=
  if (0 <=? n)%Z then PrimFloat.of_uint63 (Uint63.of_Z n)
  else PrimFloat.opp (PrimFloat.of_uint63 (Uint63.of_Z (- n))).

(** [Math.round]: the integer nearest to [x], ties towards +infinity,
    that is floor(x + 1/2) computed without rounding error.  NaN, the
    infinities and the zeros are returned as they are; a result of zero
    keeps the sign of [x]. *)
Definition Math_round (x : float) : float :=
  match Prim2SF x with
  | S754_finite s m e =>
      if (0 <=? e)%Z then x
      else
        let den := (2 ^ (- e))%Z in
        let num := ((if s then Z.neg m else Z.pos m) * 2 + den)%Z in
        let n := (num / (2 * den))%Z in
        if (n =? 0)%Z then (if s then (-0)%float else 0%float)
        else ofZ n
  | _ => x
  end.

(** [Number.prototype.toString] on the values the examples below use: NaN,
    the infinities and integer-valued numbers print as JavaScript prints
    them (integers below 10^21 in plain decimal).  A number with a
    fractional part is rendered as mantissa and binary exponent, which is
    not JavaScript's shortest decimal but is enough to tell values apart.
    The tracker itself is stated for an arbitrary printer. *)
Definition numToStringInt (x : float) : string :=
  match Prim2SF x with
  | S754_zero _ => "0"
  | S754_infinity false => "Infinity"
  | S754_infinity true => "-Infinity"
  | S754_nan => "NaN"
  | S754_finite s m e =>
      let sign := if s then "-" else "" in
      if (0 <=? e)%Z then sign +:+ pretty (Z.pos m * 2 ^ e)%Z
      else if (Z.pos m mod 2 ^ (- e) =? 0)%Z
           then sign +:+ pretty (Z.pos m / 2 ^ (- e))%Z
           else sign +:+ pretty (Z.pos m) +:+ "p" +:+ pretty e
  end.

(** *** parseFloat

    [parseFloat] on a string of ASCII characters (ECMAScript, 19.2.4):
    leading white space is dropped, the longest prefix that is a
    StrDecimalLiteral is read (an optional sign, then [Infinity] or decimal
    digits with an optional fraction and an optional exponent), and its
    value is rounded to the nearest number; text that starts with no such
    literal gives NaN.  What follows the literal is ignored. *)

(** White space and line terminators (the ASCII ones). *)
Definition isWhiteSpace (c : Ascii.ascii) : bool :=
  let n := Ascii.N_of_ascii c in
  ((9 <=? n) && (n <=? 13))%N || (n =? 32)%N.

Fixpoint trimStart (s : string) : string :=
  match s with
  | String c s' => if isWhiteSpace c then trimStart s' else s
  | EmptyString => s
  end.

Definition digitValue (c : Ascii.ascii) : option Z :=
  let n := Z.of_N (Ascii.N_of_ascii c) in
  if ((48 <=? n) && (n <=? 57))%Z then Some (n - 48)%Z else None.

(** The longest run of decimal digits at the start of [s], read after the
    digits [acc]: the number read, how many digits, and what follows. *)
Fixpoint readDigits (s : string) (acc : Z) (count : nat) : Z * nat * string :=
  match s with
  | String c s' =>
      match digitValue c with
      | Some d => readDigits s' (acc * 10 + d)%Z (S count)
      | None => (acc, count, s)
      end
  | EmptyString => (acc, count, s)
  end.

(** The value of an ExponentPart at the start of [s] ([e] or [E], an
    optional sign, at least one digit); 0 when there is none. *)
Definition readExponent (s : string) : Z :=
  match s with
  | String c s' =>
      if Ascii.eqb c "e" || Ascii.eqb c "E" then
        let '(sign, digits) :=
          match s' with
          | String "+"%char t => (1%Z, t)
          | String "-"%char t => ((-1)%Z, t)
          | _ => (1%Z, s')
          end in
        let '(v, n, _) := readDigits digits 0 0 in
        match n with
        | O => 0%Z
        | S _ => (sign * v)%Z
        end
      else 0%Z
  | EmptyString => 0%Z
  end.

(** The number nearest to m·10^e (ties to even), for m ≥ 0. *)
Definition decimalToDouble (m e : Z) : float :=
  if (0 <=? e)%Z then SF2Prim (binary_normalize prec emax (m * 10 ^ e) 0 false)
  else
    match m with
    | Z.pos _ =>
        let '(q, e2, l) := SFdiv_core_binary prec emax m 0 (10 ^ (- e)) 0 in
        SF2Prim (binary_round_aux prec emax false q e2 l)
    | _ => 0%float
    end.

(** The longest prefix of [s] that is a StrUnsignedDecimalLiteral. *)
Definition parseUnsigned (s : string) : option float :=
  if String.prefix "Infinity" s then Some infinity
  else
    let '(intPart, ni, rest) := readDigits s 0 0 in
    match rest with
    | String "."%char rest' =>
        let '(m, nf, rest'') := readDigits rest' intPart 0 in
        match ni, nf with
        | O, O => None
        | _, _ => Some (decimalToDouble m (readExponent rest'' - Z.of_nat nf))
        end
    | _ =>
        match ni with
        | O => None
        | S _ => Some (decimalToDouble intPart (readExponent rest))
        end
    end.

Definition parseFloat (s : string) : float :=
  let t := trimStart s in
  let '(negative, u) :=
    match t with
    | String "-"%char u => (true, u)
    | String "+"%char u => (false, u)
    | _ => (false, t)
    end in
  match parseUnsigned u with
  | Some x => if negative then (- x)%float else x
  | None => nan
  end.
End JS.

(* ===================================================================== *)
(** ** Facts about binary64 numbers *)
(* ===================================================================== *)

Module Doubles.


Lemma SFltb_trans x y z :
  SFltb x y = true → SFltb y z = true → SFltb x z = true.
Proof.
  unfold SFltb, SFcompare.
  destruct x as [sx|sx| |sx mx ex], y as [sy|sy| |sy my ey], z as [sz|sz| |sz mz ez];
    try discriminate; try done;
    repeat match goal with s : bool |- _ => destruct s end;
    try discriminate; try done.
  - destruct (ex ?= ey)%Z eqn:H1, (ey ?= ez)%Z eqn:H2; try discriminate;
      rewrite ?Z.compare_eq_iff, ?Z.compare_lt_iff, ?Z.compare_gt_iff in *;
      destruct (ex ?= ez)%Z eqn:H3;
      rewrite ?Z.compare_eq_iff, ?Z.compare_lt_iff, ?Z.compare_gt_iff in *;
      try lia; try done.
    all: change (Pos.compare_cont Eq) with Pos.compare in *.
    all: destruct (mx ?= my)%positive eqn:C1, (my ?= mz)%positive eqn:C2;
      try discriminate;
      rewrite ?Pos.compare_eq_iff, ?Pos.compare_lt_iff, ?Pos.compare_gt_iff in *.
    all: destruct (mx ?= mz)%positive eqn:C3;
      rewrite ?Pos.compare_eq_iff, ?Pos.compare_lt_iff, ?Pos.compare_gt_iff in *;
      try lia; try done.
  - destruct (ex ?= ey)%Z eqn:H1, (ey ?= ez)%Z eqn:H2; try discriminate;
      rewrite ?Z.compare_eq_iff, ?Z.compare_lt_iff, ?Z.compare_gt_iff in *;
      destruct (ex ?= ez)%Z eqn:H3;
      rewrite ?Z.compare_eq_iff, ?Z.compare_lt_iff, ?Z.compare_gt_iff in *;
      try lia; try done.
    all: change (Pos.compare_cont Eq) with Pos.compare in *.
    all: destruct (mx ?= my)%positive eqn:C1, (my ?= mz)%positive eqn:C2;
      try discriminate;
      rewrite ?Pos.compare_eq_iff, ?Pos.compare_lt_iff, ?Pos.compare_gt_iff in *.
    all: destruct (mx ?= mz)%positive eqn:C3;
      rewrite ?Pos.compare_eq_iff, ?Pos.compare_lt_iff, ?Pos.compare_gt_iff in *;
      try lia; try done.
Qed.

Lemma ltb_trans (x y z : float) :
  (x <? y)%float = true → (y <? z)%float = true → (x <? z)%float = true.
Proof. rewrite !ltb_spec. apply SFltb_trans. Qed.


(** SameValueZero on the specification side. *)
Definition SFsame (a b : spec_float) : bool :=
  SFeqb a b || (negb (SFeqb a a) && negb (SFeqb b b)).

Lemma SFsame_sym a b : SFsame a b = SFsame b a.
Proof.
  unfold SFsame. f_equal; [|apply andb_comm].
  unfold SFeqb, SFcompare.
  destruct a as [sa|sa| |sa ma ea], b as [sb|sb| |sb mb eb]; try done;
    destruct sa, sb; try done.
  all: change (Pos.compare_cont Eq) with Pos.compare.
  all: rewrite (Z.compare_antisym ea eb), (Pos.compare_antisym ma mb).
  all: destruct (ea ?= eb)%Z; simpl; try done; by destruct (ma ?= mb)%positive.
Qed.

Lemma SFsame_trans a b c :
  SFsame a b = true → SFsame b c = true → SFsame a c = true.
Proof.
  unfold SFsame, SFeqb, SFcompare.
  destruct a as [sa|sa| |sa ma ea], b as [sb|sb| |sb mb eb], c as [sc|sc| |sc mc ec];
    try done;
    repeat match goal with s : bool |- _ => destruct s end; try done.
  all: change (Pos.compare_cont Eq) with Pos.compare.
  all: rewrite ?Z.compare_refl, ?Pos.compare_refl; simpl; rewrite ?orb_false_r.
  all: try (intros; discriminate).
  all: destruct (ea ?= eb)%Z eqn:H1; try (intros; discriminate);
       destruct (ma ?= mb)%positive eqn:C1; try (intros; discriminate);
       destruct (eb ?= ec)%Z eqn:H2; try (intros; discriminate);
       destruct (mb ?= mc)%positive eqn:C2; try (intros; discriminate);
       apply Z.compare_eq_iff in H1, H2; apply Pos.compare_eq_iff in C1, C2;
       subst; by rewrite Z.compare_refl, Pos.compare_refl.
Qed.

Lemma pos_opp_neg (x : float) :
  (0 <? x)%float = true → (- x <? 0)%float = true.
Proof.
  rewrite !ltb_spec, opp_spec.
  change (Prim2SF 0) with (S754_zero false).
  destruct (Prim2SF x) as [s|s| |s m e]; simpl; try discriminate;
    destruct s; simpl; try discriminate; reflexivity.
Qed.


(** *** Integers as doubles *)




















Lemma ltb_irrefl (x : float) : (x <? x)%float = false.
Proof.
  rewrite ltb_spec. unfold SFltb, SFcompare.
  destruct (Prim2SF x) as [s|s| |s m e]; try done; try (by destruct s).
  change (Pos.compare_cont Eq m m) with (m ?= m)%positive.
  rewrite Z.compare_refl, Pos.compare_refl. by destruct s.
Qed.

End Doubles.


(* ===================================================================== *)
(** ** src/orders/tracker.ts *)
(* ===================================================================== *)

Module Tracker.

Inductive OrderSide := long | short.

Inductive LevelStatus := pending | filled | tp_hit | sl_hit | cancelled.

(** The second argument of [markExit]: ['tp_hit' | 'sl_hit']. *)
Inductive ExitType := exit_tp_hit | exit_sl_hit.

Definition exitStatus (k : ExitType) : LevelStatus :=
  match k with
  | exit_tp_hit => tp_hit
  | exit_sl_hit => sl_hit
  end.

#[global] Instance OrderSide_eq_dec : EqDecision OrderSide.
Proof. solve_decision. Defined.

#[global] Instance LevelStatus_eq_dec : EqDecision LevelStatus.
Proof. solve_decision. Defined.

Record LevelPosition := mkLevelPosition {
  id : string;
  productId : float;
  level : float;
  side : OrderSide;
  size : float;
  entryOrderDigest : option string;
  tpOrderDigest : option string;
  slOrderDigest : option string;
  status : LevelStatus;
  fillPrice : option float;
  createdAt : Z;
  updatedAt : Z
}.

(** The two private maps of [PositionTracker]. *)
Record PositionTracker := mkTracker {
  positions : gmap string LevelPosition;
  digestToPositionId : gmap string string
}.

Definition emptyTracker : PositionTracker :=
  {| positions := ∅; digestToPositionId := ∅ |}.

(** The argument object of [createPosition]. *)
Record CreateParams := mkCreateParams {
  cp_productId : float;
  cp_level : float;
  cp_side : OrderSide;
  cp_size : float;
  cp_entryOrderDigest : string
}.

Definition sideToString (s : OrderSide) : string :=
  match s with
  | long => "long"
  | short => "short"
  end.

Definition isActive (st : LevelStatus) : bool :=
  match st with
  | pending | filled => true
  | _ => false
  end.

Definition isTerminal (st : LevelStatus) : bool :=
  match st with
  | tp_hit | sl_hit | cancelled => true
  | _ => false
  end.

(** The opening lines shared by [markFilled], [markExit], [markCancelled],
    [getByEntryDigest] and [getByDigest]:
      const posId = this.digestToPositionId.get(digest);
      if (!posId) return null;
      const position = this.positions.get(posId);
      if (!position) return null;
    An empty [posId] is falsy, an object never is. *)
Definition resolve (t : PositionTracker) (digest : string)
  : option (string * LevelPosition) :=
  match digestToPositionId t !! digest with
  | Some posId =>
      if JS.truthy posId then
        match positions t !! posId with
        | Some position => Some (posId, position)
        | None => None
        end
      else None
  | None => None
  end.

(** The assignments of [markFilled] to the position it found. *)
Definition setFilled (now : Z) (price : float) (tpDigest slDigest : string)
    (position : LevelPosition) : LevelPosition :=
  {| id := id position;
     productId := productId position;
     level := level position;
     side := side position;
     size := size position;
     entryOrderDigest := entryOrderDigest position;
     tpOrderDigest := Some tpDigest;
     slOrderDigest := Some slDigest;
     status := filled;
     fillPrice := Some price;
     createdAt := createdAt position;
     updatedAt := now |}.

Definition markFilled (now : Z) (entryDigest : string) (price : float)
    (tpDigest slDigest : string) (t : PositionTracker)
  : PositionTracker * option LevelPosition :=
  match resolve t entryDigest with
  | None => (t, None)
  | Some (posId, position) =>
      let position' := setFilled now price tpDigest slDigest position in
      ({| positions := <[posId := position']> (positions t);
          digestToPositionId :=
            <[slDigest := posId]> (<[tpDigest := posId]> (digestToPositionId t)) |},
       Some position')
  end.

Definition setStatus (st : LevelStatus) (now : Z) (position : LevelPosition)
  : LevelPosition :=
  {| id := id position;
     productId := productId position;
     level := level position;
     side := side position;
     size := size position;
     entryOrderDigest := entryOrderDigest position;
     tpOrderDigest := tpOrderDigest position;
     slOrderDigest := slOrderDigest position;
     status := st;
     fillPrice := fillPrice position;
     createdAt := createdAt position;
     updatedAt := now |}.

(** The [pairedDigest] computed by [markExit]: the tests
    [position.slOrderDigest] and [position.tpOrderDigest] are truthiness
    tests, so an empty digest yields [null]. *)
Definition pairedDigestOf (exitType : ExitType) (position : LevelPosition)
  : option string :=
  match exitType with
  | exit_tp_hit =>
      if JS.truthyOpt (slOrderDigest position) then slOrderDigest position else None
  | exit_sl_hit =>
      if JS.truthyOpt (tpOrderDigest position) then tpOrderDigest position else None
  end.

Definition markExit (now : Z) (digest : string) (exitType : ExitType)
    (t : PositionTracker)
  : PositionTracker * option (LevelPosition * option string) :=
  match resolve t digest with
  | None => (t, None)
  | Some (posId, position) =>
      let position' := setStatus (exitStatus exitType) now position in
      ({| positions := <[posId := position']> (positions t);
          digestToPositionId := digestToPositionId t |},
       Some (position', pairedDigestOf exitType position'))
  end.

Definition markCancelled (now : Z) (digest : string) (t : PositionTracker)
  : PositionTracker * option LevelPosition :=
  match resolve t digest with
  | None => (t, None)
  | Some (posId, position) =>
      match status position with
      | pending =>
          let position' := setStatus cancelled now position in
          ({| positions := <[posId := position']> (positions t);
              digestToPositionId := digestToPositionId t |},
           Some position')
      | _ => (t, Some position)
      end
  end.

Definition getByEntryDigest (t : PositionTracker) (digest : string)
  : option LevelPosition := snd <$> resolve t digest.

Definition getByDigest (t : PositionTracker) (digest : string)
  : option LevelPosition := snd <$> resolve t digest.

(** [if (d) this.digestToPositionId.delete(d)]. *)
Definition deleteDigest (o : option string) (index : gmap string string)
  : gmap string string :=
  match o with
  | Some d => if JS.truthy d then delete d index else index
  | None => index
  end.

(** The body of the loop of [cleanup] for one entry [[id, pos]]. *)
Definition cleanupStep (t : PositionTracker) (entry : string * LevelPosition)
  : PositionTracker :=
  let '(posId, pos) := entry in
  if isTerminal (status pos) then
    {| positions := delete posId (positions t);
       digestToPositionId :=
         deleteDigest (slOrderDigest pos)
           (deleteDigest (tpOrderDigest pos)
              (deleteDigest (entryOrderDigest pos) (digestToPositionId t))) |}
  else t.

(** [cleanup]: the loop visits every entry of [positions] once; deleting
    the visited entry does not disturb the iteration. *)
Definition cleanup (t : PositionTracker) : PositionTracker :=
  foldl cleanupStep t (map_to_list (positions t)).

(** [getActivePositions].  The list comes in the key order of the map,
    not in insertion order; no statement below depends on the order. *)
Definition getActivePositions (t : PositionTracker) : list LevelPosition :=
  filter (λ p, isActive (status p) = true) (map_to_list (positions t)).*2.

(** The digests [cleanup] deletes from the index for one position: its
    entry, TP and SL digests, each only when truthy. *)
Definition liveDigest (o : option string) : list string :=
  match o with
  | Some d => if JS.truthy d then [d] else []
  | None => []
  end.

Definition digestsOf (p : LevelPosition) : list string :=
  liveDigest (entryOrderDigest p) ++ liveDigest (tpOrderDigest p)
    ++ liveDigest (slOrderDigest p).

(** The digests of the terminal entries of a list of entries, and of the
    terminal positions of a tracker. *)
Definition terminalDigests (l : list (string * LevelPosition)) : list string :=
  filter (λ e, isTerminal (status e.2) = true) l ≫= (λ e, digestsOf e.2).

Definition removedDigests (t : PositionTracker) : list string :=
  terminalDigests (map_to_list (positions t)).

Section WithPrinter.

(** [String(n)] for a number inside a template literal. *)
Variable numToString : float → string.

(** The template literal [`${productId}-${side}-${level}`]. *)
Definition positionId (pid : float) (sd : OrderSide) (lvl : float) : string :=
  numToString pid +:+ "-" +:+ sideToString sd +:+ "-" +:+ numToString lvl.

Definition createPosition (now : Z) (params : CreateParams) (t : PositionTracker)
  : PositionTracker * LevelPosition :=
  let posId := positionId (cp_productId params) (cp_side params) (cp_level params) in
  let position :=
    {| id := posId;
       productId := cp_productId params;
       level := cp_level params;
       side := cp_side params;
       size := cp_size params;
       entryOrderDigest := Some (cp_entryOrderDigest params);
       tpOrderDigest := None;
       slOrderDigest := None;
       status := pending;
       fillPrice := None;
       createdAt := now;
       updatedAt := now |} in
  ({| positions := <[posId := position]> (positions t);
      digestToPositionId :=
        <[cp_entryOrderDigest params := posId]> (digestToPositionId t) |},
   position).

Definition hasActivePosition (pid : float) (sd : OrderSide) (lvl : float)
    (t : PositionTracker) : bool :=
  match positions t !! positionId pid sd lvl with
  | None => false
  | Some pos => isActive (status pos)
  end.

(** The mutating operations of the tracker, as a caller may issue them. *)
Inductive TrackerOp :=
| OpCreatePosition (now : Z) (params : CreateParams)
| OpMarkFilled (now : Z) (entryDigest : string) (price : float) (tpDigest slDigest : string)
| OpMarkExit (now : Z) (digest : string) (exitType : ExitType)
| OpMarkCancelled (now : Z) (digest : string)
| OpCleanup.

Definition applyOp (t : PositionTracker) (op : TrackerOp) : PositionTracker :=
  match op with
  | OpCreatePosition now params => fst (createPosition now params t)
  | OpMarkFilled now d price tp sl => fst (markFilled now d price tp sl t)
  | OpMarkExit now d k => fst (markExit now d k t)
  | OpMarkCancelled now d => fst (markCancelled now d t)
  | OpCleanup => cleanup t
  end.

Definition runOps (t : PositionTracker) (ops : list TrackerOp) : PositionTracker :=
  foldl applyOp t ops.

(** The status of the position a digest resolves to. *)
Definition statusOf (t : PositionTracker) (digest : string) : option LevelStatus :=
  (λ e, status (snd e)) <$> resolve t digest.

(** The guards a caller applies before the two unguarded operations: the
    fill handler calls [markFilled] only for a position that is still
    pending, and the state machine of the specification allows [markExit]
    only on a filled position.  A digest that resolves to nothing is
    always allowed (the operation is then a no-op). *)
Definition guardedOp (t : PositionTracker) (op : TrackerOp) : bool :=
  match op with
  | OpMarkFilled _ d _ _ _ =>
      match statusOf t d with
      | Some pending | None => true
      | _ => false
      end
  | OpMarkExit _ d _ =>
      match statusOf t d with
      | Some filled | None => true
      | _ => false
      end
  | _ => true
  end.


Fixpoint guardedRun (guard : PositionTracker → TrackerOp → bool)
    (t : PositionTracker) (ops : list TrackerOp) : bool :=
  match ops with
  | [] => true
  | op :: ops' => guard t op && guardedRun guard (applyOp t op) ops'
  end.

(** The operation (re)creates the record of slot [k]. *)
Definition createsSlot (k : string) (op : TrackerOp) : bool :=
  match op with
  | OpCreatePosition _ params =>
      bool_decide (positionId (cp_productId params) (cp_side params) (cp_level params) = k)
  | _ => false
  end.

End WithPrinter.

(** The transitions of the specification's state machine. *)
Inductive transition : LevelStatus → LevelStatus → Prop :=
| t_fill : transition pending filled
| t_cancel : transition pending cancelled
| t_tp : transition filled tp_hit
| t_sl : transition filled sl_hit.

(** What one operation other than a re-creation of the slot can do to a
    record [p] of the registry: leave it, or apply the assignments of
    [markFilled], [markExit] or (on a pending record) [markCancelled]. *)
Inductive recordStep (t : PositionTracker) (op : TrackerOp) (p : LevelPosition)
  : LevelPosition → Prop :=
| rs_same : recordStep t op p p
| rs_filled now d price tp sl :
    op = OpMarkFilled now d price tp sl →
    statusOf t d = Some (status p) →
    recordStep t op p (setFilled now price tp sl p)
| rs_exit now d e :
    op = OpMarkExit now d e →
    statusOf t d = Some (status p) →
    recordStep t op p (setStatus (exitStatus e) now p)
| rs_cancel now d :
    op = OpMarkCancelled now d →
    status p = pending →
    recordStep t op p (setStatus cancelled now p).

(** Every record of the registry is stored under its own [id], and the
    [id] is the one [createPosition] computes from the record's product,
    side and level. *)
Definition keysAgree (numToString : float → string) (t : PositionTracker) : Prop :=
  ∀ k p, positions t !! k = Some p →
    id p = k ∧ id p = positionId numToString (productId p) (side p) (level p).

(** No operation of the list (re)creates slot [k]. *)
Definition keepsSlot (numToString : float → string) (k : string)
    (ops : list TrackerOp) : bool :=
  forallb (λ op, negb (createsSlot numToString k op)) ops.

(** *** Facts about the tracker *)

Section TrackerFacts.

Variable numToString : float → string.

Lemma isTerminal_isActive st : isTerminal st = negb (isActive st).
Proof. by destruct st. Qed.

Lemma resolve_Some t d k p :
  resolve t d = Some (k, p) →
  digestToPositionId t !! d = Some k ∧ positions t !! k = Some p.
Proof.
  unfold resolve. destruct (digestToPositionId t !! d) as [posId|]; [|done].
  destruct (JS.truthy posId); [|done].
  destruct (positions t !! posId) as [q|] eqn:Hq; [|done].
  intros [= <- <-]. done.
Qed.

Lemma statusOf_resolve t d k p :
  resolve t d = Some (k, p) → statusOf t d = Some (status p).
Proof. unfold statusOf. by intros ->. Qed.

Lemma deleteDigest_lookup o (m : gmap string string) d :
  deleteDigest o m !! d = if bool_decide (d ∈ liveDigest o) then None else m !! d.
Proof.
  unfold deleteDigest, liveDigest. destruct o as [x|]; [|done].
  destruct (JS.truthy x); [|done].
  case_bool_decide as H.
  - apply list_elem_of_singleton in H as ->. apply lookup_delete_eq.
  - apply lookup_delete_ne. intros ->. apply H. by apply list_elem_of_singleton.
Qed.

Lemma terminalDigests_cons_terminal k p l :
  isTerminal (status p) = true →
  terminalDigests ((k, p) :: l) = digestsOf p ++ terminalDigests l.
Proof. intros H. unfold terminalDigests. rewrite filter_cons_True; done. Qed.

Lemma terminalDigests_cons_active k p l :
  isTerminal (status p) = false →
  terminalDigests ((k, p) :: l) = terminalDigests l.
Proof.
  intros H. unfold terminalDigests. rewrite filter_cons_False; [done|].
  simpl. by rewrite H.
Qed.

(** The loop of [cleanup] over any list of entries: which keys and which
    index entries survive. *)
Lemma cleanup_loop_positions l t k :
  positions (foldl cleanupStep t l) !! k =
    if bool_decide (k ∈ (filter (λ e, isTerminal (status e.2) = true) l).*1)
    then None else positions t !! k.
Proof.
  revert t. induction l as [|[k' p'] l IH]; intros t; [done|].
  simpl. rewrite IH. destruct (isTerminal (status p')) eqn:Hterm.
  - rewrite filter_cons_True by done. rewrite fmap_cons. simpl.
    destruct (decide (k = k')) as [->|Hne].
    + rewrite lookup_delete_eq.
      rewrite (bool_decide_eq_true_2 (k' ∈ k' :: _)) by apply list_elem_of_here.
      by case_bool_decide.
    + rewrite lookup_delete_ne by done.
      apply (f_equal (λ b : bool, if b then None else positions t !! k)).
      apply bool_decide_ext. rewrite elem_of_cons.
      split; [by right | by intros [?|?]].
  - rewrite filter_cons_False by (simpl; by rewrite Hterm). done.
Qed.

Lemma cleanup_loop_index l t d :
  digestToPositionId (foldl cleanupStep t l) !! d =
    if bool_decide (d ∈ terminalDigests l) then None else digestToPositionId t !! d.
Proof.
  revert t. induction l as [|[k' p'] l IH]; intros t; [done|].
  simpl. rewrite IH. destruct (isTerminal (status p')) eqn:Hterm.
  - rewrite terminalDigests_cons_terminal by done. simpl.
    rewrite !deleteDigest_lookup. unfold digestsOf.
    destruct (decide (d ∈ terminalDigests l)) as [Hin|Hout].
    + rewrite !bool_decide_eq_true_2; [done| |done].
      apply elem_of_app. by right.
    + rewrite (bool_decide_eq_false_2 (d ∈ terminalDigests l)) by done.
      destruct (decide (d ∈ liveDigest (slOrderDigest p'))) as [H3|H3];
        [rewrite !bool_decide_eq_true_2; [done|rewrite !elem_of_app; tauto|done]|].
      rewrite (bool_decide_eq_false_2 _ H3).
      destruct (decide (d ∈ liveDigest (tpOrderDigest p'))) as [H2|H2];
        [rewrite !bool_decide_eq_true_2; [done|rewrite !elem_of_app; tauto|done]|].
      rewrite (bool_decide_eq_false_2 _ H2).
      destruct (decide (d ∈ liveDigest (entryOrderDigest p'))) as [H1|H1];
        [rewrite !bool_decide_eq_true_2; [done|rewrite !elem_of_app; tauto|done]|].
      rewrite (bool_decide_eq_false_2 _ H1).
      rewrite bool_decide_eq_false_2; [done|]. rewrite !elem_of_app. tauto.
  - rewrite terminalDigests_cons_active by done. done.
Qed.

Lemma cleanup_positions t k :
  positions (cleanup t) !! k =
    match positions t !! k with
    | Some p => if isTerminal (status p) then None else Some p
    | None => None
    end.
Proof.
  unfold cleanup. rewrite cleanup_loop_positions.
  destruct (positions t !! k) as [p|] eqn:Hk.
  - destruct (isTerminal (status p)) eqn:Hterm.
    + rewrite bool_decide_eq_true_2; [done|].
      apply list_elem_of_fmap. exists (k, p). split; [done|].
      apply list_elem_of_filter. split; [done|]. by apply elem_of_map_to_list.
    + rewrite bool_decide_eq_false_2; [done|].
      intros ([k' p'] & Heq & Hin)%list_elem_of_fmap. simpl in Heq. subst k'.
      apply list_elem_of_filter in Hin as [Hp Hin]. simpl in Hp.
      apply elem_of_map_to_list in Hin. congruence.
  - rewrite bool_decide_eq_false_2; [done|].
    intros ([k' p'] & Heq & Hin)%list_elem_of_fmap. simpl in Heq. subst k'.
    apply list_elem_of_filter in Hin as [_ Hin].
    apply elem_of_map_to_list in Hin. congruence.
Qed.

Lemma cleanup_index t d :
  digestToPositionId (cleanup t) !! d =
    if bool_decide (d ∈ removedDigests t) then None else digestToPositionId t !! d.
Proof. unfold cleanup, removedDigests. apply cleanup_loop_index. Qed.

Lemma elem_of_removedDigests t d :
  d ∈ removedDigests t ↔
  ∃ k p, positions t !! k = Some p ∧ isTerminal (status p) = true ∧ d ∈ digestsOf p.
Proof.
  unfold removedDigests, terminalDigests. rewrite list_elem_of_bind. split.
  - intros ([k p] & Hd & Hin). apply list_elem_of_filter in Hin as [Hterm Hin].
    apply elem_of_map_to_list in Hin. by exists k, p.
  - intros (k & p & Hk & Hterm & Hd). exists (k, p). split; [done|].
    apply list_elem_of_filter. split; [done|]. by apply elem_of_map_to_list.
Qed.

(** The record stored under a key after each operation. *)
Lemma markFilled_positions now d price tp sl t k :
  positions (markFilled now d price tp sl t).1 !! k =
    match resolve t d with
    | Some (posId, position) =>
        if decide (posId = k) then Some (setFilled now price tp sl position)
        else positions t !! k
    | None => positions t !! k
    end.
Proof.
  unfold markFilled. destruct (resolve t d) as [[posId position]|]; [|done].
  simpl. case_decide as H.
  - subst. apply lookup_insert_eq.
  - by apply lookup_insert_ne.
Qed.

Lemma markExit_positions now d e t k :
  positions (markExit now d e t).1 !! k =
    match resolve t d with
    | Some (posId, position) =>
        if decide (posId = k) then Some (setStatus (exitStatus e) now position)
        else positions t !! k
    | None => positions t !! k
    end.
Proof.
  unfold markExit. destruct (resolve t d) as [[posId position]|]; [|done].
  simpl. case_decide as H.
  - subst. apply lookup_insert_eq.
  - by apply lookup_insert_ne.
Qed.

Lemma markCancelled_positions now d t k :
  positions (markCancelled now d t).1 !! k =
    match resolve t d with
    | Some (posId, position) =>
        if decide (posId = k ∧ status position = pending)
        then Some (setStatus cancelled now position)
        else positions t !! k
    | None => positions t !! k
    end.
Proof.
  unfold markCancelled. destruct (resolve t d) as [[posId position]|]; [|done].
  destruct (status position) eqn:Hst; simpl;
    case_decide as H; try (destruct H; congruence); try done.
  - destruct H as [-> _]. apply lookup_insert_eq.
  - apply lookup_insert_ne. intros ->. by apply H.
Qed.

Lemma markCancelled_index now d t :
  digestToPositionId (markCancelled now d t).1 = digestToPositionId t.
Proof.
  unfold markCancelled. destruct (resolve t d) as [[posId position]|]; [|done].
  by destruct (status position).
Qed.

Lemma createPosition_positions now params t k :
  positions (createPosition numToString now params t).1 !! k =
    if decide (positionId numToString (cp_productId params) (cp_side params)
                 (cp_level params) = k)
    then Some (createPosition numToString now params t).2
    else positions t !! k.
Proof.
  unfold createPosition. simpl. case_decide as H.
  - rewrite <- H. apply lookup_insert_eq.
  - by apply lookup_insert_ne.
Qed.

(** One operation, seen from one key of the registry. *)
Lemma applyOp_record t op k p p' :
  createsSlot numToString k op = false →
  positions t !! k = Some p →
  positions (applyOp numToString t op) !! k = Some p' →
  recordStep t op p p'.
Proof.
  intros Hcreate Hk.
  destruct op as [now params|now d price tp sl|now d e|now d|]; cbn [applyOp].
  - rewrite createPosition_positions. cbn [createsSlot] in Hcreate.
    apply bool_decide_eq_false in Hcreate. case_decide; [done|].
    rewrite Hk. intros [= <-]. constructor.
  - rewrite markFilled_positions.
    destruct (resolve t d) as [[posId position]|] eqn:Hres.
    + case_decide as H.
      * subst posId. apply resolve_Some in Hres as Hres'. destruct Hres' as [_ Hpos].
        rewrite Hk in Hpos. injection Hpos as <-. intros [= <-].
        eapply rs_filled; [done|]. by eapply statusOf_resolve.
      * rewrite Hk. intros [= <-]. constructor.
    + rewrite Hk. intros [= <-]. constructor.
  - rewrite markExit_positions.
    destruct (resolve t d) as [[posId position]|] eqn:Hres.
    + case_decide as H.
      * subst posId. apply resolve_Some in Hres as Hres'. destruct Hres' as [_ Hpos].
        rewrite Hk in Hpos. injection Hpos as <-. intros [= <-].
        eapply rs_exit; [done|]. by eapply statusOf_resolve.
      * rewrite Hk. intros [= <-]. constructor.
    + rewrite Hk. intros [= <-]. constructor.
  - rewrite markCancelled_positions.
    destruct (resolve t d) as [[posId position]|] eqn:Hres.
    + case_decide as H.
      * destruct H as [-> Hst]. apply resolve_Some in Hres as [_ Hpos].
        rewrite Hk in Hpos. injection Hpos as <-. intros [= <-].
        by eapply rs_cancel.
      * rewrite Hk. intros [= <-]. constructor.
    + rewrite Hk. intros [= <-]. constructor.
  - rewrite cleanup_positions, Hk. destruct (isTerminal (status p)); [done|].
    intros [= <-]. constructor.
Qed.

Lemma applyOp_absent t op k :
  createsSlot numToString k op = false →
  positions t !! k = None →
  positions (applyOp numToString t op) !! k = None.
Proof.
  intros Hcreate Hk.
  destruct op as [now params|now d price tp sl|now d e|now d|]; cbn [applyOp].
  - rewrite createPosition_positions. cbn [createsSlot] in Hcreate.
    apply bool_decide_eq_false in Hcreate. by case_decide.
  - rewrite markFilled_positions.
    destruct (resolve t d) as [[posId position]|] eqn:Hres; [|done].
    case_decide as H; [|done]. subst. apply resolve_Some in Hres as [_ ?]. congruence.
  - rewrite markExit_positions.
    destruct (resolve t d) as [[posId position]|] eqn:Hres; [|done].
    case_decide as H; [|done]. subst. apply resolve_Some in Hres as [_ ?]. congruence.
  - rewrite markCancelled_positions.
    destruct (resolve t d) as [[posId position]|] eqn:Hres; [|done].
    case_decide as H; [|done]. destruct H as [-> _].
    apply resolve_Some in Hres as [_ ?]. congruence.
  - by rewrite cleanup_positions, Hk.
Qed.

Lemma runOps_app t ops1 ops2 :
  runOps numToString t (ops1 ++ ops2)
  = runOps numToString (runOps numToString t ops1) ops2.
Proof. apply foldl_app. Qed.

Lemma guardedRun_app guard t ops1 ops2 :
  guardedRun numToString guard t (ops1 ++ ops2) =
    guardedRun numToString guard t ops1
    && guardedRun numToString guard (runOps numToString t ops1) ops2.
Proof.
  revert t. induction ops1 as [|op ops1 IH]; intros t; [done|].
  simpl. rewrite IH. by rewrite andb_assoc.
Qed.

Lemma keepsSlot_app k ops1 ops2 :
  keepsSlot numToString k (ops1 ++ ops2) =
    keepsSlot numToString k ops1 && keepsSlot numToString k ops2.
Proof. apply forallb_app. Qed.

Lemma runOps_absent t ops k :
  keepsSlot numToString k ops = true →
  positions t !! k = None →
  positions (runOps numToString t ops) !! k = None.
Proof.
  revert t. induction ops as [|op ops IH]; intros t Hkeep Hk; [done|].
  simpl in *. apply andb_prop in Hkeep as [Hop Hkeep].
  apply IH; [done|]. apply applyOp_absent; [|done]. by apply negb_true_iff.
Qed.

(** One guarded operation moves a status along the state machine. *)
Lemma recordStep_status t op p p' :
  guardedOp t op = true →
  recordStep t op p p' →
  status p' = status p ∨ transition (status p) (status p').
Proof.
  intros Hg [|now d price tp sl -> Hst|now d e -> Hst|now d -> Hst]; [by left|..];
    right; cbn [guardedOp] in Hg; try rewrite Hst in Hg; simpl.
  - destruct (status p); try done. constructor.
  - destruct (status p); try done. destruct e; constructor.
  - rewrite Hst. constructor.
Qed.

Lemma transition_not_terminal st st' : transition st st' → isTerminal st = false.
Proof. by intros []. Qed.



Lemma runOps_terminal_stays t ops k p p' :
  guardedRun numToString guardedOp t ops = true →
  keepsSlot numToString k ops = true →
  positions t !! k = Some p →
  isTerminal (status p) = true →
  positions (runOps numToString t ops) !! k = Some p' →
  status p' = status p.
Proof.
  revert t p. induction ops as [|op ops IH]; intros t p Hg Hkeep Hk Hterm Hend.
  - simpl in Hend. congruence.
  - simpl in *. apply andb_prop in Hg as [Hop Hg].
    apply andb_prop in Hkeep as [Hcr Hkeep]. apply negb_true_iff in Hcr.
    destruct (positions (applyOp numToString t op) !! k) as [p1|] eqn:Hk1.
    + pose proof (applyOp_record _ _ _ _ _ Hcr Hk Hk1) as Hstep.
      destruct (recordStep_status _ _ _ _ Hop Hstep) as [Heq|Htr].
      * rewrite <- Heq. eapply IH; eauto. by rewrite Heq.
      * apply transition_not_terminal in Htr. congruence.
    + by rewrite (runOps_absent _ _ _ Hkeep Hk1) in Hend.
Qed.


(** C1 (as amended): the tracker leaves the guards on [markFilled] and
    [markExit] to its caller.  In every run in which [markFilled] is issued
    only for a position that is still pending and [markExit] only for a
    filled one, and for every slot [k] that the run does not re-create, each
    single operation either keeps the status of the record under [k] or moves
    it along pending→filled, pending→cancelled, filled→tp_hit or
    filled→sl_hit; and once the status is cancelled, tp_hit or sl_hit, it is
    the same at every later point of the run at which the record exists. *)
Theorem guarded_run_follows_state_machine t ops k :
  guardedRun numToString guardedOp t ops = true →
  keepsSlot numToString k ops = true →
  (∀ ops1 op ops2 p1 p2,
      ops = ops1 ++ op :: ops2 →
      positions (runOps numToString t ops1) !! k = Some p1 →
      positions (applyOp numToString (runOps numToString t ops1) op) !! k = Some p2 →
      status p2 = status p1 ∨ transition (status p1) (status p2))
  ∧
  (∀ ops1 ops2 ops3 p1 p2,
      ops = ops1 ++ ops2 ++ ops3 →
      positions (runOps numToString t ops1) !! k = Some p1 →
      isTerminal (status p1) = true →
      positions (runOps numToString t (ops1 ++ ops2)) !! k = Some p2 →
      status p2 = status p1).
Proof.
  intros Hg Hkeep. split.
  - intros ops1 op ops2 p1 p2 -> H1 H2.
    rewrite guardedRun_app in Hg. apply andb_prop in Hg as [_ Hg].
    simpl in Hg. apply andb_prop in Hg as [Hop _].
    rewrite keepsSlot_app in Hkeep. apply andb_prop in Hkeep as [_ Hkeep].
    simpl in Hkeep. apply andb_prop in Hkeep as [Hcr _]. apply negb_true_iff in Hcr.
    eapply recordStep_status; [done|]. by eapply applyOp_record.
  - intros ops1 ops2 ops3 p1 p2 -> H1 Hterm H2.
    rewrite guardedRun_app in Hg. apply andb_prop in Hg as [_ Hg].
    rewrite guardedRun_app in Hg. apply andb_prop in Hg as [Hg _].
    rewrite keepsSlot_app in Hkeep. apply andb_prop in Hkeep as [_ Hkeep].
    rewrite keepsSlot_app in Hkeep. apply andb_prop in Hkeep as [Hkeep _].
    rewrite runOps_app in H2.
    by eapply runOps_terminal_stays.
Qed.


Lemma recordStep_identity t op p p' :
  recordStep t op p p' →
  id p' = id p ∧ productId p' = productId p ∧ side p' = side p ∧ level p' = level p.
Proof. by intros [|????? -> _|??? -> _|?? -> _]. Qed.

Lemma keysAgree_applyOp t op :
  keysAgree numToString t → keysAgree numToString (applyOp numToString t op).
Proof.
  intros Hinv k p' Hk'.
  destruct (createsSlot numToString k op) eqn:Hcr.
  - destruct op as [now params| | | |]; try done.
    cbn [createsSlot] in Hcr. apply bool_decide_eq_true in Hcr.
    cbn [applyOp] in Hk'. rewrite createPosition_positions in Hk'.
    rewrite decide_True in Hk' by done. injection Hk' as <-. by simpl.
  - destruct (positions t !! k) as [p|] eqn:Hk.
    + destruct (recordStep_identity _ _ _ _ (applyOp_record _ _ _ _ _ Hcr Hk Hk'))
        as (-> & -> & -> & ->).
      by apply Hinv.
    + by rewrite (applyOp_absent _ _ _ Hcr Hk) in Hk'.
Qed.

Lemma keysAgree_runOps t ops :
  keysAgree numToString t → keysAgree numToString (runOps numToString t ops).
Proof.
  revert t. induction ops as [|op ops IH]; intros t Hinv; [done|].
  simpl. apply IH. by apply keysAgree_applyOp.
Qed.

Lemma keysAgree_empty : keysAgree numToString emptyTracker.
Proof. intros k p Hk. unfold emptyTracker in Hk. simpl in Hk. by rewrite lookup_empty in Hk. Qed.

(** In a list of entries with pairwise distinct keys whose values carry
    their key, at most one value has a given key. *)
Lemma one_value_per_key (l : list (string * LevelPosition)) (x : string) :
  NoDup l.*1 →
  (∀ k p, (k, p) ∈ l → id p = k) →
  length (filter (λ p, id p = x) (filter (λ p, isActive (status p) = true) l.*2)) ≤ 1.
Proof.
  induction l as [|[k p] l IH]; intros Hnd Hid; [simpl; lia|].
  rewrite fmap_cons in Hnd. apply NoDup_cons in Hnd as [Hk Hnd].
  assert (∀ k' p', (k', p') ∈ l → id p' = k') as Hid'.
  { intros k' p' Hin. apply Hid. by right. }
  specialize (IH Hnd Hid'). rewrite fmap_cons. cbn [snd].
  destruct (decide (isActive (status p) = true)) as [Hact|Hact];
    [rewrite filter_cons_True by done|by rewrite filter_cons_False by done].
  destruct (decide (id p = x)) as [Hx|Hx];
    [rewrite filter_cons_True by done|by rewrite filter_cons_False by done].
  destruct (filter _ (filter _ l.*2)) as [|q qs] eqn:Hrest; [simpl; lia|].
  exfalso. apply Hk.
  assert (q ∈ filter (λ p, id p = x) (filter (λ p, isActive (status p) = true) l.*2))
    as Hq by (rewrite Hrest; left).
  apply list_elem_of_filter in Hq as [Hqx Hq].
  apply list_elem_of_filter in Hq as [_ Hq].
  apply list_elem_of_fmap in Hq as ([k' q'] & -> & Hin). simpl in Hqx.
  apply list_elem_of_fmap. exists (k', q'). split; [|done]. simpl.
  rewrite <- (Hid k p) by left. rewrite Hx, <- Hqx. by apply Hid'.
Qed.

(** C2: in every state the tracker reaches from the empty one, each active
    record carries the slot identity computed from its own product, side
    and level; for every slot (productId, side, level) at most one record
    returned by [getActivePositions], that is at most one pending or filled
    record, has that slot's identity; two active records with the same
    product, side and level are one record; and [hasActivePosition] answers
    whether the slot has such a record. *)
Theorem at_most_one_active_position_per_slot ops :
  let t := runOps numToString emptyTracker ops in
  (∀ p, p ∈ getActivePositions t →
        id p = positionId numToString (productId p) (side p) (level p))
  ∧
  (∀ pid sd lvl,
      length (filter (λ p, id p = positionId numToString pid sd lvl)
                (getActivePositions t)) ≤ 1)
  ∧
  (∀ p q, p ∈ getActivePositions t → q ∈ getActivePositions t →
          productId p = productId q → side p = side q → level p = level q →
          p = q)
  ∧
  (∀ pid sd lvl,
      hasActivePosition numToString pid sd lvl t = true ↔
      ∃ p, p ∈ getActivePositions t ∧ id p = positionId numToString pid sd lvl).
Proof.
  intros t.
  assert (keysAgree numToString t) as Hinv
    by apply keysAgree_runOps, keysAgree_empty.
  assert (∀ p, p ∈ getActivePositions t →
               positions t !! id p = Some p ∧ isActive (status p) = true
               ∧ id p = positionId numToString (productId p) (side p) (level p))
    as Hmem.
  { intros p Hp. apply list_elem_of_filter in Hp as [Hact Hp].
    apply list_elem_of_fmap in Hp as ([k q] & -> & Hin).
    apply elem_of_map_to_list in Hin. destruct (Hinv k q Hin) as [Hid Hslot].
    simpl in *. rewrite Hid at 1. done. }
  split; [|split; [|split]].
  - intros p Hp. by apply Hmem.
  - intros pid sd lvl. unfold getActivePositions.
    apply one_value_per_key; [apply NoDup_fst_map_to_list|].
    intros k p Hin. apply elem_of_map_to_list in Hin. by apply (Hinv k p).
  - intros p q Hp Hq Hpid Hsd Hlvl.
    destruct (Hmem p Hp) as (Hkp & _ & Hidp). destruct (Hmem q Hq) as (Hkq & _ & Hidq).
    rewrite Hidp, Hpid, Hsd, Hlvl, <- Hidq, Hkq in Hkp. by injection Hkp.
  - intros pid sd lvl. unfold hasActivePosition. split.
    + destruct (positions t !! positionId numToString pid sd lvl) as [pos|] eqn:Hk;
        [|done].
      intros Hact. exists pos. destruct (Hinv _ _ Hk) as [Hid _]. split; [|done].
      apply list_elem_of_filter. split; [done|].
      apply list_elem_of_fmap. exists (positionId numToString pid sd lvl, pos).
      split; [done|]. by apply elem_of_map_to_list.
    + intros (p & Hp & Hid). destruct (Hmem p Hp) as (Hk & Hact & _).
      rewrite Hid in Hk. by rewrite Hk.
Qed.

(** C4 (as amended): whenever [markExit] finds a position whose TP and SL
    references are both recorded and non-empty, [markExit(ref, tp_hit)]
    returns the SL reference and [markExit(ref, sl_hit)] returns the TP
    reference, with the position in the exit status, and the paired digest
    is not null.  When the two references differ, the digest returned is
    one of the two and never the reference of the exit order just
    triggered (the TP reference for tp_hit, the SL reference for sl_hit).
    (The tests in [markExit] are truthiness tests, so a recorded but empty
    reference is answered with null; and a position whose two references
    are the same string gets that string back.) *)
Theorem markExit_returns_other_exit_digest now digest t k p tpd sld :
  resolve t digest = Some (k, p) →
  tpOrderDigest p = Some tpd →
  slOrderDigest p = Some sld →
  JS.truthy tpd = true →
  JS.truthy sld = true →
  (markExit now digest exit_tp_hit t).2 = Some (setStatus tp_hit now p, Some sld)
  ∧ (markExit now digest exit_sl_hit t).2 = Some (setStatus sl_hit now p, Some tpd)
  ∧ (∀ exitType q paired,
        (markExit now digest exitType t).2 = Some (q, paired) →
        status q = exitStatus exitType
        ∧ tpOrderDigest q = Some tpd ∧ slOrderDigest q = Some sld
        ∧ ∃ d, paired = Some d
               ∧ (d = tpd ∨ d = sld)
               ∧ (tpd ≠ sld →
                  d ≠ match exitType with
                      | exit_tp_hit => tpd
                      | exit_sl_hit => sld
                      end)).
Proof.
  intros Hres Htp Hsl Htpd Hsld.
  assert (∀ exitType,
            (markExit now digest exitType t).2
            = Some (setStatus (exitStatus exitType) now p,
                    Some match exitType with
                         | exit_tp_hit => sld
                         | exit_sl_hit => tpd
                         end)) as Hexit.
  { intros exitType. unfold markExit. rewrite Hres. unfold pairedDigestOf.
    destruct exitType; simpl; rewrite ?Htp, ?Hsl; simpl; by rewrite ?Htpd, ?Hsld. }
  split; [exact (Hexit exit_tp_hit)|]. split; [exact (Hexit exit_sl_hit)|].
  intros exitType q paired Hq. rewrite Hexit in Hq. injection Hq as <- <-.
  split; [done|]. split; [done|]. split; [done|].
  eexists. split; [done|].
  destruct exitType; (split; [tauto|]); intros Hne; congruence.
Qed.

(** C8 (as amended): [cleanup] is total; it removes exactly the records
    whose status is tp_hit, sl_hit or cancelled, deletes from the index the
    non-empty entry, TP and SL digests recorded in them, keeps every pending
    or filled record as it is (whatever its timestamps), and leaves
    unchanged every index entry whose key is not such a digest of a removed
    record. *)
Theorem cleanup_removes_terminal_records t :
  (∀ k p, positions t !! k = Some p → isTerminal (status p) = true →
          positions (cleanup t) !! k = None
          ∧ ∀ d, d ∈ digestsOf p → digestToPositionId (cleanup t) !! d = None)
  ∧ (∀ k p, positions t !! k = Some p → isActive (status p) = true →
            positions (cleanup t) !! k = Some p)
  ∧ (∀ k, positions t !! k = None → positions (cleanup t) !! k = None)
  ∧ (∀ d, (∀ k p, positions t !! k = Some p → isTerminal (status p) = true →
                  d ∉ digestsOf p) →
          digestToPositionId (cleanup t) !! d = digestToPositionId t !! d).
Proof.
  split; [|split; [|split]].
  - intros k p Hk Hterm. split; [by rewrite cleanup_positions, Hk, Hterm|].
    intros d Hd. rewrite cleanup_index. rewrite bool_decide_eq_true_2; [done|].
    apply elem_of_removedDigests. eauto.
  - intros k p Hk Hact. rewrite cleanup_positions, Hk, isTerminal_isActive, Hact. done.
  - intros k Hk. by rewrite cleanup_positions, Hk.
  - intros d Hd. rewrite cleanup_index. rewrite bool_decide_eq_false_2; [done|].
    intros (k & p & Hk & Hterm & Hin)%elem_of_removedDigests. by eapply Hd.
Qed.

End TrackerFacts.

(** *** The tracker on concrete runs *)

(** A long entry of size 1 on product 4 at the given level. *)
Definition sampleParams (lvl : float) (entryDigest : string) : CreateParams :=
  {| cp_productId := 4; cp_level := lvl; cp_side := long; cp_size := 1;
     cp_entryOrderDigest := entryDigest |}.

Definition sampleTracker : PositionTracker :=
  applyOp JS.numToStringInt emptyTracker (OpCreatePosition 1 (sampleParams 100 "e1")).

Definition samplePosition : LevelPosition :=
  (createPosition JS.numToStringInt 1 (sampleParams 100 "e1") emptyTracker).2.

Definition sampleFilled : LevelPosition := setFilled 2 100 "tp1" "sl1" samplePosition.

Definition sampleOps : list TrackerOp :=
  [OpMarkFilled 2 "e1" 100 "tp1" "sl1"; OpMarkExit 3 "tp1" exit_tp_hit;
   OpMarkCancelled 4 "e1"].

(** C1, counterexample: the tracker's own operations leave the state
    machine.  [markFilled] on a cancelled position makes it filled;
    [markExit] on a pending position makes it tp_hit without passing through
    filled; [markExit] on a tp_hit position makes it sl_hit. *)
Lemma tracker_operations_leave_state_machine :
  (let t1 := runOps JS.numToStringInt sampleTracker [OpMarkCancelled 2 "e1"] in
   let t2 := applyOp JS.numToStringInt t1 (OpMarkFilled 3 "e1" 100 "tp1" "sl1") in
   status <$> positions t1 !! "4-long-100" = Some cancelled
   ∧ status <$> positions t2 !! "4-long-100" = Some filled)
  ∧
  (let t2 := applyOp JS.numToStringInt sampleTracker (OpMarkExit 2 "e1" exit_tp_hit) in
   status <$> positions sampleTracker !! "4-long-100" = Some pending
   ∧ status <$> positions t2 !! "4-long-100" = Some tp_hit)
  ∧
  (let t1 := runOps JS.numToStringInt sampleTracker
               [OpMarkFilled 2 "e1" 100 "tp1" "sl1"; OpMarkExit 3 "tp1" exit_tp_hit] in
   let t2 := applyOp JS.numToStringInt t1 (OpMarkExit 4 "sl1" exit_sl_hit) in
   status <$> positions t1 !! "4-long-100" = Some tp_hit
   ∧ status <$> positions t2 !! "4-long-100" = Some sl_hit).
Proof. vm_compute. done. Qed.

(** The guarded run [sampleOps] from [sampleTracker]: its first operation
    takes the record from pending to filled. *)
Lemma guarded_run_follows_state_machine_witness :
  guardedRun JS.numToStringInt guardedOp sampleTracker sampleOps = true
  ∧ keepsSlot JS.numToStringInt "4-long-100" sampleOps = true
  ∧ (status sampleFilled = status samplePosition
     ∨ transition (status samplePosition) (status sampleFilled)).
Proof.
  split; [vm_compute; reflexivity|]. split; [vm_compute; reflexivity|].
  refine (proj1 (guarded_run_follows_state_machine JS.numToStringInt sampleTracker
                   sampleOps "4-long-100" _ _)
            [] (OpMarkFilled 2 "e1" 100 "tp1" "sl1")
            [OpMarkExit 3 "tp1" exit_tp_hit; OpMarkCancelled 4 "e1"]
            samplePosition sampleFilled _ _ _);
    vm_compute; reflexivity.
Defined.



(** C4, counterexample.  A position filled with an empty TP reference has
    both references recorded (neither is null), yet [markExit(sl, sl_hit)]
    returns a null paired digest.  A position filled with the same string x
    as TP and as SL reference gets x back from [markExit(x, tp_hit)]: the
    digest of the order just triggered. *)
Lemma markExit_returns_null_for_empty_digest :
  (let t1 := runOps JS.numToStringInt sampleTracker [OpMarkFilled 2 "e1" 100 "" "sl1"] in
   status <$> positions t1 !! "4-long-100" = Some filled
   ∧ tpOrderDigest <$> positions t1 !! "4-long-100" = Some (Some "")
   ∧ slOrderDigest <$> positions t1 !! "4-long-100" = Some (Some "sl1")
   ∧ snd <$> (markExit 3 "sl1" exit_sl_hit t1).2 = Some None)
  ∧
  (let t1 := runOps JS.numToStringInt sampleTracker [OpMarkFilled 2 "e1" 100 "x" "x"] in
   status <$> positions t1 !! "4-long-100" = Some filled
   ∧ tpOrderDigest <$> positions t1 !! "4-long-100" = Some (Some "x")
   ∧ slOrderDigest <$> positions t1 !! "4-long-100" = Some (Some "x")
   ∧ snd <$> (markExit 3 "x" exit_tp_hit t1).2 = Some (Some "x")).
Proof. vm_compute. done. Qed.

(** A position filled with the references tp1 and sl1: the fill of tp1
    returns sl1, the fill of sl1 returns tp1. *)
Lemma markExit_returns_other_exit_digest_witness :
  let t1 := runOps JS.numToStringInt sampleTracker [OpMarkFilled 2 "e1" 100 "tp1" "sl1"] in
  (markExit 3 "tp1" exit_tp_hit t1).2 = Some (setStatus tp_hit 3 sampleFilled, Some "sl1")
  ∧ (markExit 3 "sl1" exit_sl_hit t1).2 = Some (setStatus sl_hit 3 sampleFilled, Some "tp1")
  ∧ (∀ q paired,
        (markExit 3 "tp1" exit_tp_hit t1).2 = Some (q, paired) →
        status q = tp_hit ∧ paired = Some "sl1")
  ∧ (∀ q paired,
        (markExit 3 "sl1" exit_sl_hit t1).2 = Some (q, paired) →
        status q = sl_hit ∧ paired = Some "tp1").
Proof.
  intros t1.
  assert (resolve t1 "tp1" = Some ("4-long-100", sampleFilled)) as Htp
    by (vm_compute; reflexivity).
  assert (resolve t1 "sl1" = Some ("4-long-100", sampleFilled)) as Hsl
    by (vm_compute; reflexivity).
  assert ("tp1" ≠ "sl1") as Hne by discriminate.
  destruct (markExit_returns_other_exit_digest 3 "tp1" t1 "4-long-100" sampleFilled
              "tp1" "sl1" Htp eq_refl eq_refl eq_refl eq_refl) as (Ha & _ & Hc).
  destruct (markExit_returns_other_exit_digest 3 "sl1" t1 "4-long-100" sampleFilled
              "tp1" "sl1" Hsl eq_refl eq_refl eq_refl eq_refl) as (_ & Hb & Hd).
  split; [exact Ha|]. split; [exact Hb|]. split.
  - intros q paired Hq.
    destruct (Hc exit_tp_hit q paired Hq) as (Hst & _ & _ & d & -> & Hd12 & Hd3).
    split; [exact Hst|]. destruct Hd12 as [->| ->]; [|reflexivity].
    destruct (Hd3 Hne eq_refl).
  - intros q paired Hq.
    destruct (Hd exit_sl_hit q paired Hq) as (Hst & _ & _ & d & -> & Hd12 & Hd3).
    split; [exact Hst|]. destruct Hd12 as [->| ->]; [reflexivity|].
    destruct (Hd3 Hne eq_refl).
Defined.

(** C8, counterexample.  First run: an entry digest is registered for two
    slots, the first of which is cancelled; [cleanup] then deletes the index
    entry of the digest although it belongs to a pending position.  Second
    run: a position registered under the empty digest is cancelled;
    [cleanup] removes the position and keeps its index entry. *)
Lemma cleanup_index_counterexample :
  (let t := runOps JS.numToStringInt emptyTracker
              [OpCreatePosition 1 (sampleParams 100 "d"); OpMarkCancelled 2 "d";
               OpCreatePosition 3 (sampleParams 90 "d")] in
   status <$> positions t !! "4-long-90" = Some pending
   ∧ entryOrderDigest <$> positions t !! "4-long-90" = Some (Some "d")
   ∧ digestToPositionId t !! "d" = Some "4-long-90"
   ∧ status <$> positions (cleanup t) !! "4-long-90" = Some pending
   ∧ digestToPositionId (cleanup t) !! "d" = None)
  ∧
  (let t := runOps JS.numToStringInt emptyTracker
              [OpCreatePosition 1 (sampleParams 100 ""); OpMarkCancelled 2 ""] in
   status <$> positions t !! "4-long-100" = Some cancelled
   ∧ entryOrderDigest <$> positions t !! "4-long-100" = Some (Some "")
   ∧ positions (cleanup t) !! "4-long-100" = None
   ∧ digestToPositionId (cleanup t) !! "" = Some "4-long-100").
Proof. vm_compute. done. Qed.

End Tracker.

(* ===================================================================== *)
(** ** src/strategy/dynamicLevels.ts: calculatePivotLevels *)
(* ===================================================================== *)

Module Levels.

Import Tracker.

Record PivotLevel := mkPivotLevel {
  price : float;
  side : OrderSide;
  pivotType : string
}.

(** The loop counter [i] as a number. *)
Definition ofNat (i : nat) : float := JS.ofZ (Z.of_nat i).

(** [Math.round(price * 10000) / 10000]. *)
Definition round4 (p : float) : float :=
  (JS.Math_round (p * 10000) / 10000)%float.

Definition resistanceLevel (pivot range : float) (i : nat) : PivotLevel :=
  {| price := round4 (pivot + ofNat i * range)%float;
     side := short;
     pivotType := "R" +:+ pretty i |}.

Definition supportLevel (pivot range : float) (i : nat) : PivotLevel :=
  {| price := round4 (pivot - ofNat i * range)%float;
     side := long;
     pivotType := "S" +:+ pretty i |}.

(** [for (let i = 1; i <= count; i++) levels.push(mk(i))], started at [i]
    with [remaining = count + 1 - i] iterations to go.  The counts are
    natural numbers. *)
Fixpoint pushLoop (mk : nat → PivotLevel) (remaining i : nat)
    (levels : list PivotLevel) : list PivotLevel :=
  match remaining with
  | O => levels
  | S remaining' => pushLoop mk remaining' (S i) (levels ++ [mk i])
  end.

Definition calculatePivotLevels (high low close : float)
    (rLevelsCount sLevelsCount : nat) : list PivotLevel :=
  let pivot := ((high + low + close) / 3)%float in
  let range := (high - low)%float in
  let levels := pushLoop (resistanceLevel pivot range) rLevelsCount 1 [] in
  pushLoop (supportLevel pivot range) sLevelsCount 1 levels.




Lemma pushLoop_seq mk remaining i levels :
  pushLoop mk remaining i levels = levels ++ (mk <$> seq i remaining).
Proof.
  revert i levels. induction remaining as [|n IH]; intros i levels; simpl.
  - by rewrite app_nil_r.
  - rewrite IH. by rewrite <- app_assoc.
Qed.





Set Warnings "-inexact-float".




End Levels.

(* ===================================================================== *)
(** ** src/ws/manager.ts: reconnection *)
(* ===================================================================== *)

Module WS.

(** The fields of [WebSocketManager] the reconnection logic reads and
    writes.  The counter and the delays are integers far below 2^53, where
    JavaScript's arithmetic is exact, so they are modelled in [Z]. *)
Record WebSocketManager := mkManager {
  reconnectAttempts : Z;
  isShuttingDown : bool
}.

Definition maxReconnectAttempts : Z := 20.
Definition baseReconnectDelay : Z := 1000.
Definition maxReconnectDelay : Z := 30000.

(** [scheduleReconnect]: the delay handed to [setTimeout], or nothing when
    the attempts are used up. *)
Definition scheduleReconnect (m : WebSocketManager) : WebSocketManager * option Z :=
  if (maxReconnectAttempts <=? reconnectAttempts m)%Z then (m, None)
  else
    let delay :=
      Z.min (baseReconnectDelay * 2 ^ reconnectAttempts m) maxReconnectDelay in
    ({| reconnectAttempts := reconnectAttempts m + 1;
        isShuttingDown := isShuttingDown m |},
     Some delay).

(** The ['close'] handler installed by [connect]. *)
Definition onClose (m : WebSocketManager) : WebSocketManager * option Z :=
  if negb (isShuttingDown m) then scheduleReconnect m else (m, None).

(** The ['open'] handler installed by [connect]. *)
Definition onOpen (m : WebSocketManager) : WebSocketManager :=
  {| reconnectAttempts := 0; isShuttingDown := isShuttingDown m |}.

(** [disconnect]. *)
Definition disconnect (m : WebSocketManager) : WebSocketManager :=
  {| reconnectAttempts := reconnectAttempts m; isShuttingDown := true |}.

(** A manager as constructed. *)
Definition initial : WebSocketManager :=
  {| reconnectAttempts := 0; isShuttingDown := false |}.

(** The manager after [n] consecutive close events. *)
Fixpoint afterCloses (n : nat) (m : WebSocketManager) : WebSocketManager :=
  match n with
  | O => m
  | S n' => (onClose (afterCloses n' m)).1
  end.

(** What the close event number [S n] of a row schedules. *)
Definition nthReconnectDelay (n : nat) (m : WebSocketManager) : option Z :=
  (onClose (afterCloses n m)).2.

Lemma afterCloses_state n m :
  isShuttingDown m = false →
  reconnectAttempts m = 0%Z →
  isShuttingDown (afterCloses n m) = false
  ∧ reconnectAttempts (afterCloses n m) = Z.of_nat (Nat.min n 20).
Proof.
  intros Hs Ha. induction n as [|n [IHs IHa]]; [by split|].
  cbn [afterCloses].
  unfold onClose, scheduleReconnect, maxReconnectAttempts. rewrite IHs, IHa. simpl negb. cbv iota.
  destruct (20 <=? Z.of_nat (n `min` 20))%Z eqn:Hle; simpl.
  - apply Z.leb_le in Hle. split; [done|]. try rewrite IHa. lia.
  - apply Z.leb_gt in Hle. split; [done|]. try rewrite IHa. lia.
Qed.

(** C9: starting from a manager that is not shutting down and whose attempt
    counter is zero (as constructed, or after an open event), the N-th
    consecutive close event schedules a reconnect after
    min(1000·2^(N−1), 30000) milliseconds for N = 1..20, and schedules
    nothing from the 21st on; a close event during a deliberate shutdown
    schedules nothing.  ([nthReconnectDelay n] is what the close event
    number n+1 schedules.) *)
Theorem reconnect_delay_backoff :
  (∀ n m, nthReconnectDelay n (onOpen (mkManager m false)) =
          if (n <? 20)%nat
          then Some (Z.min (baseReconnectDelay * 2 ^ Z.of_nat n) maxReconnectDelay)
          else None)
  ∧ (∀ n, nthReconnectDelay n initial =
          if (n <? 20)%nat then Some (Z.min (1000 * 2 ^ Z.of_nat n) 30000) else None)
  ∧ (∀ N, (1 ≤ N)%nat →
          nthReconnectDelay (N - 1) initial =
          if (N <=? 20)%nat then Some (Z.min (1000 * 2 ^ (Z.of_nat N - 1)) 30000)
          else None)
  ∧ (∀ m, isShuttingDown m = true → onClose m = (m, None)).
Proof.
  assert (∀ n m, isShuttingDown m = false → reconnectAttempts m = 0%Z →
                 nthReconnectDelay n m =
                 if (n <? 20)%nat
                 then Some (Z.min (baseReconnectDelay * 2 ^ Z.of_nat n) maxReconnectDelay)
                 else None) as Hgen.
  { intros n m Hs Ha. unfold nthReconnectDelay.
    destruct (afterCloses_state n m Hs Ha) as [Hs' Ha'].
    unfold onClose, scheduleReconnect, maxReconnectAttempts. rewrite Hs', Ha'. simpl negb. cbv iota.
    destruct (n <? 20)%nat eqn:Hn.
    - apply Nat.ltb_lt in Hn. rewrite (proj2 (Z.leb_gt _ _)) by lia.
      simpl. by rewrite Nat.min_l by lia.
    - apply Nat.ltb_ge in Hn. rewrite (proj2 (Z.leb_le _ _)) by lia. done. }
  split; [|split; [|split]].
  - intros n m. by apply Hgen.
  - intros n. by apply Hgen.
  - intros N HN. rewrite (Hgen (N - 1)%nat initial eq_refl eq_refl).
    unfold baseReconnectDelay, maxReconnectDelay.
    replace (Z.of_nat (N - 1)) with (Z.of_nat N - 1)%Z by lia.
    destruct (N <=? 20)%nat eqn:HN20.
    + apply Nat.leb_le in HN20. by rewrite (proj2 (Nat.ltb_lt _ _)) by lia.
    + apply Nat.leb_gt in HN20. by rewrite (proj2 (Nat.ltb_ge _ _)) by lia.
  - intros m Hs. unfold onClose. by rewrite Hs.
Qed.

End WS.

(* ===================================================================== *)
(** ** src/strategy/engine.ts: stream normalisation and the fill handler *)
(* ===================================================================== *)

Module Engine.

Import Tracker.

Set Warnings "-inexact-float".

(** A field of a stream event: [string | number]. *)
Inductive StreamValue :=
| SNumber (x : float)
| SString (s : string).

Record FillEvent := mkFillEvent {
  order_digest : string;
  price : StreamValue;
  filled_qty : StreamValue;
  remaining_qty : StreamValue
}.

Record BestBidOfferEvent := mkBestBidOfferEvent {
  product_id : float;
  bid_price : StreamValue;
  ask_price : StreamValue
}.

(** [OrderResult] of src/orders/manager.ts. *)
Record OrderResult := mkOrderResult {
  digest : string;
  success : bool;
  submittedPrice : option float;
  submittedTriggerPrice : option float
}.

(** The order manager as the handler sees it.  Its methods catch every
    failure and answer with a flag; the venue's answers are taken as a
    function of the request. *)
Record OrderManager := mkOrderManager {
  cancelOrder : string → float → bool;
  placeTakeProfitOrder : float → float → float → float → bool → OrderResult;
  placeStopLossOrder : float → float → float → float → bool → OrderResult
}.

(** The fields of [BotConfig] the fill handler reads. *)
Record BotConfig := mkBotConfig {
  tpPercent : float;
  slPercent : float
}.

(** What a handler does besides updating the tracker, in order: the calls
    to the order manager and the handler's own log lines (the tracker's and
    the order manager's internal log lines are left out). *)
Inductive Effect :=
| LogDebug (message : string)
| LogInfo (message : string)
| LogEntryFilled (positionId : string) (fillPrice filledQty remainingQty : float)
| LogWarn (message : string)
| LogPlacementFailed (positionId : string) (tpSuccess slSuccess : bool)
| CallCancelOrder (digest : string) (productId : float)
| CallPlaceTakeProfit (productId triggerPrice limitPrice amount : float) (isLong : bool)
| CallPlaceStopLoss (productId triggerPrice limitPrice amount : float) (isLong : bool).

Definition isPlacement (e : Effect) : bool :=
  match e with
  | CallPlaceTakeProfit _ _ _ _ _ | CallPlaceStopLoss _ _ _ _ _ => true
  | _ => false
  end.

(** The four prices and the amount computed by [onFill] (lines 189-212). *)
Record ExitOrders := mkExitOrders {
  tpTriggerPrice : float;
  tpLimitPrice : float;
  slTriggerPrice : float;
  slLimitPrice : float;
  exitAmount : float
}.

Definition exitOrders (config : BotConfig) (fillPrice : float) (isLong : bool)
    (size : float) : ExitOrders :=
  let tpOffset := (fillPrice * (tpPercent config / 100))%float in
  let slOffset := (fillPrice * (slPercent config / 100))%float in
  if isLong then
    let tpTrigger := (fillPrice + tpOffset)%float in
    let slTrigger := (fillPrice - slOffset)%float in
    {| tpTriggerPrice := tpTrigger;
       tpLimitPrice := (tpTrigger * 0.995)%float;
       slTriggerPrice := slTrigger;
       slLimitPrice := (slTrigger * 0.995)%float;
       exitAmount := (- size)%float |}
  else
    let tpTrigger := (fillPrice - tpOffset)%float in
    let slTrigger := (fillPrice + slOffset)%float in
    {| tpTriggerPrice := tpTrigger;
       tpLimitPrice := (tpTrigger * 1.005)%float;
       slTriggerPrice := slTrigger;
       slLimitPrice := (slTrigger * 1.005)%float;
       exitAmount := size |}.

Definition isLongSide (s : OrderSide) : bool :=
  match s with
  | long => true
  | short => false
  end.

Definition oppositeSide (s : OrderSide) : OrderSide :=
  match s with
  | long => short
  | short => long
  end.

(** The filter of [cancelOppositePendingEntries]; [===] on numbers is the
    IEEE comparison. *)
Definition isOppositePending (pid : float) (filledSide : OrderSide)
    (filledEntryDigest : string) (p : LevelPosition) : bool :=
  (productId p =? pid)%float
  && bool_decide (status p = pending)
  && bool_decide (side p = oppositeSide filledSide)
  && JS.truthyOpt (entryOrderDigest p)
  && negb (bool_decide (entryOrderDigest p = Some filledEntryDigest)).

(** The body of the loop of [cancelOppositePendingEntries]. *)
Definition cancelStep (om : OrderManager) (now : Z)
    (acc : PositionTracker * list Effect) (pos : LevelPosition)
  : PositionTracker * list Effect :=
  match entryOrderDigest pos with
  | Some d =>
      if JS.truthy d then
        if cancelOrder om d (productId pos)
        then ((markCancelled now d acc.1).1, acc.2 ++ [CallCancelOrder d (productId pos)])
        else (acc.1,
              acc.2 ++ [CallCancelOrder d (productId pos);
                        LogWarn "Failed to cancel opposite pending entry"])
      else acc
  | None => acc
  end.

Definition cancelOppositePendingEntries (om : OrderManager) (now : Z)
    (pid : float) (filledSide : OrderSide) (filledEntryDigest : string)
    (t : PositionTracker) : PositionTracker * list Effect :=
  let candidates :=
    filter (λ p, isOppositePending pid filledSide filledEntryDigest p = true)
      (getActivePositions t) in
  match candidates with
  | [] => (t, [])
  | _ => foldl (cancelStep om now) (t, [LogInfo "Cancelling opposite pending entries"])
           candidates
  end.

Section WithParser.

(** The global [parseFloat]. *)
Variable parseFloat : string → float.

Definition parsedValue (value : StreamValue) : float :=
  match value with
  | SNumber x => x
  | SString s => parseFloat s
  end.

Definition normalizeStreamPrice (value : StreamValue) : float :=
  let parsed := parsedValue value in
  if negb (JS.isFinite parsed) then 0%float
  else if (1e12 <? abs parsed)%float then (parsed / 1e18)%float
  else parsed.

(** [onBestBidOffer]: the binding written to [latestPrices]. *)
Definition onBestBidOffer (event : BestBidOfferEvent) : float * float :=
  let bid := normalizeStreamPrice (bid_price event) in
  let ask := normalizeStreamPrice (ask_price event) in
  (product_id event, ((bid + ask) / 2)%float).

Definition onFill (om : OrderManager) (config : BotConfig) (now : Z)
    (t : PositionTracker) (event : FillEvent) : PositionTracker * list Effect :=
  let d := order_digest event in
  match getByEntryDigest t d with
  | None => (t, [LogDebug "Fill for unknown order, ignoring"])
  | Some position =>
      if negb (bool_decide (status position = pending))
      then (t, [LogDebug "Fill for non-pending position, ignoring"])
      else
        let fillPrice := normalizeStreamPrice (price event) in
        let isLong := isLongSide (side position) in
        let entryLog :=
          LogEntryFilled (id position) fillPrice
            (normalizeStreamPrice (filled_qty event))
            (normalizeStreamPrice (remaining_qty event)) in
        let cancelled :=
          cancelOppositePendingEntries om now (productId position) (side position) d t in
        let x := exitOrders config fillPrice isLong (size position) in
        let tpResult :=
          placeTakeProfitOrder om (productId position) (tpTriggerPrice x)
            (tpLimitPrice x) (exitAmount x) isLong in
        let slResult :=
          placeStopLossOrder om (productId position) (slTriggerPrice x)
            (slLimitPrice x) (exitAmount x) isLong in
        let effects :=
          [entryLog] ++ cancelled.2
          ++ [LogInfo ("Placing TP/SL for " +:+ id position);
              CallPlaceTakeProfit (productId position) (tpTriggerPrice x)
                (tpLimitPrice x) (exitAmount x) isLong;
              CallPlaceStopLoss (productId position) (slTriggerPrice x)
                (slLimitPrice x) (exitAmount x) isLong] in
        if success tpResult && success slResult
        then ((markFilled now d fillPrice (digest tpResult) (digest slResult)
                 cancelled.1).1,
              effects)
        else (cancelled.1,
              effects ++ [LogPlacementFailed (id position) (success tpResult)
                            (success slResult)])
  end.

End WithParser.

(** The answers [onFill] receives for the two submissions it makes for a
    position [p] filled at [fillPrice]. *)
Definition tpResultOf (om : OrderManager) (config : BotConfig) (fillPrice : float)
    (p : LevelPosition) : OrderResult :=
  let x := exitOrders config fillPrice (isLongSide (side p)) (size p) in
  placeTakeProfitOrder om (productId p) (tpTriggerPrice x) (tpLimitPrice x)
    (exitAmount x) (isLongSide (side p)).

Definition slResultOf (om : OrderManager) (config : BotConfig) (fillPrice : float)
    (p : LevelPosition) : OrderResult :=
  let x := exitOrders config fillPrice (isLongSide (side p)) (size p) in
  placeStopLossOrder om (productId p) (slTriggerPrice x) (slLimitPrice x)
    (exitAmount x) (isLongSide (side p)).

(** The two submissions themselves, as they appear among the effects. *)
Definition placementsOf (config : BotConfig) (fillPrice : float) (p : LevelPosition)
  : list Effect :=
  let x := exitOrders config fillPrice (isLongSide (side p)) (size p) in
  [CallPlaceTakeProfit (productId p) (tpTriggerPrice x) (tpLimitPrice x)
     (exitAmount x) (isLongSide (side p));
   CallPlaceStopLoss (productId p) (slTriggerPrice x) (slLimitPrice x)
     (exitAmount x) (isLongSide (side p))].

(** Every entry digest recorded in a position of the registry is indexed
    to that position's key. *)
Definition indexConsistent (t : PositionTracker) : Prop :=
  ∀ k q d, positions t !! k = Some q → entryOrderDigest q = Some d →
           JS.truthy d = true → digestToPositionId t !! d = Some k.

(** *** Facts about the fill handler *)

(** A record after the cancellation pass of a handler: as before, or, if
    it was pending, cancelled by the pass. *)
Definition sameOrCancelled (now : Z) (p p1 : LevelPosition) : Prop :=
  p1 = p ∨ (status p = pending ∧ p1 = setStatus cancelled now p).

Lemma cancelStep_index om now acc pos :
  digestToPositionId (cancelStep om now acc pos).1 = digestToPositionId acc.1.
Proof.
  unfold cancelStep. destruct (entryOrderDigest pos) as [d|]; [|done].
  destruct (JS.truthy d); [|done].
  destruct (cancelOrder om d (productId pos)); [|done].
  simpl. apply markCancelled_index.
Qed.

Lemma cancelStep_placements om now acc pos :
  filter (λ e, isPlacement e = true) (cancelStep om now acc pos).2
  = filter (λ e, isPlacement e = true) acc.2.
Proof.
  unfold cancelStep. destruct (entryOrderDigest pos) as [d|]; [|done].
  destruct (JS.truthy d); [|done].
  destruct (cancelOrder om d (productId pos)); simpl;
    rewrite filter_app; simpl; by rewrite app_nil_r.
Qed.

Lemma cancelStep_record om now acc pos k p :
  positions acc.1 !! k = Some p →
  ∃ p1, positions (cancelStep om now acc pos).1 !! k = Some p1
        ∧ sameOrCancelled now p p1.
Proof.
  intros Hk. unfold cancelStep.
  destruct (entryOrderDigest pos) as [d|]; [|exists p; split; [done|by left]].
  destruct (JS.truthy d); [|exists p; split; [done|by left]].
  destruct (cancelOrder om d (productId pos)); [|exists p; split; [done|by left]].
  simpl. rewrite markCancelled_positions.
  destruct (resolve acc.1 d) as [[posId position]|] eqn:Hres;
    [|exists p; split; [done|by left]].
  case_decide as H; [|exists p; split; [done|by left]].
  destruct H as [-> Hst]. apply resolve_Some in Hres as [_ Hpos].
  rewrite Hk in Hpos. injection Hpos as <-.
  eexists. split; [done|]. by right.
Qed.

Lemma cancelStep_other_key om now acc pos k :
  (∀ d, entryOrderDigest pos = Some d → JS.truthy d = true →
        digestToPositionId acc.1 !! d ≠ Some k) →
  positions (cancelStep om now acc pos).1 !! k = positions acc.1 !! k.
Proof.
  intros Hother. unfold cancelStep.
  destruct (entryOrderDigest pos) as [d|]; [|done].
  destruct (JS.truthy d) eqn:Hd; [|done].
  destruct (cancelOrder om d (productId pos)); [|done].
  simpl. rewrite markCancelled_positions.
  destruct (resolve acc.1 d) as [[posId position]|] eqn:Hres; [|done].
  case_decide as H; [|done]. destruct H as [-> _].
  apply resolve_Some in Hres as [Hidx _]. by destruct (Hother d eq_refl Hd).
Qed.

Lemma sameOrCancelled_trans now p p1 p2 :
  sameOrCancelled now p p1 → sameOrCancelled now p1 p2 → sameOrCancelled now p p2.
Proof.
  intros [->|[Hp ->]] [->|[Hp1 ->]]; try (by left); try (by right).
Qed.

Lemma cancelLoop_index om now cands acc :
  digestToPositionId (foldl (cancelStep om now) acc cands).1 = digestToPositionId acc.1.
Proof.
  revert acc. induction cands as [|pos cands IH]; intros acc; [done|].
  simpl. rewrite IH. apply cancelStep_index.
Qed.

Lemma cancelLoop_placements om now cands acc :
  filter (λ e, isPlacement e = true) (foldl (cancelStep om now) acc cands).2
  = filter (λ e, isPlacement e = true) acc.2.
Proof.
  revert acc. induction cands as [|pos cands IH]; intros acc; [done|].
  simpl. rewrite IH. apply cancelStep_placements.
Qed.

Lemma cancelLoop_record om now cands acc k p :
  positions acc.1 !! k = Some p →
  ∃ p1, positions (foldl (cancelStep om now) acc cands).1 !! k = Some p1
        ∧ sameOrCancelled now p p1.
Proof.
  revert acc p. induction cands as [|pos cands IH]; intros acc p Hk.
  - exists p. split; [done|by left].
  - simpl. destruct (cancelStep_record om now acc pos k p Hk) as (p1 & Hk1 & H1).
    destruct (IH _ _ Hk1) as (p2 & Hk2 & H2).
    exists p2. split; [done|]. by eapply sameOrCancelled_trans.
Qed.

Lemma cancelLoop_other_key om now cands acc k :
  (∀ pos d, pos ∈ cands → entryOrderDigest pos = Some d → JS.truthy d = true →
            digestToPositionId acc.1 !! d ≠ Some k) →
  positions (foldl (cancelStep om now) acc cands).1 !! k = positions acc.1 !! k.
Proof.
  revert acc. induction cands as [|pos cands IH]; intros acc Hother; [done|].
  simpl. rewrite IH.
  - apply cancelStep_other_key. intros d. apply Hother. left.
  - intros pos' d Hin. rewrite cancelStep_index. apply Hother. by right.
Qed.

(** The cancellation pass: the index is untouched, no order is placed, a
    record is kept or cancelled, and the record of the filled entry is not
    touched when the index is consistent. *)
Lemma cancelOpposite_index om now pid sd d t :
  digestToPositionId (cancelOppositePendingEntries om now pid sd d t).1
  = digestToPositionId t.
Proof.
  unfold cancelOppositePendingEntries.
  destruct (filter (λ p, isOppositePending _ _ _ p = true) _) as [|q qs]; [done|].
  by rewrite cancelLoop_index.
Qed.

Lemma cancelOpposite_placements om now pid sd d t :
  filter (λ e, isPlacement e = true) (cancelOppositePendingEntries om now pid sd d t).2
  = [].
Proof.
  unfold cancelOppositePendingEntries.
  destruct (filter (λ p, isOppositePending _ _ _ p = true) _) as [|q qs]; [done|].
  by rewrite cancelLoop_placements.
Qed.

Lemma cancelOpposite_record om now pid sd d t k p :
  positions t !! k = Some p →
  ∃ p1, positions (cancelOppositePendingEntries om now pid sd d t).1 !! k = Some p1
        ∧ sameOrCancelled now p p1.
Proof.
  intros Hk. unfold cancelOppositePendingEntries.
  destruct (filter (λ p, isOppositePending _ _ _ p = true) _) as [|q qs];
    [exists p; split; [done|by left]|].
  by apply cancelLoop_record.
Qed.

Lemma cancelOpposite_keeps_filled_entry om now pid d t k p :
  indexConsistent t →
  positions t !! k = Some p →
  positions (cancelOppositePendingEntries om now pid (side p) d t).1 !! k = Some p.
Proof.
  intros Hidx Hk. unfold cancelOppositePendingEntries.
  destruct (filter (λ p, isOppositePending _ _ _ p = true) _) as [|q qs] eqn:Hcands;
    [done|].
  rewrite <- Hcands. rewrite cancelLoop_other_key; [done|].
  intros pos e Hin He Htruthy. simpl.
  apply list_elem_of_filter in Hin as [Hopp Hin].
  apply list_elem_of_filter in Hin as [_ Hin].
  apply list_elem_of_fmap in Hin as ([k' q'] & -> & Hin).
  apply elem_of_map_to_list in Hin. simpl in *.
  rewrite (Hidx k' q' e Hin He Htruthy). intros [= ->].
  rewrite Hk in Hin. injection Hin as <-.
  unfold isOppositePending in Hopp.
  repeat (apply andb_prop in Hopp as [Hopp ?]).
  match goal with H : bool_decide (side p = _) = true |- _ =>
    apply bool_decide_eq_true in H; by destruct (side p) end.
Qed.

Section FillHandler.

Variable parseFloat : string → float.

(** [onFill] for an event whose digest resolves to a pending position. *)
Lemma onFill_pending om config now t event k p :
  resolve t (order_digest event) = Some (k, p) →
  status p = pending →
  onFill parseFloat om config now t event =
    let fp := normalizeStreamPrice parseFloat (price event) in
    let cancelled :=
      cancelOppositePendingEntries om now (productId p) (side p) (order_digest event) t in
    let effects :=
      [LogEntryFilled (id p) fp
         (normalizeStreamPrice parseFloat (filled_qty event))
         (normalizeStreamPrice parseFloat (remaining_qty event))]
      ++ cancelled.2
      ++ LogInfo ("Placing TP/SL for " +:+ id p) :: placementsOf config fp p in
    if success (tpResultOf om config fp p) && success (slResultOf om config fp p)
    then ((markFilled now (order_digest event) fp
             (digest (tpResultOf om config fp p)) (digest (slResultOf om config fp p))
             cancelled.1).1,
          effects)
    else (cancelled.1,
          effects ++ [LogPlacementFailed (id p) (success (tpResultOf om config fp p))
                        (success (slResultOf om config fp p))]).
Proof.
  intros Hres Hst. unfold onFill, getByEntryDigest. rewrite Hres. simpl.
  rewrite Hst. simpl. done.
Qed.

Lemma onFill_placements om config now t event k p :
  resolve t (order_digest event) = Some (k, p) →
  status p = pending →
  filter (λ e, isPlacement e = true) (onFill parseFloat om config now t event).2
  = placementsOf config (normalizeStreamPrice parseFloat (price event)) p.
Proof.
  intros Hres Hst. rewrite (onFill_pending _ _ _ _ _ _ _ Hres Hst). cbv zeta.
  destruct (success _ && success _); cbn [snd];
    rewrite !filter_app, cancelOpposite_placements; done.
Qed.

(** When both submissions succeed the record found by the handler is
    committed by [markFilled], whatever the cancellation pass did. *)
Lemma onFill_commit om config now t event k p :
  resolve t (order_digest event) = Some (k, p) →
  status p = pending →
  let fp := normalizeStreamPrice parseFloat (price event) in
  success (tpResultOf om config fp p) && success (slResultOf om config fp p) = true →
  ∃ p1, sameOrCancelled now p p1
        ∧ positions (onFill parseFloat om config now t event).1 !! k
          = Some (setFilled now fp (digest (tpResultOf om config fp p))
                    (digest (slResultOf om config fp p)) p1).
Proof.
  intros Hres Hst fp Hboth. rewrite (onFill_pending _ _ _ _ _ _ _ Hres Hst).
  cbv zeta. fold fp. rewrite Hboth. simpl.
  apply resolve_Some in Hres as Hres'. destruct Hres' as [Hidx Hk].
  destruct (cancelOpposite_record om now (productId p) (side p) (order_digest event)
              t k p Hk) as (p1 & Hk1 & Hp1).
  exists p1. split; [done|].
  rewrite markFilled_positions.
  assert (resolve (cancelOppositePendingEntries om now (productId p) (side p)
                     (order_digest event) t).1 (order_digest event) = Some (k, p1))
    as ->.
  { unfold resolve in *. rewrite cancelOpposite_index, Hidx in *.
    destruct (JS.truthy k); [|done]. by rewrite Hk1. }
  by rewrite decide_True.
Qed.

(** When a submission fails the tracker is the one the cancellation pass
    left, and the failure is logged. *)
Lemma onFill_no_commit om config now t event k p :
  resolve t (order_digest event) = Some (k, p) →
  status p = pending →
  let fp := normalizeStreamPrice parseFloat (price event) in
  success (tpResultOf om config fp p) && success (slResultOf om config fp p) = false →
  (onFill parseFloat om config now t event).1
  = (cancelOppositePendingEntries om now (productId p) (side p) (order_digest event) t).1
  ∧ LogPlacementFailed (id p) (success (tpResultOf om config fp p))
      (success (slResultOf om config fp p))
    ∈ (onFill parseFloat om config now t event).2.
Proof.
  intros Hres Hst fp Hboth. rewrite (onFill_pending _ _ _ _ _ _ _ Hres Hst).
  cbv zeta. fold fp. rewrite Hboth. simpl. split; [done|].
  apply list_elem_of_further. rewrite !elem_of_app. right.
  rewrite !elem_of_cons. tauto.
Qed.

(** C3: for a fill event whose digest resolves to a pending position, the
    handler submits the take-profit and the stop-loss once each and nothing
    more.  If both succeed the record becomes the one [markFilled] writes:
    its status is filled, its fill price is the normalised price of the
    event, its TP and SL references are the digests the two submissions
    returned, both indexed to the position, and its other fields are as
    they were.  If either fails the handler leaves the tracker as the
    cancellation of the opposite side left it: the index is as before, the
    record has no exit reference and no fill price recorded and is not
    filled, and the failure is logged with the success flag of each leg.
    Hence the record is filled after the handler if and only if both
    submissions succeeded.  In a tracker whose index is consistent the
    record of a failed fill is exactly the record as it was. *)
Theorem onFill_commits_iff_both_exits_placed om config now t event k p :
  resolve t (order_digest event) = Some (k, p) →
  status p = pending →
  let fp := normalizeStreamPrice parseFloat (price event) in
  let tpResult := tpResultOf om config fp p in
  let slResult := slResultOf om config fp p in
  let r := onFill parseFloat om config now t event in
  (success tpResult && success slResult = true →
     positions r.1 !! k = Some (setFilled now fp (digest tpResult) (digest slResult) p)
     ∧ (∃ q, positions r.1 !! k = Some q
             ∧ status q = filled
             ∧ fillPrice q = Some fp
             ∧ tpOrderDigest q = Some (digest tpResult)
             ∧ slOrderDigest q = Some (digest slResult)
             ∧ entryOrderDigest q = entryOrderDigest p
             ∧ id q = id p ∧ productId q = productId p ∧ level q = level p
             ∧ side q = side p ∧ size q = size p ∧ createdAt q = createdAt p)
     ∧ digestToPositionId r.1 !! digest tpResult = Some k
     ∧ digestToPositionId r.1 !! digest slResult = Some k)
  ∧ (success tpResult && success slResult = false →
       r.1 = (cancelOppositePendingEntries om now (productId p) (side p)
                (order_digest event) t).1
       ∧ digestToPositionId r.1 = digestToPositionId t
       ∧ (∃ p1, positions r.1 !! k = Some p1
                ∧ tpOrderDigest p1 = tpOrderDigest p
                ∧ slOrderDigest p1 = slOrderDigest p
                ∧ fillPrice p1 = fillPrice p
                ∧ status p1 ≠ filled)
       ∧ (indexConsistent t → positions r.1 !! k = Some p)
       ∧ LogPlacementFailed (id p) (success tpResult) (success slResult) ∈ r.2)
  ∧ filter (λ e, isPlacement e = true) r.2 = placementsOf config fp p
  ∧ (status <$> positions r.1 !! k = Some filled
     ↔ success tpResult && success slResult = true).
Proof.
  intros Hres Hst fp tpResult slResult r. subst r tpResult slResult fp.
  apply resolve_Some in Hres as Hres'. destruct Hres' as [Hd Hk].
  destruct (cancelOpposite_record om now (productId p) (side p) (order_digest event)
              t k p Hk) as (p1 & Hk1 & Hp1).
  assert (resolve (cancelOppositePendingEntries om now (productId p) (side p)
                     (order_digest event) t).1 (order_digest event) = Some (k, p1))
    as Hres1.
  { unfold resolve in *. rewrite cancelOpposite_index, Hd in *.
    destruct (JS.truthy k); [|done]. by rewrite Hk1. }
  assert (∀ fp tp sl, setFilled now fp tp sl p1 = setFilled now fp tp sl p) as Hset.
  { intros fp tp sl. by destruct Hp1 as [->|[_ ->]]. }
  assert (tpOrderDigest p1 = tpOrderDigest p ∧ slOrderDigest p1 = slOrderDigest p
          ∧ fillPrice p1 = fillPrice p ∧ status p1 ≠ filled) as Hsame.
  { destruct Hp1 as [->|[_ ->]]; [by rewrite Hst|done]. }
  pose proof (onFill_placements om config now t event k p Hres Hst) as Hplaced.
  rewrite (onFill_pending _ _ _ _ _ _ _ Hres Hst) in *. cbv zeta in *.
  destruct (success (tpResultOf om config _ p) && success (slResultOf om config _ p))
    eqn:Hboth; cbn [fst snd] in *.
  - unfold markFilled. rewrite Hres1. cbn [fst positions digestToPositionId].
    rewrite Hset.
    split; [intros _|split; [done|split; [done|]]].
    + split; [apply lookup_insert_eq|].
      split; [eexists; split; [apply lookup_insert_eq|done]|].
      split; [|apply lookup_insert_eq].
      destruct (decide (digest (slResultOf om config
                                  (normalizeStreamPrice parseFloat (price event)) p)
                        = digest (tpResultOf om config
                                    (normalizeStreamPrice parseFloat (price event)) p)))
        as [->|Hne]; [apply lookup_insert_eq|].
      rewrite lookup_insert_ne by done. apply lookup_insert_eq.
    + rewrite lookup_insert_eq. done.
  - split; [done|]. split; [intros _|split; [done|]].
    + split; [done|]. split; [apply cancelOpposite_index|].
      split; [by exists p1|]. split.
      * intros Hidx. by apply cancelOpposite_keeps_filled_entry.
      * rewrite !elem_of_app. right. apply list_elem_of_here.
    + rewrite Hk1. simpl. destruct Hsame as (_ & _ & _ & Hnf).
      split; [by intros [= ?]|done].
Qed.

(** C6 (as amended): for a pending long position whose entry fills at 100
    with take-profit 1.5% and stop-loss 0.75%, the handler submits the
    take-profit with trigger 101.5 and limit 101.5·0.995 ≈ 100.9925 and the
    stop-loss with trigger 99.25 and limit 99.25·0.995 ≈ 98.7538; when both
    submissions succeed the position is filled, with fill price 100 and
    both references recorded. *)
Theorem onFill_long_at_100_places_exits om now t event k p :
  resolve t (order_digest event) = Some (k, p) →
  status p = pending →
  side p = long →
  normalizeStreamPrice parseFloat (price event) = 100%float →
  let config := {| tpPercent := 1.5; slPercent := 0.75 |} in
  let x := exitOrders config 100 true (size p) in
  let r := onFill parseFloat om config now t event in
  tpTriggerPrice x = 101.5%float
  ∧ (100.9924 <? tpLimitPrice x)%float = true
  ∧ (tpLimitPrice x <? 100.9926)%float = true
  ∧ slTriggerPrice x = 99.25%float
  ∧ (98.7537 <? slLimitPrice x)%float = true
  ∧ (slLimitPrice x <? 98.7538)%float = true
  ∧ filter (λ e, isPlacement e = true) r.2
    = [CallPlaceTakeProfit (productId p) (tpTriggerPrice x) (tpLimitPrice x)
         (- size p)%float true;
       CallPlaceStopLoss (productId p) (slTriggerPrice x) (slLimitPrice x)
         (- size p)%float true]
  ∧ (success (tpResultOf om config 100 p) && success (slResultOf om config 100 p) = true →
     ∃ p', positions r.1 !! k = Some p'
           ∧ status p' = filled
           ∧ fillPrice p' = Some 100%float
           ∧ tpOrderDigest p' = Some (digest (tpResultOf om config 100 p))
           ∧ slOrderDigest p' = Some (digest (slResultOf om config 100 p))).
Proof.
  intros Hres Hst Hside Hprice config x r.
  repeat (split; [vm_compute; reflexivity|]).
  split.
  - unfold r. rewrite (onFill_placements _ _ _ _ _ _ _ Hres Hst), Hprice.
    unfold placementsOf. rewrite Hside. done.
  - intros Hboth.
    destruct (onFill_commit om config now t event k p Hres Hst) as (p1 & _ & Hp1).
    { cbv zeta. by rewrite Hprice. }
    rewrite Hprice in Hp1. eexists. split; [exact Hp1|]. done.
Qed.

(** C10 (as amended): [normalizeStreamPrice] is a total function of the
    field.  A number is taken as it is and a string through [parseFloat];
    the value so obtained gives 0 when it is NaN or an infinity, is divided
    by 10^18 when it is finite and of magnitude above 10^12, and is
    returned as it is otherwise.  [onBestBidOffer] normalises the bid and
    the ask, [onFill] normalises the price and both quantities; a fill of a
    pending entry whose price does not parse is handled with fill price 0:
    the exits are submitted from 0 and, when both succeed, 0 is recorded. *)
Theorem normalizeStreamPrice_cases :
  (∀ value x,
      (value = SNumber x ∨ ∃ s, value = SString s ∧ x = parseFloat s) →
      (JS.isFinite x = false → normalizeStreamPrice parseFloat value = 0%float)
      ∧ (JS.isFinite x = true → (1e12 <? abs x)%float = true →
         normalizeStreamPrice parseFloat value = (x / 1e18)%float)
      ∧ (JS.isFinite x = true → (1e12 <? abs x)%float = false →
         normalizeStreamPrice parseFloat value = x))
  ∧ (∀ event,
        (onBestBidOffer parseFloat event).2
        = ((normalizeStreamPrice parseFloat (bid_price event)
            + normalizeStreamPrice parseFloat (ask_price event)) / 2)%float)
  ∧ (∀ om config now t event k p x,
        resolve t (order_digest event) = Some (k, p) →
        status p = pending →
        (price event = SNumber x ∨ ∃ s, price event = SString s ∧ x = parseFloat s) →
        JS.isFinite x = false →
        let r := onFill parseFloat om config now t event in
        LogEntryFilled (id p) 0
          (normalizeStreamPrice parseFloat (filled_qty event))
          (normalizeStreamPrice parseFloat (remaining_qty event)) ∈ r.2
        ∧ filter (λ e, isPlacement e = true) r.2 = placementsOf config 0 p
        ∧ (success (tpResultOf om config 0 p) && success (slResultOf om config 0 p) = true →
           ∃ p', positions r.1 !! k = Some p'
                 ∧ status p' = filled ∧ fillPrice p' = Some 0%float)).
Proof.
  assert (∀ value, JS.isFinite (parsedValue parseFloat value) = false →
                   normalizeStreamPrice parseFloat value = 0%float) as Hzero.
  { intros value H. unfold normalizeStreamPrice. cbv zeta. by rewrite H. }
  split; [|split].
  - intros value x Hvalue.
    assert (parsedValue parseFloat value = x) as Hparsed.
    { destruct Hvalue as [->|(s & -> & ->)]; done. }
    split; [intros Hfin; apply Hzero; by rewrite Hparsed|].
    unfold normalizeStreamPrice. cbv zeta. rewrite Hparsed.
    split; intros -> ->; done.
  - done.
  - intros om config now t event k p x Hres Hst Hvalue Hnan r.
    assert (parsedValue parseFloat (price event) = x) as Hparsed.
    { destruct Hvalue as [->|(s & -> & ->)]; done. }
    rewrite <- Hparsed in Hnan.
    pose proof (Hzero _ Hnan) as Hprice. split; [|split].
    + unfold r. rewrite (onFill_pending _ _ _ _ _ _ _ Hres Hst). cbv zeta.
      rewrite Hprice. destruct (success _ && success _); simpl; left.
    + unfold r. by rewrite (onFill_placements _ _ _ _ _ _ _ Hres Hst), Hprice.
    + intros Hboth.
      destruct (onFill_commit om config now t event k p Hres Hst) as (p1 & _ & Hp1).
      { cbv zeta. by rewrite Hprice. }
      rewrite Hprice in Hp1. eexists. split; [exact Hp1|]. done.
Qed.

End FillHandler.

(** Registering a position under a digest no recorded position uses keeps
    the index consistent. *)
Lemma indexConsistent_createPosition numToString now params t :
  indexConsistent t →
  (∀ k q, positions t !! k = Some q →
          entryOrderDigest q ≠ Some (cp_entryOrderDigest params)) →
  indexConsistent (createPosition numToString now params t).1.
Proof.
  intros Hidx Hfresh k q d Hk He Hd. unfold createPosition in *.
  cbn [fst positions digestToPositionId] in *.
  apply lookup_insert_Some in Hk as [[<- <-]|[Hne Hk]].
  - simpl in He. injection He as <-. apply lookup_insert_eq.
  - rewrite lookup_insert_ne; [by eapply Hidx|].
    intros <-. by apply (Hfresh k q).
Qed.

Lemma indexConsistent_empty : indexConsistent emptyTracker.
Proof. intros k q d Hk. unfold emptyTracker in Hk. simpl in Hk. by rewrite lookup_empty in Hk. Qed.

(** *** The fill handler on concrete events *)

(** A book with a pending long entry at 100 (digest e1) and a pending
    short entry at 120 (digest e2) on product 4. *)
Definition sampleBook : PositionTracker :=
  (createPosition JS.numToStringInt 1
     {| cp_productId := 4; cp_level := 120; cp_side := short; cp_size := 1;
        cp_entryOrderDigest := "e2" |}
     sampleTracker).1.

Definition sampleConfig : BotConfig := {| tpPercent := 1.5; slPercent := 0.75 |}.

Definition sampleFill (p : StreamValue) : FillEvent :=
  {| order_digest := "e1"; price := p; filled_qty := SNumber 1; remaining_qty := SNumber 0 |}.

(** An order manager whose every call succeeds, and one whose stop-loss
    submission fails. *)
Definition omAccepting : OrderManager :=
  {| cancelOrder := λ _ _, true;
     placeTakeProfitOrder := λ _ trigger limit _ _, mkOrderResult "tp1" true (Some limit) (Some trigger);
     placeStopLossOrder := λ _ trigger limit _ _, mkOrderResult "sl1" true (Some limit) (Some trigger) |}.

Definition omStopLossFails : OrderManager :=
  {| cancelOrder := λ _ _, true;
     placeTakeProfitOrder := λ _ trigger limit _ _, mkOrderResult "tp1" true (Some limit) (Some trigger);
     placeStopLossOrder := λ _ _ _ _ _, mkOrderResult EmptyString false None None |}.

(** [parseFloat] on strings that hold no number. *)
Definition parseNoNumber (s : string) : float := nan.

Lemma sampleBook_consistent : indexConsistent sampleBook.
Proof.
  apply indexConsistent_createPosition.
  - apply indexConsistent_createPosition; [apply indexConsistent_empty|].
    intros k q Hk. unfold emptyTracker in Hk. simpl in Hk. by rewrite lookup_empty in Hk.
  - intros k q Hk. unfold sampleTracker, applyOp, createPosition in Hk.
    cbn [fst positions] in Hk.
    apply lookup_insert_Some in Hk as [[_ <-]|[_ Hk]]; [done|].
    simpl in Hk. by rewrite lookup_empty in Hk.
Qed.

(** The fill of e1 in [sampleBook]: with both submissions accepted the
    record is committed (and the opposite short entry cancelled); with the
    stop-loss refused the record stays as it was and the failure is logged. *)
Lemma onFill_commits_iff_both_exits_placed_witness :
  (let r := onFill parseNoNumber omAccepting sampleConfig 5 sampleBook
              (sampleFill (SNumber 100)) in
   positions r.1 !! "4-long-100"
   = Some (setFilled 5 100 "tp1" "sl1" samplePosition)
   ∧ (∃ q, positions r.1 !! "4-long-100" = Some q
           ∧ status q = filled ∧ fillPrice q = Some 100%float
           ∧ tpOrderDigest q = Some "tp1" ∧ slOrderDigest q = Some "sl1")
   ∧ status <$> positions r.1 !! "4-short-120" = Some cancelled)
  ∧
  (let r := onFill parseNoNumber omStopLossFails sampleConfig 5 sampleBook
              (sampleFill (SNumber 100)) in
   positions r.1 !! "4-long-100" = Some samplePosition
   ∧ LogPlacementFailed "4-long-100" true false ∈ r.2).
Proof.
  assert (resolve sampleBook "e1" = Some ("4-long-100", samplePosition)) as Hres
    by (vm_compute; reflexivity).
  assert (status samplePosition = pending) as Hst by reflexivity.
  split.
  - destruct (onFill_commits_iff_both_exits_placed parseNoNumber omAccepting sampleConfig
                5 sampleBook (sampleFill (SNumber 100)) "4-long-100" samplePosition
                Hres Hst) as (Hok & _ & _ & _).
    destruct (Hok eq_refl) as (Hrec & (q & Hq & Hs & Hf & Htp & Hsl & _) & _).
    split; [exact Hrec|].
    split; [exists q; repeat split; assumption|vm_compute; reflexivity].
  - destruct (onFill_commits_iff_both_exits_placed parseNoNumber omStopLossFails
                sampleConfig 5 sampleBook (sampleFill (SNumber 100)) "4-long-100"
                samplePosition Hres Hst) as (_ & Hfail & _ & _).
    destruct (Hfail eq_refl) as (_ & _ & _ & Hk & Hlog).
    split; [exact (Hk sampleBook_consistent)|exact Hlog].
Defined.

(** C6, counterexample: at fill price 100 with 1.5% and 0.75% the triggers
    are 101.5 and 99.25, but the limit prices are 101.5·0.995 and
    99.25·0.995: the take-profit limit is below 101 and half a unit away
    from 101.4925, the stop-loss limit is below 99 and 0.39 away from
    99.1513. *)
Lemma exit_limit_prices_are_not_the_stated_ones :
  let x := exitOrders sampleConfig 100 true 1 in
  tpTriggerPrice x = 101.5%float
  ∧ slTriggerPrice x = 99.25%float
  ∧ (tpLimitPrice x <? 101)%float = true
  ∧ (0.49 <? abs (tpLimitPrice x - 101.4925))%float = true
  ∧ (slLimitPrice x <? 99)%float = true
  ∧ (0.39 <? abs (slLimitPrice x - 99.1513))%float = true.
Proof. vm_compute. done. Qed.

(** The fill of the long entry of [sampleTracker] at 100. *)
Lemma onFill_long_at_100_places_exits_witness :
  let r := onFill parseNoNumber omAccepting sampleConfig 5 sampleTracker
             (sampleFill (SNumber 100)) in
  filter (λ e, isPlacement e = true) r.2
  = [CallPlaceTakeProfit 4 101.5 (101.5 * 0.995) (-1) true;
     CallPlaceStopLoss 4 99.25 (99.25 * 0.995) (-1) true]
  ∧ ∃ p', positions r.1 !! "4-long-100" = Some p'
          ∧ status p' = filled
          ∧ fillPrice p' = Some 100%float
          ∧ tpOrderDigest p' = Some "tp1"
          ∧ slOrderDigest p' = Some "sl1".
Proof.
  assert (resolve sampleTracker "e1" = Some ("4-long-100", samplePosition)) as Hres
    by (vm_compute; reflexivity).
  destruct (onFill_long_at_100_places_exits parseNoNumber omAccepting 5 sampleTracker
              (sampleFill (SNumber 100)) "4-long-100" samplePosition
              Hres eq_refl eq_refl eq_refl)
    as (_ & _ & _ & _ & _ & _ & Hplaced & Hfilled).
  split; [exact Hplaced|exact (Hfilled eq_refl)].
Defined.

(** [onPositionChange] of src/index.ts: the handler of position_change
    events logs the fields of the event as they arrive. *)
Record PositionChangeEvent := mkPositionChange {
  pc_product_id : float;
  pc_amount : StreamValue;
  pc_reason : string
}.

Inductive MainLog :=
| LogPositionChange (productId : float) (amount : StreamValue) (reason : string).

Definition onPositionChange (event : PositionChangeEvent) : MainLog :=
  LogPositionChange (pc_product_id event) (pc_amount event) (pc_reason event).

(** C10, counterexample.  Text that is not a number does not always give
    0: [parseFloat] reads the longest numeric prefix, so the field 12px is
    normalised to 12 and 1e3 USD to 1000.  And not every quantity of a
    stream event is normalised: the position_change handler logs the
    amount as received, x18-scaled, where the normalisation gives 5. *)
Lemma stream_values_are_not_all_normalised :
  normalizeStreamPrice JS.parseFloat (SString "12px") = 12%float
  ∧ normalizeStreamPrice JS.parseFloat (SString "1e3 USD") = 1000%float
  ∧ (let event := mkPositionChange 4 (SString "5000000000000000000") "fill" in
     onPositionChange event = LogPositionChange 4 (SString "5000000000000000000") "fill"
     ∧ normalizeStreamPrice JS.parseFloat (pc_amount event) = 5%float).
Proof. vm_compute. done. Qed.

(** The cases of the normalisation on numbers and on strings, with
    [parseFloat] itself, and a fill whose price is the string abc. *)
Lemma normalizeStreamPrice_cases_witness :
  normalizeStreamPrice JS.parseFloat (SString "abc") = 0%float
  ∧ normalizeStreamPrice JS.parseFloat (SString "Infinity") = 0%float
  ∧ normalizeStreamPrice JS.parseFloat (SString "2500000000000000000") = 2.5%float
  ∧ normalizeStreamPrice JS.parseFloat (SString "101.5") = 101.5%float
  ∧ normalizeStreamPrice JS.parseFloat (SNumber 2.5e18) = 2.5%float
  ∧ normalizeStreamPrice JS.parseFloat (SNumber 101.5) = 101.5%float
  ∧ normalizeStreamPrice JS.parseFloat (SNumber nan) = 0%float
  ∧ (let r := onFill JS.parseFloat omAccepting sampleConfig 5 sampleTracker
                (sampleFill (SString "abc")) in
     ∃ p', positions r.1 !! "4-long-100" = Some p'
           ∧ status p' = filled ∧ fillPrice p' = Some 0%float).
Proof.
  destruct (normalizeStreamPrice_cases JS.parseFloat) as (Hcases & _ & Hfill).
  assert (∀ s x, x = JS.parseFloat s →
                 SString s = SNumber x ∨ ∃ s', SString s = SString s' ∧ x = JS.parseFloat s')
    as Hstr by (intros s x ->; right; exists s; split; reflexivity).
  split; [exact (proj1 (Hcases (SString "abc") _ (Hstr "abc" _ eq_refl)) eq_refl)|].
  split; [exact (proj1 (Hcases (SString "Infinity") _ (Hstr "Infinity" _ eq_refl)) eq_refl)|].
  split; [exact (proj1 (proj2 (Hcases (SString "2500000000000000000") _
                                 (Hstr "2500000000000000000" _ eq_refl))) eq_refl eq_refl)|].
  split; [exact (proj2 (proj2 (Hcases (SString "101.5") _ (Hstr "101.5" _ eq_refl)))
                   eq_refl eq_refl)|].
  split; [exact (proj1 (proj2 (Hcases (SNumber 2.5e18) _ (or_introl eq_refl)))
                   eq_refl eq_refl)|].
  split; [exact (proj2 (proj2 (Hcases (SNumber 101.5) _ (or_introl eq_refl)))
                   eq_refl eq_refl)|].
  split; [exact (proj1 (Hcases (SNumber nan) _ (or_introl eq_refl)) eq_refl)|].
  assert (resolve sampleTracker "e1" = Some ("4-long-100", samplePosition)) as Hres
    by (vm_compute; reflexivity).
  destruct (Hfill omAccepting sampleConfig 5%Z sampleTracker (sampleFill (SString "abc"))
              "4-long-100" samplePosition (JS.parseFloat "abc") Hres eq_refl
              (or_intror (ex_intro _ "abc" (conj eq_refl eq_refl))) eq_refl)
    as (_ & _ & Hzero).
  exact (Hzero eq_refl).
Defined.

End Engine.

(* ===================================================================== *)
(** ** src/orders/tracker.ts: lookups, summary and further laws *)
(* ===================================================================== *)

Module TrackerLaws.

Import Tracker.

(** The result of [getSummary]. *)
Record Summary := mkSummary {
  summaryPending : nat;
  summaryFilled : nat;
  summaryTotal : nat
}.

(** The body of the loop of [getSummary]: two counters. *)
Definition summaryStep (acc : nat * nat) (pos : LevelPosition) : nat * nat :=
  (if bool_decide (status pos = pending) then S acc.1 else acc.1,
   if bool_decide (status pos = filled) then S acc.2 else acc.2).

Definition getSummary (t : PositionTracker) : Summary :=
  let counts := foldl summaryStep (0, 0) (map_to_list (positions t)).*2 in
  {| summaryPending := counts.1;
     summaryFilled := counts.2;
     summaryTotal := base.size (positions t) |}.

(** The digests an operation registers in the index. *)
Definition registers (op : TrackerOp) : list string :=
  match op with
  | OpCreatePosition _ params => [cp_entryOrderDigest params]
  | OpMarkFilled _ _ _ tp sl => [tp; sl]
  | _ => []
  end.

(** What the state machine says about the fields of a record: a pending
    record has no exit reference and no fill price, a filled record has
    all three. *)
Definition fieldsMatchStatus (p : LevelPosition) : Prop :=
  (status p = pending →
     tpOrderDigest p = None ∧ slOrderDigest p = None ∧ fillPrice p = None)
  ∧ (status p = filled →
       is_Some (tpOrderDigest p) ∧ is_Some (slOrderDigest p) ∧ is_Some (fillPrice p)).

(** A tracker none of whose records is terminal. *)
Definition noTerminal (t : PositionTracker) : Prop :=
  ∀ k p, positions t !! k = Some p → isTerminal (status p) = false.

Section Laws.

Variable numToString : float → string.

Lemma tracker_eq (t1 t2 : PositionTracker) :
  positions t1 = positions t2 →
  digestToPositionId t1 = digestToPositionId t2 →
  t1 = t2.
Proof. destruct t1, t2. simpl. by intros -> ->. Qed.

Lemma truthy_append_cons a c s : JS.truthy (a +:+ String c s) = true.
Proof. by destruct a. Qed.

(** A slot identity is never the empty string. *)
Lemma positionId_truthy pid sd lvl :
  JS.truthy (positionId numToString pid sd lvl) = true.
Proof. unfold positionId. apply truthy_append_cons. Qed.

Lemma resolve_iff t d k p :
  resolve t d = Some (k, p) ↔
  digestToPositionId t !! d = Some k ∧ JS.truthy k = true ∧ positions t !! k = Some p.
Proof.
  unfold resolve. split.
  - destruct (digestToPositionId t !! d) as [posId|]; [|done].
    destruct (JS.truthy posId) eqn:Htr; [|done].
    destruct (positions t !! posId) as [q|] eqn:Hq; [|done].
    by intros [= <- <-].
  - intros (-> & -> & ->). done.
Qed.

Lemma resolve_unknown t d :
  digestToPositionId t !! d = None → resolve t d = None.
Proof. unfold resolve. by intros ->. Qed.

(** X1: [createPosition] followed by the lookups.  The position just
    created is what [getByEntryDigest] and [getByDigest] return for its
    entry digest, it is pending with no exit reference and no fill price,
    its slot is reported active, and it is listed by [getActivePositions];
    every other slot and every other index entry is as before. *)
Theorem createPosition_then_lookup now params t :
  let r := createPosition numToString now params t in
  getByEntryDigest r.1 (cp_entryOrderDigest params) = Some r.2
  ∧ getByDigest r.1 (cp_entryOrderDigest params) = Some r.2
  ∧ status r.2 = pending
  ∧ tpOrderDigest r.2 = None ∧ slOrderDigest r.2 = None ∧ fillPrice r.2 = None
  ∧ hasActivePosition numToString (cp_productId params) (cp_side params)
      (cp_level params) r.1 = true
  ∧ r.2 ∈ getActivePositions r.1
  ∧ (∀ k, k ≠ id r.2 → positions r.1 !! k = positions t !! k)
  ∧ (∀ d, d ≠ cp_entryOrderDigest params →
          digestToPositionId r.1 !! d = digestToPositionId t !! d).
Proof.
  intros r.
  assert (positions r.1 !! id r.2 = Some r.2) as Hk.
  { unfold r. rewrite createPosition_positions. simpl. by rewrite decide_True. }
  assert (resolve r.1 (cp_entryOrderDigest params) = Some (id r.2, r.2)) as Hres.
  { apply resolve_iff. split; [|split; [|done]].
    - unfold r, createPosition. simpl. apply lookup_insert_eq.
    - apply positionId_truthy. }
  split; [|split]; [unfold getByEntryDigest; by rewrite Hres
                   |unfold getByDigest; by rewrite Hres|].
  do 4 (split; [done|]). split; [|split; [|split]].
  - unfold hasActivePosition.
    change (positionId numToString (cp_productId params) (cp_side params)
              (cp_level params)) with (id r.2).
    by rewrite Hk.
  - apply list_elem_of_filter. split; [done|].
    apply list_elem_of_fmap. exists (id r.2, r.2). split; [done|].
    by apply elem_of_map_to_list.
  - intros k Hne. unfold r. rewrite createPosition_positions.
    simpl in *. by rewrite decide_False.
  - intros d Hne. unfold r, createPosition. simpl. by rewrite lookup_insert_ne.
Qed.

Lemma markExit_index now d e t :
  digestToPositionId (markExit now d e t).1 = digestToPositionId t.
Proof. unfold markExit. by destruct (resolve t d) as [[posId position]|]. Qed.

(** With a digest the index does not know, every lookup answers null and
    every marking operation returns null and leaves the tracker as it is. *)
Lemma unknown_digest_noop t d :
  digestToPositionId t !! d = None →
  getByDigest t d = None
  ∧ getByEntryDigest t d = None
  ∧ (∀ now price tp sl, markFilled now d price tp sl t = (t, None))
  ∧ (∀ now e, markExit now d e t = (t, None))
  ∧ (∀ now, markCancelled now d t = (t, None)).
Proof.
  intros Hd. pose proof (resolve_unknown t d Hd) as Hres.
  unfold getByDigest, getByEntryDigest, markFilled, markExit, markCancelled.
  rewrite Hres. done.
Qed.

Lemma applyOp_index_None t op d :
  digestToPositionId t !! d = None →
  d ∉ registers op →
  digestToPositionId (applyOp numToString t op) !! d = None.
Proof.
  intros Hd Hreg.
  destruct op as [now params|now e price tp sl|now e k|now e|]; cbn [applyOp].
  - unfold createPosition. simpl. rewrite lookup_insert_ne; [done|].
    intros <-. apply Hreg. simpl. left.
  - unfold markFilled. destruct (resolve t e) as [[posId position]|]; [|done].
    simpl. simpl in Hreg. rewrite !lookup_insert_ne; [done|..].
    + intros <-. apply Hreg. left.
    + intros <-. apply Hreg. right. left.
  - by rewrite markExit_index.
  - by rewrite markCancelled_index.
  - rewrite cleanup_index. by case_bool_decide.
Qed.

Lemma runOps_index_None t ops d :
  digestToPositionId t !! d = None →
  d ∉ ops ≫= registers →
  digestToPositionId (runOps numToString t ops) !! d = None.
Proof.
  revert t. induction ops as [|op ops IH]; intros t Hd Hreg; [done|].
  simpl in *. rewrite elem_of_app in Hreg. apply IH; [|tauto].
  apply applyOp_index_None; tauto.
Qed.

(** X2: a digest that no operation of a run registered (as the entry
    digest of a [createPosition] or as the TP or SL digest of a
    [markFilled]) is unknown to the tracker the run reaches from the empty
    one: the lookups answer null, and [markFilled], [markExit] and
    [markCancelled] with it return null and change nothing. *)
Theorem unregistered_digest_is_ignored ops d :
  d ∉ ops ≫= registers →
  let t := runOps numToString emptyTracker ops in
  digestToPositionId t !! d = None
  ∧ getByDigest t d = None
  ∧ getByEntryDigest t d = None
  ∧ (∀ now price tp sl, markFilled now d price tp sl t = (t, None))
  ∧ (∀ now e, markExit now d e t = (t, None))
  ∧ (∀ now, markCancelled now d t = (t, None)).
Proof.
  intros Hreg t.
  assert (digestToPositionId t !! d = None) as Hd.
  { apply runOps_index_None; [|done]. unfold emptyTracker. simpl. apply lookup_empty. }
  split; [done|]. by apply unknown_digest_noop.
Qed.

(** X3: [markFilled] followed by the lookups.  When the entry digest
    resolves to a position, the position returned carries status filled,
    the fill price and both exit digests (its other fields, the
    modification time apart, are as they were), and it is what [getByDigest]
    returns for the TP digest and for the SL digest and what
    [getByEntryDigest] returns for the entry digest; the other slots, and
    the index entries of all other digests, are as before. *)
Theorem markFilled_then_lookup now d price tp sl t k p :
  resolve t d = Some (k, p) →
  let r := markFilled now d price tp sl t in
  let p' := setFilled now price tp sl p in
  r.2 = Some p'
  ∧ (status p' = filled
     ∧ fillPrice p' = Some price
     ∧ tpOrderDigest p' = Some tp
     ∧ slOrderDigest p' = Some sl
     ∧ entryOrderDigest p' = entryOrderDigest p
     ∧ id p' = id p ∧ productId p' = productId p ∧ level p' = level p
     ∧ side p' = side p ∧ size p' = size p
     ∧ createdAt p' = createdAt p ∧ updatedAt p' = now)
  ∧ getByDigest r.1 tp = Some p'
  ∧ getByDigest r.1 sl = Some p'
  ∧ getByEntryDigest r.1 d = Some p'
  ∧ (∀ k', k' ≠ k → positions r.1 !! k' = positions t !! k')
  ∧ (∀ d', d' ≠ tp → d' ≠ sl →
           digestToPositionId r.1 !! d' = digestToPositionId t !! d').
Proof.
  intros Hres r p'. apply resolve_iff in Hres as Hres'.
  destruct Hres' as (Hd & Htr & Hk).
  assert (r = ({| positions := <[k := p']> (positions t);
                  digestToPositionId :=
                    <[sl := k]> (<[tp := k]> (digestToPositionId t)) |}, Some p'))
    as ->.
  { unfold r, markFilled. by rewrite Hres. }
  cbn [fst snd].
  assert (∀ e, <[sl := k]> (<[tp := k]> (digestToPositionId t)) !! e = Some k →
               snd <$> resolve {| positions := <[k := p']> (positions t);
                                  digestToPositionId :=
                                    <[sl := k]> (<[tp := k]> (digestToPositionId t)) |} e
               = Some p') as Hlook.
  { intros e He. unfold resolve. cbn [positions digestToPositionId].
    rewrite He, Htr, lookup_insert_eq. done. }
  split; [done|]. split; [done|]. split; [|split; [|split; [|split]]].
  - apply Hlook. destruct (decide (sl = tp)) as [->|Hne]; [apply lookup_insert_eq|].
    rewrite lookup_insert_ne by done. apply lookup_insert_eq.
  - apply Hlook. apply lookup_insert_eq.
  - apply Hlook. destruct (decide (sl = d)) as [->|Hne]; [apply lookup_insert_eq|].
    rewrite lookup_insert_ne by done.
    destruct (decide (tp = d)) as [->|Hne']; [apply lookup_insert_eq|].
    by rewrite lookup_insert_ne.
  - intros k' Hne. cbn [positions]. by rewrite lookup_insert_ne.
  - intros d' H1 H2. cbn [digestToPositionId]. by rewrite !lookup_insert_ne.
Qed.

(** X4: [markCancelled] is idempotent and never touches the index.  A
    second call with the same digest changes nothing; a pending position
    becomes cancelled and is still found under its digest afterwards (the
    index entry stays until [cleanup]); a position that is not pending is
    returned as it is, the tracker unchanged. *)
Theorem markCancelled_idempotent n1 n2 d t :
  (markCancelled n2 d (markCancelled n1 d t).1).1 = (markCancelled n1 d t).1
  ∧ digestToPositionId (markCancelled n1 d t).1 = digestToPositionId t
  ∧ (∀ k p, resolve t d = Some (k, p) → status p = pending →
            (markCancelled n1 d t).2 = Some (setStatus cancelled n1 p)
            ∧ getByDigest (markCancelled n1 d t).1 d = Some (setStatus cancelled n1 p))
  ∧ (∀ k p, resolve t d = Some (k, p) → status p ≠ pending →
            markCancelled n1 d t = (t, Some p)).
Proof.
  assert (∀ k p, resolve t d = Some (k, p) → status p = pending →
                 markCancelled n1 d t
                 = ({| positions := <[k := setStatus cancelled n1 p]> (positions t);
                       digestToPositionId := digestToPositionId t |},
                    Some (setStatus cancelled n1 p))
                 ∧ resolve (markCancelled n1 d t).1 d
                   = Some (k, setStatus cancelled n1 p)) as Hpend.
  { intros k p Hres Hst.
    assert (markCancelled n1 d t
            = ({| positions := <[k := setStatus cancelled n1 p]> (positions t);
                  digestToPositionId := digestToPositionId t |},
               Some (setStatus cancelled n1 p))) as Heq.
    { unfold markCancelled. by rewrite Hres, Hst. }
    split; [done|]. rewrite Heq. cbn [fst].
    apply resolve_iff in Hres as (Hd & Htr & _). apply resolve_iff.
    cbn [positions digestToPositionId]. by rewrite lookup_insert_eq. }
  assert (∀ k p, resolve t d = Some (k, p) → status p ≠ pending →
                 markCancelled n1 d t = (t, Some p)) as Hother.
  { intros k p Hres Hst. unfold markCancelled. rewrite Hres.
    by destruct (status p). }
  split; [|split; [apply markCancelled_index|split; [|done]]].
  - destruct (resolve t d) as [[k p]|] eqn:Hres.
    + destruct (decide (status p = pending)) as [Hst|Hst].
      * destruct (Hpend k p eq_refl Hst) as [_ Hres1].
        unfold markCancelled at 1. rewrite Hres1. done.
      * rewrite (Hother k p eq_refl Hst). cbn [fst].
        unfold markCancelled. rewrite Hres. by destruct (status p).
    + assert (markCancelled n1 d t = (t, None)) as ->
        by (unfold markCancelled; by rewrite Hres).
      cbn [fst]. unfold markCancelled. by rewrite Hres.
  - intros k p Hres Hst. destruct (Hpend k p Hres Hst) as [Heq Hres1].
    split; [by rewrite Heq|]. unfold getByDigest. by rewrite Hres1.
Qed.

Lemma cleanup_noTerminal t : noTerminal (cleanup t).
Proof.
  intros k p. rewrite cleanup_positions.
  destruct (positions t !! k) as [q|]; [|done].
  destruct (isTerminal (status q)) eqn:Hq; [done|]. by intros [= <-].
Qed.

Lemma cleanup_identity t : noTerminal t → cleanup t = t.
Proof.
  intros Hno. apply tracker_eq.
  - apply map_eq. intros k. rewrite cleanup_positions.
    destruct (positions t !! k) as [p|] eqn:Hk; [|done]. by rewrite (Hno k p Hk).
  - apply map_eq. intros d. rewrite cleanup_index.
    rewrite bool_decide_eq_false_2; [done|].
    intros (k & p & Hk & Hterm & _)%elem_of_removedDigests.
    rewrite (Hno k p Hk) in Hterm. done.
Qed.

(** X5: [cleanup] is idempotent.  After it no record is terminal, a
    second call changes nothing, and a tracker without terminal records is
    returned as it is; [hasActivePosition] answers the same before and
    after, and [getActivePositions] lists the same positions. *)
Theorem cleanup_idempotent t :
  cleanup (cleanup t) = cleanup t
  ∧ noTerminal (cleanup t)
  ∧ (noTerminal t → cleanup t = t)
  ∧ (∀ pid sd lvl, hasActivePosition numToString pid sd lvl (cleanup t)
                   = hasActivePosition numToString pid sd lvl t)
  ∧ (∀ p, p ∈ getActivePositions (cleanup t) ↔ p ∈ getActivePositions t).
Proof.
  split; [apply cleanup_identity, cleanup_noTerminal|].
  split; [apply cleanup_noTerminal|]. split; [apply cleanup_identity|]. split.
  - intros pid sd lvl. unfold hasActivePosition. rewrite cleanup_positions.
    destruct (positions t !! _) as [p|]; [|done].
    destruct p as [? ? ? ? ? ? ? ? st ? ? ?]. simpl. by destruct st.
  - intros p. unfold getActivePositions. rewrite !list_elem_of_filter.
    rewrite !list_elem_of_fmap. split.
    + intros [Hact ([k q] & -> & Hin)]. split; [done|]. exists (k, q). split; [done|].
      apply elem_of_map_to_list in Hin. apply elem_of_map_to_list.
      rewrite cleanup_positions in Hin.
      destruct (positions t !! k) as [q'|]; [|done].
      destruct (isTerminal (status q')); [done|]. done.
    + intros [Hact ([k q] & -> & Hin)]. split; [done|]. exists (k, q). split; [done|].
      apply elem_of_map_to_list in Hin. apply elem_of_map_to_list.
      rewrite cleanup_positions, Hin. simpl in Hact.
      by rewrite isTerminal_isActive, Hact.
Qed.

(** X6: after [cleanup], an event for an order of a purged position finds
    nothing.  For every terminal position and each of its non-empty
    entry, TP and SL digests, the purged tracker answers null to the
    lookups, and [markFilled], [markExit] and [markCancelled] with that
    digest return null and change nothing. *)
Theorem purged_digest_is_ignored t k p d :
  positions t !! k = Some p →
  isTerminal (status p) = true →
  d ∈ digestsOf p →
  let t' := cleanup t in
  getByDigest t' d = None
  ∧ getByEntryDigest t' d = None
  ∧ (∀ now price tp sl, markFilled now d price tp sl t' = (t', None))
  ∧ (∀ now e, markExit now d e t' = (t', None))
  ∧ (∀ now, markCancelled now d t' = (t', None)).
Proof.
  intros Hk Hterm Hd t'. apply unknown_digest_noop.
  unfold t'. rewrite cleanup_index. rewrite bool_decide_eq_true_2; [done|].
  apply elem_of_removedDigests. eauto.
Qed.

Lemma summary_fold l acc :
  foldl summaryStep acc l
  = (acc.1 + length (filter (λ p, status p = pending) l),
     acc.2 + length (filter (λ p, status p = filled) l)).
Proof.
  revert acc. induction l as [|p l IH]; intros [a b]; simpl.
  - f_equal; lia.
  - rewrite IH. unfold summaryStep. simpl.
    destruct (decide (status p = pending)) as [Hp|Hp];
      destruct (decide (status p = filled)) as [Hf|Hf]; try congruence.
    + rewrite (bool_decide_eq_true_2 _ Hp), (bool_decide_eq_false_2 _ Hf).
      rewrite (filter_cons_True (λ p, status p = pending)) by done.
      rewrite (filter_cons_False (λ p, status p = filled)) by done.
      simpl. f_equal; lia.
    + rewrite (bool_decide_eq_false_2 _ Hp), (bool_decide_eq_true_2 _ Hf).
      rewrite (filter_cons_False (λ p, status p = pending)) by done.
      rewrite (filter_cons_True (λ p, status p = filled)) by done.
      simpl. f_equal; lia.
    + rewrite (bool_decide_eq_false_2 _ Hp), (bool_decide_eq_false_2 _ Hf).
      rewrite (filter_cons_False (λ p, status p = pending)) by done.
      rewrite (filter_cons_False (λ p, status p = filled)) by done.
      done.
Qed.

(** Counting by status in a list of positions, with and without the
    terminal ones. *)
Lemma count_by_status (l : list LevelPosition) :
  length (filter (λ p, status p = pending) l)
  + length (filter (λ p, status p = filled) l)
  = length (filter (λ p, isActive (status p) = true) l).
Proof.
  induction l as [|p l IH]; [done|].
  destruct (status p) eqn:Hst;
    repeat first
      [ rewrite (filter_cons_True (λ p, status p = pending)) by (by rewrite Hst)
      | rewrite (filter_cons_False (λ p, status p = pending)) by (by rewrite Hst)
      | rewrite (filter_cons_True (λ p, status p = filled)) by (by rewrite Hst)
      | rewrite (filter_cons_False (λ p, status p = filled)) by (by rewrite Hst)
      | rewrite (filter_cons_True (λ p, isActive (status p) = true)) by (by rewrite Hst)
      | rewrite (filter_cons_False (λ p, isActive (status p) = true)) by (by rewrite Hst) ];
    simpl; lia.
Qed.

Lemma count_status_among_active (st : LevelStatus) (l : list (string * LevelPosition)) :
  isTerminal st = false →
  length (filter (λ p, status p = st)
            (filter (λ e : string * LevelPosition, isTerminal (status e.2) = false) l).*2)
  = length (filter (λ p, status p = st) l.*2).
Proof.
  intros Hst. induction l as [|[k p] l IH]; [done|].
  rewrite fmap_cons. cbn [snd].
  destruct (decide (isTerminal (status p) = false)) as [Hp|Hp].
  - rewrite (filter_cons_True (λ e : string * LevelPosition, _)) by done.
    rewrite fmap_cons. cbn [snd].
    destruct (decide (status p = st)) as [Hs|Hs].
    + rewrite !(filter_cons_True (λ p, status p = st)) by done. simpl. by rewrite IH.
    + rewrite !(filter_cons_False (λ p, status p = st)) by done. done.
  - rewrite (filter_cons_False (λ e : string * LevelPosition, _)) by done.
    rewrite (filter_cons_False (λ p, status p = st)); [done|].
    intros Hs. apply Hp. by rewrite Hs.
Qed.

(** The entries of the registry after [cleanup] are the entries that were
    not terminal, in some order. *)
Lemma cleanup_entries t :
  map_to_list (positions (cleanup t))
  ≡ₚ filter (λ e : string * LevelPosition, isTerminal (status e.2) = false)
       (map_to_list (positions t)).
Proof.
  apply NoDup_Permutation.
  - apply NoDup_map_to_list.
  - apply NoDup_filter, NoDup_map_to_list.
  - intros [k p]. rewrite list_elem_of_filter, !elem_of_map_to_list.
    rewrite cleanup_positions. simpl. split.
    + destruct (positions t !! k) as [q|]; [|done].
      destruct (isTerminal (status q)) eqn:Hq; [done|]. by intros [= <-].
    + intros [Hp ->]. by rewrite Hp.
Qed.

(** X7: the counters of [getSummary].  [pending] and [filled] count the
    pending and the filled positions listed by [getActivePositions], so
    their sum is the number of active positions and is at most [total],
    the size of the registry; the difference is the number of terminal
    records not yet purged.  After [cleanup] the two counters are the same
    and [total] is their sum. *)
Theorem getSummary_counts t :
  let s := getSummary t in
  summaryPending s = length (filter (λ p, status p = pending) (getActivePositions t))
  ∧ summaryFilled s = length (filter (λ p, status p = filled) (getActivePositions t))
  ∧ summaryPending s + summaryFilled s = length (getActivePositions t)
  ∧ summaryTotal s
    = summaryPending s + summaryFilled s
      + length (filter (λ p, isTerminal (status p) = true) (map_to_list (positions t)).*2)
  ∧ getSummary (cleanup t)
    = {| summaryPending := summaryPending s;
         summaryFilled := summaryFilled s;
         summaryTotal := summaryPending s + summaryFilled s |}.
Proof.
  intros s.
  set (l := (map_to_list (positions t)).*2).
  assert (summaryPending s = length (filter (λ p, status p = pending) l)
          ∧ summaryFilled s = length (filter (λ p, status p = filled) l)) as [Hp Hf].
  { unfold s, getSummary. cbn [summaryPending summaryFilled]. fold l.
    rewrite summary_fold. done. }
  assert (∀ (st : LevelStatus) (l0 : list LevelPosition), isActive st = true →
            filter (λ p, status p = st) (filter (λ p, isActive (status p) = true) l0)
            = filter (λ p, status p = st) l0) as Hsub.
  { intros st l0 Hst. induction l0 as [|p l0 IH]; [done|].
    destruct (decide (status p = st)) as [Hs|Hs].
    - rewrite (filter_cons_True (λ p, isActive (status p) = true)) by (by rewrite Hs).
      rewrite !(filter_cons_True (λ p, status p = st)) by done. by rewrite IH.
    - rewrite (filter_cons_False (λ p, status p = st) p l0) by done.
      destruct (decide (isActive (status p) = true)) as [Ha|Ha].
      + rewrite (filter_cons_True (λ p, isActive (status p) = true)) by done.
        by rewrite (filter_cons_False (λ p, status p = st)) by done.
      + by rewrite (filter_cons_False (λ p, isActive (status p) = true)) by done. }
  assert (length (filter (λ p, isActive (status p) = true) l)
          + length (filter (λ p, isTerminal (status p) = true) l) = length l) as Hsplit.
  { clear. induction l as [|p l IH]; [done|].
    destruct (isActive (status p)) eqn:Ha.
    - rewrite (filter_cons_True (λ p, isActive (status p) = true)) by done.
      rewrite (filter_cons_False (λ p, isTerminal (status p) = true))
        by (by rewrite isTerminal_isActive, Ha).
      simpl. lia.
    - rewrite (filter_cons_False (λ p, isActive (status p) = true)) by (by rewrite Ha).
      rewrite (filter_cons_True (λ p, isTerminal (status p) = true))
        by (by rewrite isTerminal_isActive, Ha).
      simpl. lia. }
  pose proof (count_by_status l) as Hcount.
  split; [|split; [|split; [|split]]].
  - unfold getActivePositions. fold l. by rewrite Hsub.
  - unfold getActivePositions. fold l. by rewrite Hsub.
  - unfold getActivePositions. fold l. lia.
  - unfold s at 1, getSummary. cbn [summaryTotal].
    rewrite <- length_map_to_list. fold l.
    assert (length l = length (map_to_list (positions t))) as <-
      by (unfold l; by rewrite length_fmap).
    lia.
  - unfold getSummary at 1. rewrite summary_fold. cbn [fst snd]. f_equal.
    + rewrite Hp. rewrite (fmap_Permutation snd _ _ (cleanup_entries t)).
      unfold l. by rewrite count_status_among_active.
    + rewrite Hf. rewrite (fmap_Permutation snd _ _ (cleanup_entries t)).
      unfold l. by rewrite count_status_among_active.
    + rewrite <- length_map_to_list. rewrite (cleanup_entries t).
      rewrite Hp, Hf, Hcount.
      rewrite <- (length_fmap snd (filter _ (map_to_list (positions t)))).
      clear. unfold l. induction (map_to_list (positions t)) as [|[k p] l0 IH]; [done|].
      rewrite fmap_cons. cbn [snd]. destruct (isActive (status p)) eqn:Ha.
      * rewrite (filter_cons_True (λ e : string * LevelPosition, _))
          by (simpl; by rewrite isTerminal_isActive, Ha).
        rewrite (filter_cons_True (λ p, isActive (status p) = true)) by done.
        rewrite fmap_cons. simpl. by rewrite IH.
      * rewrite (filter_cons_False (λ e : string * LevelPosition, _))
          by (simpl; by rewrite isTerminal_isActive, Ha).
        by rewrite (filter_cons_False (λ p, isActive (status p) = true))
          by (by rewrite Ha).
Qed.

Lemma recordStep_fields t op p p' :
  recordStep t op p p' → fieldsMatchStatus p → fieldsMatchStatus p'.
Proof.
  intros [|now d price tp sl -> _|now d e -> _|now d -> _] Hp; [done|..];
    split; simpl; try done; try (by destruct e); eauto.
Qed.

Lemma fieldsMatchStatus_applyOp t op :
  map_Forall (λ _, fieldsMatchStatus) (positions t) →
  map_Forall (λ _, fieldsMatchStatus) (positions (applyOp numToString t op)).
Proof.
  intros Hinv k p' Hk'.
  destruct (createsSlot numToString k op) eqn:Hcr.
  - destruct op as [now params| | | |]; try done.
    cbn [createsSlot] in Hcr. apply bool_decide_eq_true in Hcr.
    cbn [applyOp] in Hk'. rewrite createPosition_positions in Hk'.
    rewrite decide_True in Hk' by done. injection Hk' as <-. by split.
  - destruct (positions t !! k) as [p|] eqn:Hk.
    + eapply recordStep_fields; [by eapply applyOp_record|]. by eapply Hinv.
    + by rewrite (applyOp_absent _ _ _ _ Hcr Hk) in Hk'.
Qed.

(** X8: the exit references and the fill price go with the status.  In
    every tracker reached from the empty one, whatever the operations and
    their order, a pending position has no TP reference, no SL reference
    and no fill price, and a filled position has all three: a position is
    never filled with one leg recorded and the other missing. *)
Theorem filled_positions_have_both_exits ops :
  map_Forall (λ _, fieldsMatchStatus)
    (positions (runOps numToString emptyTracker ops)).
Proof.
  assert (∀ t, map_Forall (λ _, fieldsMatchStatus) (positions t) →
               map_Forall (λ _, fieldsMatchStatus)
                 (positions (runOps numToString t ops))) as Hrun.
  { induction ops as [|op ops IH]; intros t Ht; [done|].
    simpl. apply IH. by apply fieldsMatchStatus_applyOp. }
  apply Hrun. unfold emptyTracker. simpl. apply map_Forall_empty.
Qed.

End Laws.

(** *** The laws on concrete runs *)

(** The digest zz was never registered in the run that creates e1 and
    fills it with tp1 and sl1. *)
Lemma unregistered_digest_is_ignored_witness :
  let ops := [OpCreatePosition 1 (sampleParams 100 "e1");
              OpMarkFilled 2 "e1" 100 "tp1" "sl1"] in
  let t := runOps JS.numToStringInt emptyTracker ops in
  ("zz" ∉ ops ≫= registers)
  ∧ getByDigest t "zz" = None
  ∧ markExit 3 "zz" exit_tp_hit t = (t, None).
Proof.
  intros ops t.
  assert ("zz" ∉ ops ≫= registers) as Hreg.
  { simpl. rewrite !elem_of_cons. intros [H|[H|[H|H]]]; try done. by apply elem_of_nil in H. }
  split; [done|].
  destruct (unregistered_digest_is_ignored JS.numToStringInt ops "zz" Hreg)
    as (_ & Hget & _ & _ & Hexit & _).
  split; [exact Hget|exact (Hexit 3%Z exit_tp_hit)].
Defined.

(** Filling the entry e1 of [sampleTracker]. *)
Lemma markFilled_then_lookup_witness :
  let r := markFilled 2 "e1" 100 "tp1" "sl1" sampleTracker in
  resolve sampleTracker "e1" = Some ("4-long-100", samplePosition)
  ∧ getByDigest r.1 "tp1" = Some sampleFilled
  ∧ getByDigest r.1 "sl1" = Some sampleFilled
  ∧ getByEntryDigest r.1 "e1" = Some sampleFilled
  ∧ status sampleFilled = filled
  ∧ fillPrice sampleFilled = Some 100%float
  ∧ tpOrderDigest sampleFilled = Some "tp1"
  ∧ slOrderDigest sampleFilled = Some "sl1".
Proof.
  intros r.
  assert (resolve sampleTracker "e1" = Some ("4-long-100", samplePosition)) as Hres
    by (vm_compute; reflexivity).
  split; [done|].
  destruct (markFilled_then_lookup 2 "e1" 100 "tp1" "sl1" sampleTracker "4-long-100"
              samplePosition Hres)
    as (_ & (Hst & Hfp & Htpd & Hsld & _) & Htp & Hsl & He & _).
  split; [exact Htp|]. split; [exact Hsl|]. split; [exact He|].
  split; [exact Hst|]. split; [exact Hfp|]. split; [exact Htpd|exact Hsld].
Defined.

(** A position closed by its take-profit and then purged: a late event
    for its stop-loss finds nothing. *)
Lemma purged_digest_is_ignored_witness :
  let t := runOps JS.numToStringInt sampleTracker
             [OpMarkFilled 2 "e1" 100 "tp1" "sl1"; OpMarkExit 3 "tp1" exit_tp_hit] in
  positions t !! "4-long-100" = Some (setStatus tp_hit 3 sampleFilled)
  ∧ getByDigest (cleanup t) "sl1" = None
  ∧ markExit 4 "sl1" exit_sl_hit (cleanup t) = (cleanup t, None).
Proof.
  intros t.
  assert (positions t !! "4-long-100" = Some (setStatus tp_hit 3 sampleFilled)) as Hk
    by (vm_compute; reflexivity).
  split; [done|].
  assert ("sl1" ∈ digestsOf (setStatus tp_hit 3 sampleFilled)) as Hd.
  { change ("sl1" ∈ ["e1"; "tp1"; "sl1"]). rewrite !elem_of_cons. tauto. }
  destruct (purged_digest_is_ignored t "4-long-100" (setStatus tp_hit 3 sampleFilled)
              "sl1" Hk eq_refl Hd) as (Hget & _ & _ & Hexit & _).
  split; [exact Hget|exact (Hexit 4%Z exit_sl_hit)].
Defined.

End TrackerLaws.

(* ===================================================================== *)
(** ** src/ws/manager.ts: the outbound queue and the events of a socket *)
(* ===================================================================== *)

Module WSQueue.

(** The manager with its socket and its queue.  [socketOpen] is
    [this.ws?.readyState === WebSocket.OPEN]; [sent] lists what went out
    on a socket, oldest first; [scheduled] lists the delays handed to
    [setTimeout] by [scheduleReconnect], oldest first. *)
Record Manager := mkManager {
  core : WS.WebSocketManager;
  socketOpen : bool;
  pendingMessages : list string;
  sent : list string;
  scheduled : list Z
}.

Definition initial : Manager :=
  {| core := WS.initial; socketOpen := false; pendingMessages := [];
     sent := []; scheduled := [] |}.

(** [send], on the payload [JSON.stringify(message)]. *)
Definition send (payload : string) (m : Manager) : Manager :=
  if socketOpen m
  then {| core := core m; socketOpen := true; pendingMessages := pendingMessages m;
          sent := sent m ++ [payload]; scheduled := scheduled m |}
  else {| core := core m; socketOpen := false;
          pendingMessages := pendingMessages m ++ [payload];
          sent := sent m; scheduled := scheduled m |}.

(** [connect]: nothing during a shutdown, else a new socket, not yet open. *)
Definition connect (m : Manager) : Manager :=
  if WS.isShuttingDown (core m) then m
  else {| core := core m; socketOpen := false; pendingMessages := pendingMessages m;
          sent := sent m; scheduled := scheduled m |}.

(** The ['open'] handler.  The attempt counter is reset, then the
    listeners of ['connected'] run (the socket is open, so what they send
    goes out at once: [listenerPayloads]), then the queue is flushed in
    order and emptied. *)
Definition handleOpen (listenerPayloads : list string) (m : Manager) : Manager :=
  {| core := WS.onOpen (core m);
     socketOpen := true;
     pendingMessages := [];
     sent := (sent m ++ listenerPayloads) ++ pendingMessages m;
     scheduled := scheduled m |}.

(** The ['close'] handler. *)
Definition handleClose (m : Manager) : Manager :=
  let r := WS.onClose (core m) in
  {| core := r.1;
     socketOpen := false;
     pendingMessages := pendingMessages m;
     sent := sent m;
     scheduled := match r.2 with
                  | Some delay => scheduled m ++ [delay]
                  | None => scheduled m
                  end |}.

(** [disconnect]. *)
Definition disconnect (m : Manager) : Manager :=
  {| core := WS.disconnect (core m);
     socketOpen := false;
     pendingMessages := pendingMessages m;
     sent := sent m;
     scheduled := scheduled m |}.

(** What can happen to a manager. *)
Inductive Event :=
| EvSend (payload : string)
| EvConnect
| EvOpen (listenerPayloads : list string)
| EvClose
| EvDisconnect.

Definition handle (m : Manager) (e : Event) : Manager :=
  match e with
  | EvSend payload => send payload m
  | EvConnect => connect m
  | EvOpen listenerPayloads => handleOpen listenerPayloads m
  | EvClose => handleClose m
  | EvDisconnect => disconnect m
  end.

Definition run (m : Manager) (events : list Event) : Manager :=
  foldl handle m events.





(** The attempt counter stays within its bounds and every delay ever
    scheduled is between the base delay and the cap. *)
Definition scheduleBounded (m : Manager) : Prop :=
  (0 ≤ WS.reconnectAttempts (core m) ≤ WS.maxReconnectAttempts)%Z
  ∧ Forall (λ d, (WS.baseReconnectDelay ≤ d ≤ WS.maxReconnectDelay)%Z) (scheduled m).

Lemma handle_scheduleBounded m e : scheduleBounded m → scheduleBounded (handle m e).
Proof.
  intros [Ha Hs]. unfold scheduleBounded, WS.maxReconnectAttempts,
    WS.baseReconnectDelay, WS.maxReconnectDelay in *.
  destruct e as [payload| |l| |]; simpl.
  - unfold send. by destruct (socketOpen m).
  - unfold connect. by destruct (WS.isShuttingDown (core m)).
  - split; [lia|done].
  - unfold WS.onClose, WS.scheduleReconnect, WS.maxReconnectAttempts,
      WS.baseReconnectDelay, WS.maxReconnectDelay.
    destruct (WS.isShuttingDown (core m)); simpl; [done|].
    destruct (20 <=? WS.reconnectAttempts (core m))%Z eqn:Hle; simpl; [done|].
    apply Z.leb_gt in Hle. split; [lia|].
    apply Forall_app. split; [done|]. apply Forall_singleton.
    assert (1 ≤ 2 ^ WS.reconnectAttempts (core m))%Z
      by (apply (Z.pow_le_mono_r 2 0); lia).
    lia.
  - done.
Qed.

Lemma handle_shutdown m e :
  WS.isShuttingDown (core m) = true →
  WS.isShuttingDown (core (handle m e)) = true
  ∧ scheduled (handle m e) = scheduled m.
Proof.
  intros Hs. destruct e as [payload| |l| |]; simpl.
  - unfold send. by destruct (socketOpen m).
  - unfold connect. by rewrite Hs.
  - done.
  - unfold WS.onClose. by rewrite Hs.
  - done.
Qed.

(** X10: the reconnection schedule over any history.  After any sequence
    of events from the initial manager the attempt counter is between 0
    and 20 and every delay ever scheduled is between 1000 and 30000 ms;
    when no shutdown is in progress, the close that follows an open
    schedules the base delay of 1000 ms whatever happened before; and
    once [disconnect] was called no later event schedules a reconnect. *)
Theorem reconnect_schedule_is_bounded events :
  let m := run initial events in
  (0 ≤ WS.reconnectAttempts (core m) ≤ 20)%Z
  ∧ Forall (λ d, (1000 ≤ d ≤ 30000)%Z) (scheduled m)
  ∧ (WS.isShuttingDown (core m) = false →
     ∀ l, scheduled (run m [EvOpen l; EvClose]) = scheduled m ++ [1000%Z])
  ∧ (∀ more, scheduled (run (disconnect m) more) = scheduled m).
Proof.
  intros m.
  assert (scheduleBounded m) as [Ha Hs].
  { assert (∀ m0, scheduleBounded m0 → scheduleBounded (run m0 events)) as Hrun.
    { induction events as [|e events IH]; intros m0 H0; [done|].
      simpl. apply IH. by apply handle_scheduleBounded. }
    apply Hrun. split; simpl; [unfold WS.maxReconnectAttempts; lia|constructor]. }
  unfold WS.maxReconnectAttempts, WS.baseReconnectDelay, WS.maxReconnectDelay in *.
  split; [exact Ha|]. split; [exact Hs|]. split.
  - intros Hns l. simpl. unfold WS.onClose, WS.scheduleReconnect. simpl.
    by rewrite Hns.
  - intros more.
    assert (∀ m0, WS.isShuttingDown (core m0) = true →
                  scheduled (run m0 more) = scheduled m0) as Hrun.
    { induction more as [|e more IH]; intros m0 H0; [done|].
      simpl. destruct (handle_shutdown m0 e H0) as [H1 H2].
      rewrite (IH _ H1). done. }
    by rewrite Hrun.
Qed.

End WSQueue.

(* ===================================================================== *)
(** ** src/ws/subscriptions.ts: the subscription requests *)
(* ===================================================================== *)

Module Subscriptions.

(** The streams [setupSubscriptions] subscribes to. *)
Inductive Stream :=
| BestBidOffer (productId : float)
| OrderUpdate
| Fill
| PositionChange.

(** A message built by [buildSubscriptionMessage(id, 'subscribe', params)]
    and handed to [wsManager.send]. *)
Record SubscribeMessage := mkSubscribe {
  messageId : nat;
  stream : Stream
}.

(** One subscription: build the message with the current [msgId], send it,
    and increment the counter ([msgId++]). *)
Definition subscribe (acc : list SubscribeMessage * nat) (s : Stream)
  : list SubscribeMessage * nat :=
  (acc.1 ++ [mkSubscribe acc.2 s], S acc.2).

(** The listener of ['connected']: best bid/offer for each product, then
    the three account streams.  The counter [msgId] belongs to the closure
    and survives from one connection to the next. *)
Definition onConnected (products : list float) (msgId : nat)
  : list SubscribeMessage * nat :=
  let acc := foldl (λ acc pid, subscribe acc (BestBidOffer pid)) ([], msgId) products in
  subscribe (subscribe (subscribe acc OrderUpdate) Fill) PositionChange.

(** The messages of [n] successive connections, oldest first, and the
    counter afterwards. *)
Fixpoint connections (n : nat) (products : list float) (msgId : nat)
  : list SubscribeMessage * nat :=
  match n with
  | O => ([], msgId)
  | S n' =>
      let first := onConnected products msgId in
      let rest := connections n' products first.2 in
      (first.1 ++ rest.1, rest.2)
  end.

Lemma subscribe_loop products acc :
  foldl (λ acc pid, subscribe acc (BestBidOffer pid)) acc products
  = (acc.1 ++ zip_with mkSubscribe (seq acc.2 (length products))
                (BestBidOffer <$> products),
     acc.2 + length products).
Proof.
  revert acc. induction products as [|pid products IH]; intros [msgs i]; simpl.
  - rewrite app_nil_r. f_equal. lia.
  - rewrite IH. simpl. rewrite <- app_assoc. f_equal. lia.
Qed.

Lemma onConnected_messages products msgId :
  onConnected products msgId
  = (zip_with mkSubscribe (seq msgId (length products + 3))
       ((BestBidOffer <$> products) ++ [OrderUpdate; Fill; PositionChange]),
     msgId + length products + 3).
Proof.
  unfold onConnected. rewrite subscribe_loop. unfold subscribe. simpl.
  f_equal; [|lia].
  rewrite seq_app, zip_with_app by (by rewrite length_seq, length_fmap).
  rewrite <- !app_assoc. simpl.
  by replace (S (msgId + length products)) with (msgId + length products + 1) by lia;
     replace (S (msgId + length products + 1)) with (msgId + length products + 2) by lia.
Qed.

(** X11: the subscription requests.  Each connection subscribes to best
    bid/offer once per configured product, in order, then to order updates,
    fills and position changes; over any number of connections the message
    ids are the consecutive numbers from the initial counter on, so no id is
    ever used twice, not even across reconnections. *)
Theorem subscription_ids_are_consecutive products :
  (∀ msgId,
      stream <$> (onConnected products msgId).1
      = (BestBidOffer <$> products) ++ [OrderUpdate; Fill; PositionChange])
  ∧ (∀ n msgId,
        messageId <$> (connections n products msgId).1
        = seq msgId (n * (length products + 3))
        ∧ (connections n products msgId).2 = msgId + n * (length products + 3))
  ∧ (∀ n msgId, NoDup (messageId <$> (connections n products msgId).1)).
Proof.
  assert (∀ (i : nat) (l : list Stream) (k : nat), length l = k →
            messageId <$> zip_with mkSubscribe (seq i k) l = seq i k
            ∧ stream <$> zip_with mkSubscribe (seq i k) l = l) as Hzip.
  { intros i l. revert i. induction l as [|s l IH]; intros i k <-; [done|].
    destruct (IH (S i) _ eq_refl) as [H1 H2]. simpl.
    split; f_equal; [exact H1|exact H2]. }
  assert (∀ n msgId,
            messageId <$> (connections n products msgId).1
            = seq msgId (n * (length products + 3))
            ∧ (connections n products msgId).2 = msgId + n * (length products + 3))
    as Hids.
  { induction n as [|n IH]; intros msgId; [simpl; split; [done|lia]|].
    cbn [connections fst snd]. rewrite onConnected_messages. cbn [fst snd].
    rewrite fmap_app.
    destruct (IH (msgId + length products + 3)) as [-> ->].
    assert (length ((BestBidOffer <$> products) ++ [OrderUpdate; Fill; PositionChange])
            = length products + 3) as Hlen
      by (rewrite length_app, length_fmap; simpl; lia).
    rewrite (proj1 (Hzip msgId _ _ Hlen)).
    split; [|lia].
    replace (S n * (length products + 3))
      with ((length products + 3) + n * (length products + 3)) by lia.
    rewrite (seq_app (length products + 3) (n * (length products + 3)) msgId).
    by replace (msgId + length products + 3) with (msgId + (length products + 3)) by lia. }
  split; [|split; [exact Hids|]].
  - intros msgId. rewrite onConnected_messages. cbn [fst].
    apply Hzip. rewrite length_app, length_fmap. simpl. lia.
  - intros n msgId. rewrite (proj1 (Hids n msgId)). apply NoDup_seq.
Qed.

End Subscriptions.

(* ===================================================================== *)
(** ** src/strategy/dynamicLevels.ts: candles and buildDynamicLevels *)
(* ===================================================================== *)

Module DynamicLevels.

Import Tracker.

Record ProductConfig := mkProductConfig {
  productId : float;
  orderSize : float
}.

Record DynamicLevel := mkDynamicLevel {
  levelProductId : float;
  levelPrice : float;
  levelSide : OrderSide;
  levelSize : float;
  levelPivotType : string
}.

Section WithCandles.

(** The values of a candlestick as the indexer returns them, and
    [parseFloat(String(x))] on them. *)
Variable Raw : Type.
Variable toNumber : Raw → float.

Record Candle := mkCandle {
  candleHigh : Raw;
  candleLow : Raw;
  candleClose : Raw
}.

(** The body of the loop of [fetchCandlesticks] over the candles; the
    accumulator is (highestHigh, lowestLow, latestClose). *)
Definition candleStep (acc : float * float * float) (candle : Candle)
  : float * float * float :=
  let '(highestHigh, lowestLow, _) := acc in
  let high := toNumber (candleHigh candle) in
  let low := toNumber (candleLow candle) in
  ((if (highestHigh <? high)%float then high else highestHigh),
   (if (low <? lowestLow)%float then low else lowestLow),
   toNumber (candleClose candle)).

(** [fetchCandlesticks], given what [getCandlesticks] answered: [None]
    when it threw or returned nothing. *)
Definition fetchCandlesticks (result : option (list Candle))
  : option (float * float * float) :=
  match result with
  | None => None
  | Some [] => None
  | Some candles => Some (foldl candleStep (neg_infinity, infinity, 0%float) candles)
  end.

(** The levels of one product with candle data. *)
Definition levelsOfProduct (product : ProductConfig) (data : float * float * float)
    (rLevelsCount sLevelsCount : nat) (levels : list DynamicLevel)
  : list DynamicLevel :=
  let '(high, low, close) := data in
  foldl (λ acc l, acc ++ [mkDynamicLevel (productId product) (Levels.price l)
                            (Levels.side l) (orderSize product) (Levels.pivotType l)])
    levels (Levels.calculatePivotLevels high low close rLevelsCount sLevelsCount).

(** [buildDynamicLevels]: the candles of every product are fetched
    ([answers] gives the answer for a product), a product without data is
    skipped, the levels of the others are appended in the order of the
    products. *)
Definition buildDynamicLevels (answers : float → option (list Candle))
    (products : list ProductConfig) (rLevelsCount sLevelsCount : nat)
  : list DynamicLevel :=
  let productData :=
    (λ product, (product, fetchCandlesticks (answers (productId product))))
      <$> products in
  foldl (λ levels entry,
           match entry.2 with
           | None => levels
           | Some data => levelsOfProduct entry.1 data rLevelsCount sLevelsCount levels
           end)
    [] productData.

(** The products for which candles came back. *)
Definition hasData (answers : float → option (list Candle)) (product : ProductConfig)
  : bool :=
  match fetchCandlesticks (answers (productId product)) with
  | Some _ => true
  | None => false
  end.

Lemma candleStep_fold candles acc :
  let r := foldl candleStep acc candles in
  (r.1.1 = acc.1.1 ∨ r.1.1 ∈ (λ c, toNumber (candleHigh c)) <$> candles)
  ∧ (r.1.2 = acc.1.2 ∨ r.1.2 ∈ (λ c, toNumber (candleLow c)) <$> candles)
  ∧ r.2 = default acc.2 ((λ c, toNumber (candleClose c)) <$> last candles).
Proof.
  revert acc. induction candles as [|c candles IH]; intros [[hh ll] cl]; [by auto|].
  cbn [foldl]. destruct (IH (candleStep (hh, ll, cl) c)) as (Hh & Hl & Hc).
  cbv zeta in *. rewrite fmap_cons. split; [|split].
  - destruct Hh as [->|Hin]; [|right; by right].
    simpl. destruct (hh <? toNumber (candleHigh c))%float; [right; left|by left].
  - destruct Hl as [->|Hin]; [|right; by right].
    simpl. destruct (toNumber (candleLow c) <? ll)%float; [right; left|by left].
  - rewrite Hc. destruct candles as [|c' candles]; [done|].
    rewrite last_cons_cons.
    destruct (last (c' :: candles)) as [x|] eqn:Hlast; [done|].
    by apply last_None in Hlast.
Qed.

(** The running high never compares below a high already seen, the
    running low never above a low already seen. *)
Lemma candleStep_extremes candles : ∀ acc,
  ((foldl candleStep acc candles).1.1 = acc.1.1
   ∨ (acc.1.1 <? (foldl candleStep acc candles).1.1)%float = true)
  ∧ ((foldl candleStep acc candles).1.2 = acc.1.2
     ∨ ((foldl candleStep acc candles).1.2 <? acc.1.2)%float = true)
  ∧ (∀ x, x ∈ candles →
          ((foldl candleStep acc candles).1.1 <? toNumber (candleHigh x))%float = false)
  ∧ (∀ x, x ∈ candles →
          (toNumber (candleLow x) <? (foldl candleStep acc candles).1.2)%float = false).
Proof.
  induction candles as [|c candles IH]; intros [[hh ll] cl].
  - cbn [foldl fst snd]. split; [by left|]. split; [by left|].
    split; intros x Hx; by apply elem_of_nil in Hx.
  - cbn [foldl]. destruct (IH (candleStep (hh, ll, cl) c)) as (Hh & Hl & Hhs & Hls).
    set (r := foldl candleStep (candleStep (hh, ll, cl) c) candles) in *.
    cbn [candleStep fst snd] in Hh, Hl. cbn [fst snd].
    set (hc := toNumber (candleHigh c)) in *. set (lc := toNumber (candleLow c)) in *.
    assert ((r.1.1 = hh ∨ (hh <? r.1.1)%float = true)
            ∧ (r.1.1 <? hc)%float = false) as [Hh1 Hh2].
    { destruct (hh <? hc)%float eqn:Hcmp.
      - split.
        + right. destruct Hh as [->|Hlt]; [done|]. by eapply Doubles.ltb_trans.
        + destruct Hh as [->|Hlt]; [apply Doubles.ltb_irrefl|].
          destruct (r.1.1 <? hc)%float eqn:Hgt; [|done].
          pose proof (Doubles.ltb_trans _ _ _ Hlt Hgt) as Habs.
          by rewrite Doubles.ltb_irrefl in Habs.
      - split; [done|]. destruct Hh as [->|Hlt]; [done|].
        destruct (r.1.1 <? hc)%float eqn:Hgt; [|done].
        pose proof (Doubles.ltb_trans _ _ _ Hlt Hgt) as Habs. congruence. }
    assert ((r.1.2 = ll ∨ (r.1.2 <? ll)%float = true)
            ∧ (lc <? r.1.2)%float = false) as [Hl1 Hl2].
    { destruct (lc <? ll)%float eqn:Hcmp.
      - split.
        + right. destruct Hl as [->|Hlt]; [done|]. by eapply Doubles.ltb_trans.
        + destruct Hl as [->|Hlt]; [apply Doubles.ltb_irrefl|].
          destruct (lc <? r.1.2)%float eqn:Hgt; [|done].
          pose proof (Doubles.ltb_trans _ _ _ Hgt Hlt) as Habs.
          by rewrite Doubles.ltb_irrefl in Habs.
      - split; [done|]. destruct Hl as [->|Hlt]; [done|].
        destruct (lc <? r.1.2)%float eqn:Hgt; [|done].
        pose proof (Doubles.ltb_trans _ _ _ Hgt Hlt) as Habs. congruence. }
    split; [done|]. split; [done|]. split.
    + intros x Hx. apply elem_of_cons in Hx as [->|Hx]; [done|by apply Hhs].
    + intros x Hx. apply elem_of_cons in Hx as [->|Hx]; [done|by apply Hls].
Qed.

(** X12: the reduction of the candles.  Without an answer, or with an
    empty list of candles, there is no result; otherwise the result's close
    is the close of the last candle, its high is the high of one of the
    candles or −Infinity, and no candle's high compares above it; its low
    is the low of one of the candles or +Infinity, and no candle's low
    compares below it.  So the high is the largest of the highs and the low
    the smallest of the lows (−Infinity and +Infinity remaining only when
    no candle's value compares beyond them), and the triple never holds a
    price that is not in the candles. *)
Theorem fetchCandlesticks_result result :
  (fetchCandlesticks result = None ↔ result = None ∨ result = Some [])
  ∧ (∀ candles h l c,
        fetchCandlesticks (Some candles) = Some (h, l, c) →
        (h = neg_infinity ∨ h ∈ (λ x, toNumber (candleHigh x)) <$> candles)
        ∧ (l = infinity ∨ l ∈ (λ x, toNumber (candleLow x)) <$> candles)
        ∧ Some c = (λ x, toNumber (candleClose x)) <$> last candles
        ∧ (∀ x, x ∈ candles → (h <? toNumber (candleHigh x))%float = false)
        ∧ (∀ x, x ∈ candles → (toNumber (candleLow x) <? l)%float = false)).
Proof.
  split.
  - destruct result as [[|c candles]|]; simpl.
    + split; [intros _; by right|done].
    + split; [done|by intros [?|?]].
    + split; [intros _; by left|done].
  - intros [|c0 candles] h l c; [done|]. intros Hr.
    assert (foldl candleStep (neg_infinity, infinity, 0%float) (c0 :: candles)
            = (h, l, c)) as Hr' by (by injection Hr).
    clear Hr.
    pose proof (candleStep_fold (c0 :: candles) (neg_infinity, infinity, 0%float))
      as (Hh & Hl & Hc).
    pose proof (candleStep_extremes (c0 :: candles) (neg_infinity, infinity, 0%float))
      as (_ & _ & Hmax & Hmin).
    cbv zeta in *. rewrite Hr' in *. cbn [fst snd] in *.
    split; [done|]. split; [done|]. split; [|done]. rewrite Hc.
    destruct (last (c0 :: candles)) as [x|] eqn:Hlast; [done|].
    by apply last_None in Hlast.
Qed.

Lemma levelsOfProduct_app product data r s levels :
  levelsOfProduct product data r s levels
  = levels
    ++ ((λ l, mkDynamicLevel (productId product) (Levels.price l) (Levels.side l)
                (orderSize product) (Levels.pivotType l))
          <$> Levels.calculatePivotLevels data.1.1 data.1.2 data.2 r s).
Proof.
  destruct data as [[high low] close]. unfold levelsOfProduct. cbn [fst snd].
  generalize (Levels.calculatePivotLevels high low close r s). intros l.
  revert levels. induction l as [|x l IH]; intros levels; simpl.
  - by rewrite app_nil_r.
  - rewrite IH. by rewrite <- app_assoc.
Qed.

Lemma calculatePivotLevels_length high low close r s :
  length (Levels.calculatePivotLevels high low close r s) = r + s.
Proof.
  unfold Levels.calculatePivotLevels. cbv zeta.
  rewrite !Levels.pushLoop_seq, !length_app, !length_fmap, !length_seq. done.
Qed.

(** X13: [buildDynamicLevels].  The result holds, product by product in
    the order of the configuration, the pivot levels computed from that
    product's candles, each tagged with the product's id and order size; a
    product for which no candles came back contributes nothing; so the
    number of levels is (rLevelsCount + sLevelsCount) times the number of
    products with data, and it is zero when no product has data. *)
Theorem buildDynamicLevels_levels answers products r s :
  buildDynamicLevels answers products r s
  = products ≫= (λ product,
      match fetchCandlesticks (answers (productId product)) with
      | None => []
      | Some data =>
          (λ l, mkDynamicLevel (productId product) (Levels.price l) (Levels.side l)
                  (orderSize product) (Levels.pivotType l))
            <$> Levels.calculatePivotLevels data.1.1 data.1.2 data.2 r s
      end)
  ∧ length (buildDynamicLevels answers products r s)
    = (r + s) * length (filter (λ product, hasData answers product = true) products)
  ∧ Forall (λ level, ∃ product, product ∈ products
                                ∧ hasData answers product = true
                                ∧ levelProductId level = productId product
                                ∧ levelSize level = orderSize product)
      (buildDynamicLevels answers products r s).
Proof.
  set (f := λ product,
         match fetchCandlesticks (answers (productId product)) with
         | None => []
         | Some data =>
             (λ l, mkDynamicLevel (productId product) (Levels.price l) (Levels.side l)
                     (orderSize product) (Levels.pivotType l))
               <$> Levels.calculatePivotLevels data.1.1 data.1.2 data.2 r s
         end).
  assert (buildDynamicLevels answers products r s = products ≫= f) as Heq.
  { unfold buildDynamicLevels. cbv zeta.
    assert (∀ levels,
              foldl (λ levels entry,
                       match entry.2 with
                       | None => levels
                       | Some data => levelsOfProduct entry.1 data r s levels
                       end)
                levels
                ((λ product, (product, fetchCandlesticks (answers (productId product))))
                   <$> products)
              = levels ++ (products ≫= f)) as Hgen.
    { induction products as [|p ps IH]; intros levels; simpl.
      - by rewrite app_nil_r.
      - rewrite IH. unfold f at 2.
        destruct (fetchCandlesticks (answers (productId p))) as [data|].
        + rewrite levelsOfProduct_app. by rewrite <- app_assoc.
        + done. }
    apply Hgen. }
  split; [exact Heq|]. rewrite Heq. split.
  - clear Heq. induction products as [|p ps IH]; [simpl; lia|].
    rewrite bind_cons, length_app, IH.
    destruct (fetchCandlesticks (answers (productId p))) as [data|] eqn:Hdata.
    + rewrite filter_cons_True by (unfold hasData; by rewrite Hdata).
      unfold f at 1. rewrite Hdata, length_fmap, calculatePivotLevels_length.
      simpl. lia.
    + rewrite filter_cons_False by (unfold hasData; by rewrite Hdata).
      unfold f at 1. rewrite Hdata. simpl. lia.
  - clear Heq. apply Forall_forall. intros level Hin.
    apply list_elem_of_bind in Hin as (product & Hin & Hproduct).
    exists product. unfold f, hasData in *.
    destruct (fetchCandlesticks (answers (productId product))) as [data|];
      [|by apply elem_of_nil in Hin].
    apply list_elem_of_fmap in Hin as (l & -> & _). done.
Qed.

End WithCandles.

End DynamicLevels.

(* ===================================================================== *)
(** ** src/strategy/engine.ts: the other handlers *)
(* ===================================================================== *)

Module EngineLaws.

Import Tracker Engine.

(** [TradingLevel] of src/strategy/levels.ts. *)
Record TradingLevel := mkTradingLevel {
  levelProductId : float;
  levelPrice : float;
  levelSide : OrderSide;
  levelSize : float
}.

(** The order manager as the other handlers use it.  [placeLimitOrder]
    answers with a flag and never throws; the answers of [cancelOrder] and
    [cancelTriggerOrder] are not read by these handlers, so the calls appear
    among the actions only. *)
Record Gateway := mkGateway {
  placeLimitOrder : float → float → float → OrderResult
}.

(** The calls a handler makes to the order manager, and its warnings. *)
Inductive Action :=
| Warn (message : string)
| PlaceLimitOrder (productId price amount : float)
| CancelOrder (digest : string) (productId : float)
| CancelTriggerOrder (digest : string) (productId : float).

Definition isPlaceLimitOrder (a : Action) : bool :=
  match a with
  | PlaceLimitOrder _ _ _ => true
  | _ => false
  end.

(** Key equality of a JavaScript [Map] on numbers (SameValueZero): the
    IEEE comparison, with NaN equal to itself. *)
Definition sameValueZero (x y : float) : bool :=
  (x =? y)%float || (is_nan x && is_nan y).

(** [Map.prototype.get] and [Map.prototype.set] for [latestPrices]. *)
Fixpoint mapGet (k : float) (m : list (float * float)) : option float :=
  match m with
  | [] => None
  | (k', v') :: m' => if sameValueZero k' k then Some v' else mapGet k m'
  end.

Fixpoint mapSet (k v : float) (m : list (float * float)) : list (float * float) :=
  match m with
  | [] => [(k, v)]
  | (k', v') :: m' =>
      if sameValueZero k' k then (k', v) :: m' else (k', v') :: mapSet k v m'
  end.

(** Truthiness of a number: zero and NaN are falsy. *)
Definition numTruthy (x : float) : bool :=
  negb ((x =? 0)%float || is_nan x).

(** [if (!rawCurrentPrice)] on the result of [latestPrices.get]. *)
Definition knownPrice (prices : list (float * float)) (pid : float) : option float :=
  match mapGet pid prices with
  | Some raw => if numTruthy raw then Some raw else None
  | None => None
  end.

(** The fields of [StrategyEngine] the handlers below read and write. *)
Record EngineState := mkEngineState {
  tracker : PositionTracker;
  isRunning : bool;
  latestPrices : list (float * float);
  levels : list TradingLevel
}.

(** Long = positive amount (buy), short = negative amount (sell). *)
Definition entryAmount (sd : OrderSide) (sz : float) : float :=
  match sd with
  | long => sz
  | short => (- sz)%float
  end.

(** [result.submittedPrice ?? level]. *)
Definition submittedOr (result : OrderResult) (lvl : float) : float :=
  default lvl (submittedPrice result).

Section WithPrinter.

Variable numToString : float → string.
Variable parseFloat : string → float.

(** [onBestBidOffer]: the write to [latestPrices]. *)
Definition onBestBidOffer (st : EngineState) (event : BestBidOfferEvent) : EngineState :=
  let binding := Engine.onBestBidOffer parseFloat event in
  {| tracker := tracker st;
     isRunning := isRunning st;
     latestPrices := mapSet binding.1 binding.2 (latestPrices st);
     levels := levels st |}.

(** Place an entry and, on success, register it: the common tail of
    [placeInitialOrders] and [rearmLevel]. *)
Definition placeEntry (gw : Gateway) (now : Z) (pid : float) (sd : OrderSide)
    (lvl sz : float) (t : PositionTracker) : PositionTracker * list Action :=
  let amount := entryAmount sd sz in
  let result := placeLimitOrder gw pid lvl amount in
  (if success result
   then (createPosition numToString now
           {| cp_productId := pid; cp_level := submittedOr result lvl; cp_side := sd;
              cp_size := sz; cp_entryOrderDigest := digest result |} t).1
   else t,
   [PlaceLimitOrder pid lvl amount]).

Definition rearmLevel (gw : Gateway) (now : Z) (prices : list (float * float))
    (pid : float) (sd : OrderSide) (lvl sz : float) (t : PositionTracker)
  : PositionTracker * list Action :=
  let t1 := cleanup t in
  match knownPrice prices pid with
  | None => (t1, [Warn "No price to re-arm level"])
  | Some currentPrice =>
      if bool_decide (sd = long) && (currentPrice <=? lvl)%float then (t1, [])
      else if bool_decide (sd = short) && (lvl <=? currentPrice)%float then (t1, [])
      else placeEntry gw now pid sd lvl sz t1
  end.

(** The body of the loop of [placeInitialOrders] (the pause between two
    orders is left out). *)
Definition placeInitialStep (gw : Gateway) (now : Z) (prices : list (float * float))
    (acc : PositionTracker * list Action) (lv : TradingLevel)
  : PositionTracker * list Action :=
  if hasActivePosition numToString (levelProductId lv) (levelSide lv) (levelPrice lv) acc.1
  then acc
  else
    match knownPrice prices (levelProductId lv) with
    | None => (acc.1, acc.2 ++ [Warn "No price available for product, skipping level"])
    | Some _ =>
        let r := placeEntry gw now (levelProductId lv) (levelSide lv) (levelPrice lv)
                   (levelSize lv) acc.1 in
        (r.1, acc.2 ++ r.2)
    end.

Definition placeInitialOrders (gw : Gateway) (now : Z) (st : EngineState)
  : PositionTracker * list Action :=
  foldl (placeInitialStep gw now (latestPrices st)) (tracker st, []) (levels st).

(** The order-update event: the digest and the reason. *)
Record OrderUpdateEvent := mkOrderUpdate {
  updateDigest : string;
  reason : string
}.

(** [onOrderUpdate].  The two tests on [event.reason] exclude each other,
    so the branch for ['cancelled'] reads the position as it was found. *)
Definition onOrderUpdate (gw : Gateway) (now : Z) (st : EngineState)
    (event : OrderUpdateEvent) : PositionTracker * list Action :=
  let d := updateDigest event in
  let t := tracker st in
  match getByDigest t d with
  | None => (t, [])
  | Some position =>
      if bool_decide (reason event = "filled") then
        let isTp := bool_decide (tpOrderDigest position = Some d) in
        let isSl := bool_decide (slOrderDigest position = Some d) in
        if isTp || isSl then
          let exitType := if isTp then exit_tp_hit else exit_sl_hit in
          let exitResult := markExit now d exitType t in
          let cancels :=
            match exitResult.2 with
            | Some (_, Some paired) =>
                if JS.truthy paired
                then [CancelTriggerOrder paired (productId position)] else []
            | _ => []
            end in
          if isRunning st then
            let r := rearmLevel gw now (latestPrices st) (productId position)
                       (side position) (level position) (size position) exitResult.1 in
            (r.1, cancels ++ r.2)
          else (exitResult.1, cancels)
        else (t, [])
      else if bool_decide (reason event = "cancelled") then
        if bool_decide (entryOrderDigest position = Some d)
           && bool_decide (status position = pending)
        then ((markCancelled now d t).1, [])
        else (t, [])
      else (t, [])
  end.

(** The cancellations of [cancelAndReplaceOrders] and of [stop] for one
    position. *)
Definition cancelEntryOf (pos : LevelPosition) : list Action :=
  match entryOrderDigest pos with
  | Some d => if JS.truthy d then [CancelOrder d (productId pos)] else []
  | None => []
  end.

Definition cancelTriggerOf (o : option string) (pos : LevelPosition) : list Action :=
  match o with
  | Some d => if JS.truthy d then [CancelTriggerOrder d (productId pos)] else []
  | None => []
  end.

Definition cancelExitsOf (pos : LevelPosition) : list Action :=
  cancelTriggerOf (tpOrderDigest pos) pos ++ cancelTriggerOf (slOrderDigest pos) pos.

(** [cancelAndReplaceOrders]: cancel the pending entries, cancel the exits
    of the filled positions, purge the tracker, place the entries of the
    current levels.  The answers of the cancellations are not read. *)
Definition cancelAndReplaceOrders (gw : Gateway) (now : Z) (st : EngineState)
  : PositionTracker * list Action :=
  let t := tracker st in
  let pendingPositions :=
    filter (λ p, status p = pending) (getActivePositions t) in
  let filledPositions :=
    filter (λ p, status p = filled) (getActivePositions t) in
  let cancels :=
    (pendingPositions ≫= cancelEntryOf) ++ (filledPositions ≫= cancelExitsOf) in
  let r := placeInitialOrders gw now
             {| tracker := cleanup t; isRunning := isRunning st;
                latestPrices := latestPrices st; levels := levels st |} in
  (r.1, cancels ++ r.2).



End WithPrinter.

(** A record as [createPosition] writes it at time [now]. *)
Definition freshPending (now : Z) (q : LevelPosition) : Prop :=
  status q = pending
  ∧ tpOrderDigest q = None ∧ slOrderDigest q = None ∧ fillPrice q = None
  ∧ createdAt q = now ∧ updatedAt q = now.

(** From [t] to [t'] no record is removed: every record is kept as it is
    or replaced by a record freshly created at [now], and every record of
    [t'] that is not a record of [t] is such a fresh one. *)
Definition keptOrReplaced (now : Z) (t t' : PositionTracker) : Prop :=
  (∀ k p, positions t !! k = Some p →
          ∃ q, positions t' !! k = Some q ∧ (q = p ∨ freshPending now q))
  ∧ (∀ k q, positions t' !! k = Some q →
            positions t !! k = Some q ∨ freshPending now q).

(** Every pending or filled record of [t] is in [t'] exactly as it was. *)
Definition activeUnchanged (t t' : PositionTracker) : Prop :=
  ∀ k p, positions t !! k = Some p → isActive (status p) = true →
         positions t' !! k = Some p.

(** A gateway that reports every entry it accepts at the price it was
    given (or reports no price). *)
Definition reportsLevelPrice (gw : Gateway) : Prop :=
  ∀ pid price amount,
    success (placeLimitOrder gw pid price amount) = true →
    submittedOr (placeLimitOrder gw pid price amount) price = price.

(** The amount of the entry order of a level: the size for a long, its
    opposite for a short, hence positive for a long and negative for a
    short when the size is positive. *)
Definition isEntryAmount (sd : OrderSide) (sz amount : float) : Prop :=
  match sd with
  | long => amount = sz
  | short => amount = (- sz)%float
  end
  ∧ ((0 <? sz)%float = true →
     match sd with
     | long => (0 <? amount)%float = true
     | short => (amount <? 0)%float = true
     end).

(** The latest price of a product is known: a price is stored for it that
    is neither zero nor NaN. *)
Definition priceKnown (prices : list (float * float)) (pid : float) : Prop :=
  ∃ current, mapGet pid prices = Some current
             ∧ (current =? 0)%float = false ∧ is_nan current = false.

Definition isCancel (a : Action) : bool :=
  match a with
  | CancelOrder _ _ | CancelTriggerOrder _ _ => true
  | _ => false
  end.

(** [isTp ? 'tp_hit' : 'sl_hit'] for the digest of an order update. *)
Definition exitTypeOf (d : string) (position : LevelPosition) : ExitType :=
  if bool_decide (tpOrderDigest position = Some d) then exit_tp_hit else exit_sl_hit.

(** An action of [placeInitialOrders]: a warning, or the entry order of
    one of the levels, for a product whose price is known. *)
Definition placedFor (prices : list (float * float)) (lvls : list TradingLevel)
    (a : Action) : Prop :=
  match a with
  | Warn _ => True
  | PlaceLimitOrder pid price amount =>
      ∃ lv, lv ∈ lvls ∧ pid = levelProductId lv ∧ price = levelPrice lv
            ∧ isEntryAmount (levelSide lv) (levelSize lv) amount
            ∧ priceKnown prices pid
  | _ => False
  end.

(** The cancellations asked for the positions of a tracker: of the entry
    order of a pending position, and of an exit order of a filled one, in
    both cases only for a digest that is not empty. *)
Definition cancelsPendingEntry (t : PositionTracker) (a : Action) : Prop :=
  ∃ k pos d, positions t !! k = Some pos ∧ status pos = pending
             ∧ entryOrderDigest pos = Some d ∧ JS.truthy d = true
             ∧ a = CancelOrder d (productId pos).

Definition cancelsFilledExit (t : PositionTracker) (a : Action) : Prop :=
  ∃ k pos d, positions t !! k = Some pos ∧ status pos = filled
             ∧ (tpOrderDigest pos = Some d ∨ slOrderDigest pos = Some d)
             ∧ JS.truthy d = true
             ∧ a = CancelTriggerOrder d (productId pos).

(** A pending entry on the other side of a filled one: a pending position
    of the filled product, on the side that was not filled, whose entry
    digest [e] is not empty and is not the filled entry's. *)
Definition oppositePendingEntry (pid : float) (filledSide : OrderSide)
    (filledDigest : string) (pos : LevelPosition) (e : string) : Prop :=
  (productId pos =? pid)%float = true
  ∧ status pos = pending
  ∧ side pos ≠ filledSide
  ∧ entryOrderDigest pos = Some e
  ∧ e ≠ "" ∧ e ≠ filledDigest.

(** *** Facts about the handlers *)

Section HandlerFacts.

Variable numToString : float → string.
Variable parseFloat : string → float.

Lemma sameValueZero_refl x : sameValueZero x x = true.
Proof. unfold sameValueZero, is_nan. by destruct (x =? x)%float. Qed.

Lemma mapGet_mapSet k v m : mapGet k (mapSet k v m) = Some v.
Proof.
  induction m as [|[k' v'] m IH]; simpl.
  - by rewrite sameValueZero_refl.
  - destruct (sameValueZero k' k) eqn:Hk; simpl; by rewrite Hk.
Qed.

Lemma sameValueZero_SF x y :
  sameValueZero x y = Doubles.SFsame (Prim2SF x) (Prim2SF y).
Proof.
  unfold sameValueZero, is_nan, Doubles.SFsame. by rewrite !FloatAxioms.eqb_spec.
Qed.

(** Setting the price of one key leaves the price of every other key. *)
Lemma mapGet_mapSet_other k k' v m :
  sameValueZero k k' = false → mapGet k' (mapSet k v m) = mapGet k' m.
Proof.
  intros Hne. induction m as [|[k0 v0] m IH]; simpl.
  - by rewrite Hne.
  - destruct (sameValueZero k0 k) eqn:H0k; simpl.
    + destruct (sameValueZero k0 k') eqn:H0k'; [|done].
      rewrite sameValueZero_SF in *. rewrite Doubles.SFsame_sym in H0k.
      by rewrite (Doubles.SFsame_trans _ _ _ H0k H0k') in Hne.
    + destruct (sameValueZero k0 k'); [done|apply IH].
Qed.

Lemma entryAmount_spec sd sz : isEntryAmount sd sz (entryAmount sd sz).
Proof.
  unfold isEntryAmount, entryAmount. destruct sd; (split; [done|]); [done|].
  apply Doubles.pos_opp_neg.
Qed.

Lemma knownPrice_Some prices pid current :
  knownPrice prices pid = Some current →
  mapGet pid prices = Some current
  ∧ (current =? 0)%float = false ∧ is_nan current = false.
Proof.
  unfold knownPrice, numTruthy. destruct (mapGet pid prices) as [raw|]; [|done].
  destruct (raw =? 0)%float eqn:Hz, (is_nan raw) eqn:Hn; try done.
  by intros [= <-].
Qed.

Lemma knownPrice_priceKnown prices pid current :
  knownPrice prices pid = Some current → priceKnown prices pid.
Proof. intros H. exists current. by apply knownPrice_Some. Qed.

Lemma keptOrReplaced_refl now t : keptOrReplaced now t t.
Proof. split; intros k p Hk; eauto. Qed.

Lemma keptOrReplaced_trans now t1 t2 t3 :
  keptOrReplaced now t1 t2 → keptOrReplaced now t2 t3 → keptOrReplaced now t1 t3.
Proof.
  intros [H12 H21] [H23 H32]. split.
  - intros k p Hk. destruct (H12 k p Hk) as (q & Hq & Hqp).
    destruct (H23 k q Hq) as (q' & Hq' & [->|Hfresh]); eauto.
  - intros k q Hq. destruct (H32 k q Hq) as [Hq2|Hfresh]; [|by right].
    by apply H21.
Qed.

Lemma keptOrReplaced_createPosition now params t :
  keptOrReplaced now t (createPosition numToString now params t).1.
Proof.
  split.
  - intros k p Hk. rewrite createPosition_positions. case_decide; [|eauto].
    exists (createPosition numToString now params t).2. split; [done|]. by right.
  - intros k q. rewrite createPosition_positions. case_decide; [|by left].
    intros [= <-]. by right.
Qed.

Lemma placeEntry_keptOrReplaced gw now pid sd lvl sz t :
  keptOrReplaced now t (placeEntry numToString gw now pid sd lvl sz t).1.
Proof.
  unfold placeEntry. cbn [fst]. destruct (success _).
  - apply keptOrReplaced_createPosition.
  - apply keptOrReplaced_refl.
Qed.

Lemma activeUnchanged_refl t : activeUnchanged t t.
Proof. by intros k p Hk Hact. Qed.

Lemma activeUnchanged_trans t1 t2 t3 :
  activeUnchanged t1 t2 → activeUnchanged t2 t3 → activeUnchanged t1 t3.
Proof. intros H12 H23 k p Hk Hact. apply H23; [by apply H12|done]. Qed.

Lemma activeUnchanged_cleanup t : activeUnchanged t (cleanup t).
Proof.
  intros k p Hk Hact. by rewrite cleanup_positions, Hk, isTerminal_isActive, Hact.
Qed.

Lemma noTerminal_createPosition now params t :
  TrackerLaws.noTerminal t →
  TrackerLaws.noTerminal (createPosition numToString now params t).1.
Proof.
  intros Hno k p. rewrite createPosition_positions. case_decide.
  - by intros [= <-].
  - apply Hno.
Qed.

(** X14: [rearmLevel] places at most one entry, and only a valid one.  An
    order goes out only when a price is known for the product that is
    neither zero nor NaN, and then only at the level itself, for a long
    level when the test [level >= price] fails and for a short level when
    [level <= price] fails; its amount is the size for a long and the
    opposite of the size for a short, so that with a positive size it is
    positive for a long and negative for a short.  Whatever it does, the
    tracker was purged first: no terminal record is left, and when nothing
    is placed the tracker is the purged one. *)
Theorem rearmLevel_places_only_valid_entry gw now prices pid sd lvl sz t :
  let r := rearmLevel numToString gw now prices pid sd lvl sz t in
  TrackerLaws.noTerminal r.1
  ∧ length (filter (λ a, isPlaceLimitOrder a = true) r.2) ≤ 1
  ∧ (filter (λ a, isPlaceLimitOrder a = true) r.2 = [] → r.1 = cleanup t)
  ∧ (∀ pid' price amount,
        PlaceLimitOrder pid' price amount ∈ r.2 →
        pid' = pid ∧ price = lvl
        ∧ match sd with
          | long => amount = sz
          | short => amount = (- sz)%float
          end
        ∧ ((0 <? sz)%float = true →
           match sd with
           | long => (0 <? amount)%float = true
           | short => (amount <? 0)%float = true
           end)
        ∧ ∃ currentPrice,
            mapGet pid prices = Some currentPrice
            ∧ (currentPrice =? 0)%float = false
            ∧ is_nan currentPrice = false
            ∧ match sd with
              | long => (currentPrice <=? lvl)%float = false
              | short => (lvl <=? currentPrice)%float = false
              end).
Proof.
  intros r. unfold r, rearmLevel, knownPrice. cbv zeta.
  destruct (mapGet pid prices) as [raw|] eqn:Hget.
  2:{ cbn [fst snd]. split; [apply TrackerLaws.cleanup_noTerminal|].
      split; [simpl; lia|]. split; [done|].
      intros ??? Hin. apply list_elem_of_singleton in Hin. done. }
  destruct (numTruthy raw) eqn:Htruthy.
  2:{ cbn [fst snd]. split; [apply TrackerLaws.cleanup_noTerminal|].
      split; [simpl; lia|]. split; [done|].
      intros ??? Hin. apply list_elem_of_singleton in Hin. done. }
  destruct (bool_decide (sd = long) && (raw <=? lvl)%float) eqn:Hlong.
  { cbn [fst snd]. split; [apply TrackerLaws.cleanup_noTerminal|].
    split; [simpl; lia|]. split; [done|].
    intros ??? Hin. by apply elem_of_nil in Hin. }
  destruct (bool_decide (sd = short) && (lvl <=? raw)%float) eqn:Hshort.
  { cbn [fst snd]. split; [apply TrackerLaws.cleanup_noTerminal|].
    split; [simpl; lia|]. split; [done|].
    intros ??? Hin. by apply elem_of_nil in Hin. }
  unfold placeEntry. cbn [fst snd]. split; [|split; [simpl; lia|split; [done|]]].
  - destruct (success _); [|apply TrackerLaws.cleanup_noTerminal].
    apply noTerminal_createPosition, TrackerLaws.cleanup_noTerminal.
  - intros pid' price amount Hin. apply list_elem_of_singleton in Hin.
    injection Hin as -> -> ->. do 2 (split; [done|]).
    destruct (entryAmount_spec sd sz) as [Hamount Hsign].
    split; [exact Hamount|]. split; [exact Hsign|].
    exists raw. split; [done|].
    unfold numTruthy in Htruthy.
    destruct (raw =? 0)%float eqn:Hz, (is_nan raw) eqn:Hn; try done.
    split; [done|]. split; [done|].
    destruct sd.
    + rewrite bool_decide_eq_true_2 in Hlong by done. done.
    + rewrite bool_decide_eq_true_2 in Hshort by done. done.
Qed.

Lemma getByDigest_resolve t d position :
  getByDigest t d = Some position → ∃ k, resolve t d = Some (k, position).
Proof.
  unfold getByDigest. destruct (resolve t d) as [[k p]|]; [|done].
  intros [= <-]. by exists k.
Qed.

Lemma pairedDigestOf_setStatus e st now p :
  pairedDigestOf e (setStatus st now p) = pairedDigestOf e p.
Proof. by destruct e. Qed.

Lemma pairedDigestOf_truthy e p d :
  pairedDigestOf e p = Some d →
  JS.truthy d = true ∧ d ∈ digestsOf p.
Proof.
  unfold pairedDigestOf, digestsOf.
  destruct e.
  - destruct (slOrderDigest p) as [sl|] eqn:Hsl; simpl; [|done].
    destruct (JS.truthy sl) eqn:Htr; [|done]. intros [= <-]. split; [done|].
    rewrite !elem_of_app. right. right. by left.
  - destruct (tpOrderDigest p) as [tp|] eqn:Htp; simpl; [|done].
    destruct (JS.truthy tp) eqn:Htr; [|done]. intros [= <-]. split; [done|].
    rewrite !elem_of_app. right. left. by left.
Qed.

Lemma rearmLevel_tracker gw now prices pid sd lvl sz t :
  (rearmLevel numToString gw now prices pid sd lvl sz t).1 = cleanup t
  ∨ ∃ params,
      (rearmLevel numToString gw now prices pid sd lvl sz t).1
      = (createPosition numToString now params (cleanup t)).1.
Proof.
  unfold rearmLevel. cbv zeta. destruct (knownPrice prices pid); [|by left].
  destruct (_ && _); [by left|]. destruct (_ && _); [by left|].
  unfold placeEntry. cbn [fst]. destruct (success _); [|by left].
  right. eauto.
Qed.

Lemma rearmLevel_actions gw now prices pid sd lvl sz t :
  let acts := (rearmLevel numToString gw now prices pid sd lvl sz t).2 in
  acts = [] ∨ (∃ m, acts = [Warn m])
  ∨ acts = [PlaceLimitOrder pid lvl (entryAmount sd sz)].
Proof.
  unfold rearmLevel. cbv zeta. destruct (knownPrice prices pid); [|right; left; eauto].
  destruct (_ && _); [by left|]. destruct (_ && _); [by left|].
  right. right. done.
Qed.

(** A digest whose index entry, if any, points to no record: after a new
    position is registered it resolves, if at all, to that position. *)
Lemma dead_digest_resolve now params t d k p :
  (∀ k', digestToPositionId t !! d = Some k' → positions t !! k' = None) →
  resolve t d = None
  ∧ (resolve (createPosition numToString now params t).1 d = Some (k, p) →
     p = (createPosition numToString now params t).2).
Proof.
  intros Hdead. split.
  - destruct (resolve t d) as [[k' p']|] eqn:Hres; [|done].
    apply resolve_Some in Hres as [Hidx Hk]. rewrite (Hdead _ Hidx) in Hk. done.
  - intros Hres. apply resolve_Some in Hres as [Hidx Hk].
    rewrite createPosition_positions in Hk. case_decide as Hkey; [by injection Hk|].
    unfold createPosition in Hidx. cbn [fst digestToPositionId] in Hidx.
    apply lookup_insert_Some in Hidx as [[_ Heq]|[_ Hidx]]; [done|].
    rewrite (Hdead _ Hidx) in Hk. done.
Qed.

Lemma onOrderUpdate_not_exit gw now st event :
  reason event = "filled" →
  (∀ position,
      getByDigest (tracker st) (updateDigest event) = Some position →
      tpOrderDigest position ≠ Some (updateDigest event)
      ∧ slOrderDigest position ≠ Some (updateDigest event)) →
  onOrderUpdate numToString gw now st event = (tracker st, []).
Proof.
  intros Hf Hother. unfold onOrderUpdate. cbv zeta.
  destruct (getByDigest (tracker st) (updateDigest event)) as [position|]; [|done].
  destruct (Hother position eq_refl) as [Htp Hsl].
  rewrite (bool_decide_eq_true_2 _ Hf).
  by rewrite (bool_decide_eq_false_2 _ Htp), (bool_decide_eq_false_2 _ Hsl).
Qed.

(** X15: the order updates [onOrderUpdate] ignores.  An update whose
    digest resolves to no position, whose reason is neither filled nor
    cancelled, that reports as filled a digest that is neither the TP nor
    the SL reference of its position, or that reports as cancelled a digest
    that is not the entry reference of a pending position, leaves the
    tracker as it is and calls the order manager for nothing. *)
Theorem onOrderUpdate_ignored_events gw now st event :
  (∀ position,
      getByDigest (tracker st) (updateDigest event) = Some position →
      (reason event ≠ "filled" ∧ reason event ≠ "cancelled")
      ∨ (reason event = "filled"
         ∧ tpOrderDigest position ≠ Some (updateDigest event)
         ∧ slOrderDigest position ≠ Some (updateDigest event))
      ∨ (reason event = "cancelled"
         ∧ (entryOrderDigest position ≠ Some (updateDigest event)
            ∨ status position ≠ pending))) →
  onOrderUpdate numToString gw now st event = (tracker st, []).
Proof.
  intros Hcases. unfold onOrderUpdate. cbv zeta.
  destruct (getByDigest (tracker st) (updateDigest event)) as [position|]; [|done].
  destruct (Hcases position eq_refl)
    as [[Hf Hc]|[(Hf & Htp & Hsl)|(Hc & Hentry)]].
  - by rewrite !bool_decide_eq_false_2.
  - rewrite (bool_decide_eq_true_2 _ Hf).
    by rewrite (bool_decide_eq_false_2 _ Htp), (bool_decide_eq_false_2 _ Hsl).
  - rewrite bool_decide_eq_false_2 by (rewrite Hc; done).
    rewrite (bool_decide_eq_true_2 _ Hc).
    destruct Hentry as [Hentry|Hst].
    + by rewrite (bool_decide_eq_false_2 _ Hentry).
    + rewrite (bool_decide_eq_false_2 _ Hst). by rewrite andb_false_r.
Qed.

(** [onOrderUpdate] for the fill of an exit order. *)
Lemma onOrderUpdate_exit gw now st event k position :
  resolve (tracker st) (updateDigest event) = Some (k, position) →
  reason event = "filled" →
  (tpOrderDigest position = Some (updateDigest event)
   ∨ slOrderDigest position = Some (updateDigest event)) →
  let d := updateDigest event in
  let t1 := (markExit now d (exitTypeOf d position) (tracker st)).1 in
  let cancels :=
    match pairedDigestOf (exitTypeOf d position) position with
    | Some paired => [CancelTriggerOrder paired (productId position)]
    | None => []
    end in
  onOrderUpdate numToString gw now st event =
    if isRunning st
    then ((rearmLevel numToString gw now (latestPrices st) (productId position)
             (side position) (level position) (size position) t1).1,
          cancels ++
          (rearmLevel numToString gw now (latestPrices st) (productId position)
             (side position) (level position) (size position) t1).2)
    else (t1, cancels).
Proof.
  intros Hres Hf Hexit d t1 cancels. unfold onOrderUpdate. cbv zeta.
  unfold getByDigest. rewrite Hres. cbn [fmap option_fmap option_map snd].
  rewrite (bool_decide_eq_true_2 _ Hf).
  assert (bool_decide (tpOrderDigest position = Some (updateDigest event))
          || bool_decide (slOrderDigest position = Some (updateDigest event)) = true)
    as ->.
  { destruct Hexit as [H|H]; rewrite (bool_decide_eq_true_2 _ H); [done|].
    apply orb_true_r. }
  fold (exitTypeOf (updateDigest event) position). fold d.
  assert (match (markExit now d (exitTypeOf d position) (tracker st)).2 with
          | Some (_, Some paired) =>
              if JS.truthy paired
              then [CancelTriggerOrder paired (productId position)] else []
          | _ => []
          end = cancels) as ->.
  { unfold markExit. fold d in Hres. rewrite Hres. cbn [snd].
    rewrite pairedDigestOf_setStatus. unfold cancels.
    destruct (pairedDigestOf (exitTypeOf d position) position) as [paired|] eqn:Hp;
      [|done].
    apply pairedDigestOf_truthy in Hp as [-> _]. done. }
  done.
Qed.

(** X16: the fill of an exit order while the engine runs.  The handler
    asks for the cancellation of the paired exit order, and of nothing
    else; it purges the tracker, so no terminal record is left; the only
    order it can place is the entry of the closed position's own level;
    and the digests of the two exit orders are retired: a later update
    that reports either of them as filled is ignored. *)
Theorem exit_fill_rearms_and_retires_digests gw now st event position :
  getByDigest (tracker st) (updateDigest event) = Some position →
  reason event = "filled" →
  (tpOrderDigest position = Some (updateDigest event)
   ∨ slOrderDigest position = Some (updateDigest event)) →
  isRunning st = true →
  let exitType := exitTypeOf (updateDigest event) position in
  let r := onOrderUpdate numToString gw now st event in
  filter (λ a, isCancel a = true) r.2
    = match pairedDigestOf exitType position with
      | Some paired => [CancelTriggerOrder paired (productId position)]
      | None => []
      end
  ∧ TrackerLaws.noTerminal r.1
  ∧ (∀ pid price amount,
        PlaceLimitOrder pid price amount ∈ r.2 →
        pid = productId position ∧ price = level position
        ∧ amount = entryAmount (side position) (size position))
  ∧ (∀ d',
        d' = updateDigest event ∨ pairedDigestOf exitType position = Some d' →
        ∀ gw' now' st',
          tracker st' = r.1 →
          onOrderUpdate numToString gw' now' st'
            {| updateDigest := d'; reason := "filled" |} = (r.1, [])).
Proof.
  intros Hget Hf Hexit Hrun exitType r.
  apply getByDigest_resolve in Hget as [k Hres].
  unfold r. rewrite (onOrderUpdate_exit _ _ _ _ _ _ Hres Hf Hexit). cbv zeta.
  rewrite Hrun. cbn [fst snd]. fold exitType.
  set (t1 := (markExit now (updateDigest event) exitType (tracker st)).1).
  set (rr := rearmLevel numToString gw now (latestPrices st) (productId position)
               (side position) (level position) (size position) t1).
  pose proof (rearmLevel_actions gw now (latestPrices st) (productId position)
                (side position) (level position) (size position) t1) as Hacts.
  pose proof (rearmLevel_tracker gw now (latestPrices st) (productId position)
                (side position) (level position) (size position) t1) as Htr.
  cbv zeta in Hacts. fold rr in Hacts, Htr.
  assert (positions t1 !! k
          = Some (setStatus (exitStatus exitType) now position)) as Hk1.
  { unfold t1. rewrite markExit_positions, Hres. by rewrite decide_True. }
  assert (positions (cleanup t1) !! k = None) as Hkc.
  { rewrite cleanup_positions, Hk1. by destruct exitType. }
  split; [|split; [|split]].
  - rewrite filter_app.
    assert (filter (λ a, isCancel a = true) rr.2 = []) as ->.
    { destruct Hacts as [->|[[m ->]| ->]]; done. }
    rewrite app_nil_r. by destruct (pairedDigestOf exitType position).
  - destruct Htr as [->|[params ->]].
    + apply TrackerLaws.cleanup_noTerminal.
    + apply noTerminal_createPosition, TrackerLaws.cleanup_noTerminal.
  - intros pid price amount Hin. apply elem_of_app in Hin as [Hin|Hin].
    + destruct (pairedDigestOf exitType position); [|by apply elem_of_nil in Hin].
      apply list_elem_of_singleton in Hin. done.
    + destruct Hacts as [Ha|[[m Ha]|Ha]]; rewrite Ha in Hin.
      * by apply elem_of_nil in Hin.
      * apply list_elem_of_singleton in Hin. done.
      * apply list_elem_of_singleton in Hin. by injection Hin as -> -> ->.
  - intros d' Hd' gw' now' st' Hst'.
    assert (∀ k', digestToPositionId (cleanup t1) !! d' = Some k' →
                  positions (cleanup t1) !! k' = None) as Hdead.
    { intros k' Hidx. rewrite cleanup_index in Hidx.
      case_bool_decide as Hrem; [done|].
      destruct Hd' as [->|Hpaired].
      - unfold t1 in Hidx. rewrite TrackerLaws.markExit_index in Hidx.
        apply resolve_Some in Hres as [Hidx0 _]. congruence.
      - exfalso. apply Hrem. apply elem_of_removedDigests.
        exists k, (setStatus (exitStatus exitType) now position).
        split; [done|]. split; [by destruct exitType|].
        by apply pairedDigestOf_truthy in Hpaired as [_ ?]. }
    rewrite <- Hst'. apply onOrderUpdate_not_exit; [done|]. rewrite Hst'.
    cbn [updateDigest]. intros p' Hget'.
    apply getByDigest_resolve in Hget' as [k' Hres'].
    destruct Htr as [Heq|[params Heq]]; rewrite Heq in Hres'.
    + destruct (dead_digest_resolve now
                  {| cp_productId := 0; cp_level := 0; cp_side := long; cp_size := 0;
                     cp_entryOrderDigest := EmptyString |}
                  (cleanup t1) d' k' p' Hdead) as [Hnone _].
      congruence.
    + destruct (dead_digest_resolve now params (cleanup t1) d' k' p' Hdead)
        as [_ Hnew].
      rewrite (Hnew Hres'). done.
Qed.

(** X17: an entry order cancelled from outside.  For an update that
    reports as cancelled the entry order of a pending position, the handler
    calls the order manager for nothing, the position becomes cancelled and
    stays indexed, every other record is as before, and a fill that arrives
    later for the same entry order is ignored. *)
Theorem external_cancel_retires_entry gw now st event position :
  getByDigest (tracker st) (updateDigest event) = Some position →
  reason event = "cancelled" →
  entryOrderDigest position = Some (updateDigest event) →
  status position = pending →
  let d := updateDigest event in
  let r := onOrderUpdate numToString gw now st event in
  r.2 = []
  ∧ getByDigest r.1 d = Some (setStatus cancelled now position)
  ∧ digestToPositionId r.1 = digestToPositionId (tracker st)
  ∧ (∀ k, digestToPositionId (tracker st) !! d ≠ Some k →
          positions r.1 !! k = positions (tracker st) !! k)
  ∧ (∀ om config now' fill,
        order_digest fill = d →
        onFill parseFloat om config now' r.1 fill
        = (r.1, [LogDebug "Fill for non-pending position, ignoring"])).
Proof.
  intros Hget Hc Hentry Hst d r.
  apply getByDigest_resolve in Hget as [k Hres].
  assert (r = ((markCancelled now d (tracker st)).1, [])) as Hr.
  { unfold r, onOrderUpdate. cbv zeta. unfold getByDigest. rewrite Hres.
    cbn [fmap option_fmap option_map snd].
    rewrite bool_decide_eq_false_2 by (rewrite Hc; done).
    rewrite (bool_decide_eq_true_2 _ Hc), (bool_decide_eq_true_2 _ Hentry),
      (bool_decide_eq_true_2 _ Hst). done. }
  apply TrackerLaws.resolve_iff in Hres as Hres'. destruct Hres' as (Hidx & Htr & Hk).
  assert (resolve r.1 d = Some (k, setStatus cancelled now position)) as Hres1.
  { rewrite Hr. cbn [fst]. apply TrackerLaws.resolve_iff.
    rewrite markCancelled_index, markCancelled_positions. fold d in Hres.
    rewrite Hres. split; [done|]. split; [done|]. by rewrite decide_True. }
  split; [by rewrite Hr|]. split; [|split; [|split]].
  - unfold getByDigest. by rewrite Hres1.
  - rewrite Hr. apply markCancelled_index.
  - intros k' Hne. rewrite Hr. cbn [fst]. rewrite markCancelled_positions.
    fold d in Hres. rewrite Hres. rewrite decide_False; [done|].
    intros [-> _]. by apply Hne.
  - intros om config now' fill Hd. unfold onFill. cbv zeta.
    unfold getByEntryDigest. rewrite Hd, Hres1. done.
Qed.

Lemma elem_of_getActivePositions t pos :
  pos ∈ getActivePositions t ↔
  isActive (status pos) = true ∧ ∃ k, positions t !! k = Some pos.
Proof.
  unfold getActivePositions. rewrite list_elem_of_filter, list_elem_of_fmap. split.
  - intros [Hact ([k p] & -> & Hin)]. split; [done|]. exists k.
    by apply elem_of_map_to_list.
  - intros [Hact [k Hk]]. split; [done|]. exists (k, pos). split; [done|].
    by apply elem_of_map_to_list.
Qed.

Lemma elem_of_cancelEntryOf a pos :
  a ∈ cancelEntryOf pos ↔
  ∃ d, entryOrderDigest pos = Some d ∧ JS.truthy d = true
       ∧ a = CancelOrder d (productId pos).
Proof.
  unfold cancelEntryOf. destruct (entryOrderDigest pos) as [d|].
  - destruct (JS.truthy d) eqn:Htr.
    + rewrite list_elem_of_singleton. split.
      * intros ->. eauto.
      * by intros (d' & [= <-] & _ & ->).
    + split; [by intros ?%elem_of_nil|]. intros (d' & [= <-] & Htr' & _). congruence.
  - split; [by intros ?%elem_of_nil|]. by intros (d' & ? & _).
Qed.

Lemma elem_of_cancelTriggerOf a o pos :
  a ∈ cancelTriggerOf o pos ↔
  ∃ d, o = Some d ∧ JS.truthy d = true ∧ a = CancelTriggerOrder d (productId pos).
Proof.
  unfold cancelTriggerOf. destruct o as [d|].
  - destruct (JS.truthy d) eqn:Htr.
    + rewrite list_elem_of_singleton. split.
      * intros ->. eauto.
      * by intros (d' & [= <-] & _ & ->).
    + split; [by intros ?%elem_of_nil|]. intros (d' & [= <-] & Htr' & _). congruence.
  - split; [by intros ?%elem_of_nil|]. by intros (d' & ? & _).
Qed.

Lemma elem_of_cancelExitsOf a pos :
  a ∈ cancelExitsOf pos ↔
  ∃ d, (tpOrderDigest pos = Some d ∨ slOrderDigest pos = Some d)
       ∧ JS.truthy d = true ∧ a = CancelTriggerOrder d (productId pos).
Proof.
  unfold cancelExitsOf. rewrite elem_of_app, !elem_of_cancelTriggerOf. split.
  - intros [(d & H1 & H2 & H3)|(d & H1 & H2 & H3)]; exists d; eauto.
  - intros (d & [H1|H1] & H2 & H3); [left|right]; exists d; eauto.
Qed.

Lemma elem_of_pending_cancels t a :
  a ∈ filter (λ p, status p = pending) (getActivePositions t) ≫= cancelEntryOf
  ↔ cancelsPendingEntry t a.
Proof.
  rewrite list_elem_of_bind. unfold cancelsPendingEntry. split.
  - intros (pos & Ha & Hpos). apply list_elem_of_filter in Hpos as [Hst Hpos].
    apply elem_of_getActivePositions in Hpos as [_ [k Hk]].
    apply elem_of_cancelEntryOf in Ha as (d & He & Htr & ->). by exists k, pos, d.
  - intros (k & pos & d & Hk & Hst & He & Htr & ->). exists pos. split.
    + apply elem_of_cancelEntryOf. eauto.
    + apply list_elem_of_filter. split; [done|].
      apply elem_of_getActivePositions. split; [by rewrite Hst|eauto].
Qed.

Lemma elem_of_filled_cancels t a :
  a ∈ filter (λ p, status p = filled) (getActivePositions t) ≫= cancelExitsOf
  ↔ cancelsFilledExit t a.
Proof.
  rewrite list_elem_of_bind. unfold cancelsFilledExit. split.
  - intros (pos & Ha & Hpos). apply list_elem_of_filter in Hpos as [Hst Hpos].
    apply elem_of_getActivePositions in Hpos as [_ [k Hk]].
    apply elem_of_cancelExitsOf in Ha as (d & He & Htr & ->). by exists k, pos, d.
  - intros (k & pos & d & Hk & Hst & He & Htr & ->). exists pos. split.
    + apply elem_of_cancelExitsOf. eauto.
    + apply list_elem_of_filter. split; [done|].
      apply elem_of_getActivePositions. split; [by rewrite Hst|eauto].
Qed.




Lemma filter_none {A} (P : A → Prop) `{∀ x, Decision (P x)} (l : list A) :
  (∀ a, a ∈ l → ¬ P a) → filter P l = [].
Proof.
  induction l as [|x l IH]; intros Hall; [done|].
  rewrite filter_cons_False by apply Hall, list_elem_of_here.
  apply IH. intros a Hin. by apply Hall, list_elem_of_further.
Qed.

Lemma placedFor_mono prices lvls lvls' a :
  (∀ lv, lv ∈ lvls → lv ∈ lvls') →
  placedFor prices lvls a → placedFor prices lvls' a.
Proof.
  intros Hsub. destruct a; simpl; try done.
  intros (lv & Hin & H). exists lv. split; [by apply Hsub|done].
Qed.

Lemma placeInitialStep_spec gw now prices acc lv :
  keptOrReplaced now acc.1 (placeInitialStep numToString gw now prices acc lv).1
  ∧ (reportsLevelPrice gw →
     activeUnchanged acc.1 (placeInitialStep numToString gw now prices acc lv).1)
  ∧ ∃ new,
      (placeInitialStep numToString gw now prices acc lv).2 = acc.2 ++ new
      ∧ Forall (placedFor prices [lv]) new
      ∧ length (filter (λ a, isPlaceLimitOrder a = true) new) ≤ 1
      ∧ (filter (λ a, isPlaceLimitOrder a = true) new = [] →
         (placeInitialStep numToString gw now prices acc lv).1 = acc.1).
Proof.
  unfold placeInitialStep.
  destruct (hasActivePosition _ _ _ _ _) eqn:Hactive.
  { split; [apply keptOrReplaced_refl|]. split; [intros _; apply activeUnchanged_refl|].
    exists []. rewrite app_nil_r.
    split; [done|]. split; [constructor|]. split; [simpl; lia|done]. }
  destruct (knownPrice prices (levelProductId lv)) as [cur|] eqn:Hknown.
  - cbv zeta. cbn [fst snd]. split; [apply placeEntry_keptOrReplaced|]. split.
    + intros Hgw k p Hk Hact. unfold placeEntry. cbn [fst].
      destruct (success _) eqn:Hok; [|done].
      rewrite createPosition_positions. cbn [cp_productId cp_side cp_level].
      rewrite (Hgw _ _ _ Hok). case_decide as Hkey; [|done].
      unfold hasActivePosition in Hactive. rewrite Hkey, Hk in Hactive. congruence.
    + exists [PlaceLimitOrder (levelProductId lv) (levelPrice lv)
                (entryAmount (levelSide lv) (levelSize lv))].
      split; [done|]. split; [|split; [simpl; lia|done]].
      constructor; [|constructor]. simpl. exists lv.
      split; [apply list_elem_of_here|]. split; [done|]. split; [done|].
      split; [apply entryAmount_spec|by eapply knownPrice_priceKnown].
  - cbn [fst snd]. split; [apply keptOrReplaced_refl|].
    split; [intros _; apply activeUnchanged_refl|].
    exists [Warn "No price available for product, skipping level"].
    split; [done|]. split; [|split; [simpl; lia|done]].
    constructor; [done|constructor].
Qed.

Lemma placeInitialLoop_spec gw now prices lvls : ∀ acc,
  keptOrReplaced now acc.1
    (foldl (placeInitialStep numToString gw now prices) acc lvls).1
  ∧ (reportsLevelPrice gw →
     activeUnchanged acc.1
       (foldl (placeInitialStep numToString gw now prices) acc lvls).1)
  ∧ ∃ new,
      (foldl (placeInitialStep numToString gw now prices) acc lvls).2 = acc.2 ++ new
      ∧ Forall (placedFor prices lvls) new
      ∧ length (filter (λ a, isPlaceLimitOrder a = true) new) ≤ length lvls
      ∧ (filter (λ a, isPlaceLimitOrder a = true) new = [] →
         (foldl (placeInitialStep numToString gw now prices) acc lvls).1 = acc.1).
Proof.
  induction lvls as [|lv lvls IH]; intros acc; simpl.
  - split; [apply keptOrReplaced_refl|]. split; [intros _; apply activeUnchanged_refl|].
    exists []. rewrite app_nil_r.
    split; [done|]. split; [constructor|]. split; [simpl; lia|done].
  - destruct (placeInitialStep_spec gw now prices acc lv)
      as (Hk1 & Ha1 & new1 & H1 & Hf1 & Hl1 & He1).
    destruct (IH (placeInitialStep numToString gw now prices acc lv))
      as (Hk2 & Ha2 & new2 & H2 & Hf2 & Hl2 & He2).
    split; [by eapply keptOrReplaced_trans|].
    split; [intros Hgw; eapply activeUnchanged_trans; eauto|].
    exists (new1 ++ new2).
    split; [by rewrite H2, H1, app_assoc|].
    split; [|split].
    + apply Forall_app. split.
      * eapply Forall_impl; [exact Hf1|]. intros a. apply placedFor_mono.
        intros x Hx. apply list_elem_of_singleton in Hx as ->.
        apply list_elem_of_here.
      * eapply Forall_impl; [exact Hf2|]. intros a. apply placedFor_mono.
        intros x Hx. by apply list_elem_of_further.
    + rewrite filter_app, length_app. lia.
    + intros Hnil. rewrite filter_app in Hnil.
      apply app_eq_nil in Hnil as [Hn1 Hn2]. rewrite (He2 Hn2). by apply He1.
Qed.

Lemma placeInitialLoop_all_active gw now prices lvls acc :
  (∀ lv, lv ∈ lvls →
         hasActivePosition numToString (levelProductId lv) (levelSide lv)
           (levelPrice lv) acc.1 = true) →
  foldl (placeInitialStep numToString gw now prices) acc lvls = acc.
Proof.
  induction lvls as [|lv lvls IH]; intros Hall; simpl; [done|].
  assert (placeInitialStep numToString gw now prices acc lv = acc) as ->.
  { unfold placeInitialStep. rewrite Hall; [done|apply list_elem_of_here]. }
  apply IH. intros lv' Hin. apply Hall. by apply list_elem_of_further.
Qed.

Lemma hasActivePosition_cleanup pid sd lvl t :
  hasActivePosition numToString pid sd lvl (cleanup t)
  = hasActivePosition numToString pid sd lvl t.
Proof.
  unfold hasActivePosition. rewrite cleanup_positions.
  destruct (positions t !! _) as [p|]; [|done].
  rewrite isTerminal_isActive. by destruct (isActive (status p)) eqn:H; simpl; rewrite ?H.
Qed.

(** X19: [placeInitialOrders].  Every order placed is the entry of one of
    the configured levels, at the level's price, for a product whose latest
    price is known and neither zero nor NaN; its amount is the level's size
    for a long and the opposite of the size for a short (positive and
    negative when the size is positive); at most one order is placed per
    level.  No record is removed: every record of the tracker is afterwards
    exactly as it was or has been replaced by a pending record created by
    this call, and the records added are such records.  A closed record can
    be replaced by the new entry of its own level; a pending or filled
    record can be replaced only when the gateway reports an accepted entry
    at another price than the level's: with a gateway that reports the
    level's own price every pending or filled record is afterwards exactly
    as it was.  The tracker is unchanged when nothing was placed,
    and when every level already has an active position the call does
    nothing at all. *)
Theorem placeInitialOrders_places_only_levels gw now st :
  let r := placeInitialOrders numToString gw now st in
  Forall (placedFor (latestPrices st) (levels st)) r.2
  ∧ length (filter (λ a, isPlaceLimitOrder a = true) r.2) ≤ length (levels st)
  ∧ (filter (λ a, isPlaceLimitOrder a = true) r.2 = [] → r.1 = tracker st)
  ∧ ((∀ lv, lv ∈ levels st →
            hasActivePosition numToString (levelProductId lv) (levelSide lv)
              (levelPrice lv) (tracker st) = true) →
     r = (tracker st, []))
  ∧ keptOrReplaced now (tracker st) r.1
  ∧ (reportsLevelPrice gw → activeUnchanged (tracker st) r.1).
Proof.
  intros r. unfold r, placeInitialOrders.
  destruct (placeInitialLoop_spec gw now (latestPrices st) (levels st) (tracker st, []))
    as (Hk & Ha & new & Hnew & Hf & Hl & He).
  cbn [fst snd] in *. rewrite app_nil_l in Hnew. rewrite Hnew.
  do 3 (split; [done|]). split; [|done].
  intros Hall. by apply placeInitialLoop_all_active.
Qed.

(** X20: [cancelAndReplaceOrders].  The cancellations asked are exactly
    those of the entry orders of the pending positions and of the exit
    orders of the filled positions; every order placed is the entry of one
    of the current levels.  The answers of the cancellations are not
    written to the tracker: the closed records are purged, and every
    pending or filled record is afterwards exactly as it was or has been
    replaced by a pending record created by this call; the records of the
    tracker afterwards are those and the newly created ones.  With a
    gateway that reports every accepted entry at the level's own price
    every pending or filled record is exactly as it was, so when each
    current level already has an active position the call places no order
    and only purges the closed records. *)
Theorem cancelAndReplaceOrders_effects gw now st :
  let r := cancelAndReplaceOrders numToString gw now st in
  (∀ a, isCancel a = true →
        (a ∈ r.2 ↔
         cancelsPendingEntry (tracker st) a ∨ cancelsFilledExit (tracker st) a))
  ∧ (∀ a, a ∈ r.2 → isCancel a = false →
          placedFor (latestPrices st) (levels st) a)
  ∧ (∀ k p, positions (tracker st) !! k = Some p → isActive (status p) = true →
            ∃ q, positions r.1 !! k = Some q ∧ (q = p ∨ freshPending now q))
  ∧ (∀ k q, positions r.1 !! k = Some q →
            (positions (tracker st) !! k = Some q ∧ isActive (status q) = true)
            ∨ freshPending now q)
  ∧ (reportsLevelPrice gw → activeUnchanged (tracker st) r.1)
  ∧ ((∀ lv, lv ∈ levels st →
            hasActivePosition numToString (levelProductId lv) (levelSide lv)
              (levelPrice lv) (tracker st) = true) →
     r.1 = cleanup (tracker st)
     ∧ filter (λ a, isPlaceLimitOrder a = true) r.2 = []).
Proof.
  intros r. unfold r, cancelAndReplaceOrders. cbv zeta. unfold placeInitialOrders.
  cbn [tracker latestPrices levels fst snd].
  set (cancels := (_ ≫= cancelEntryOf) ++ (_ ≫= cancelExitsOf)).
  assert (∀ a, a ∈ cancels ↔
               cancelsPendingEntry (tracker st) a ∨ cancelsFilledExit (tracker st) a)
    as Hcancels.
  { intros a. unfold cancels.
    by rewrite elem_of_app, elem_of_pending_cancels, elem_of_filled_cancels. }
  assert (∀ a, a ∈ cancels → isCancel a = true) as Hiscancel.
  { intros a [(k & pos & d & _ & _ & _ & _ & ->)
             |(k & pos & d & _ & _ & _ & _ & ->)]%Hcancels; done. }
  destruct (placeInitialLoop_spec gw now (latestPrices st) (levels st)
              (cleanup (tracker st), []))
    as ([Hkept Hnew'] & Ha & new & Hnew & Hf & Hl & He).
  cbn [fst snd] in *. rewrite app_nil_l in Hnew. rewrite Hnew.
  assert (∀ a, a ∈ new → isCancel a = false) as Hnocancel.
  { intros a Hin. rewrite Forall_forall in Hf. specialize (Hf a Hin).
    by destruct a. }
  split; [|split; [|split; [|split; [|split]]]].
  - intros a Ha'. rewrite elem_of_app, <- Hcancels. split; [|by left].
    intros [Hin|Hin]; [done|]. apply Hnocancel in Hin. congruence.
  - intros a Hin Ha'. apply elem_of_app in Hin as [Hin|Hin].
    + apply Hiscancel in Hin. congruence.
    + rewrite Forall_forall in Hf. by apply Hf.
  - intros k p Hk Hact. apply Hkept. by apply activeUnchanged_cleanup.
  - intros k q Hq. destruct (Hnew' k q Hq) as [Hc|Hfresh]; [left|by right].
    rewrite cleanup_positions in Hc.
    destruct (positions (tracker st) !! k) as [p|]; [|done].
    destruct (isTerminal (status p)) eqn:Hterm; [done|].
    injection Hc as ->. split; [done|].
    rewrite isTerminal_isActive in Hterm. by destruct (isActive (status q)).
  - intros Hgw. eapply activeUnchanged_trans; [apply activeUnchanged_cleanup|eauto].
  - intros Hall.
    assert (foldl (placeInitialStep numToString gw now (latestPrices st))
              (cleanup (tracker st), []) (levels st) = (cleanup (tracker st), []))
      as Hloop.
    { apply placeInitialLoop_all_active. intros lv Hin. cbn [fst].
      rewrite hasActivePosition_cleanup. by apply Hall. }
    rewrite Hloop in Hnew |- *. cbn [fst snd] in *. subst new.
    split; [done|]. rewrite app_nil_r. apply filter_none.
    intros a Hin Ha'. apply Hiscancel in Hin. by destruct a.
Qed.

(** X21: [onBestBidOffer] and the price the other handlers read.  The
    handler writes the mid of the normalised bid and ask under the product
    and touches nothing else: the price of every other product (a
    product id that does not compare equal to the event's, two NaN counting
    as equal), the tracker, the running flag and the levels are as before;
    reading the product back gives that mid.
    When neither the bid nor the ask parses to a finite number the mid is
    0, which counts as no price: re-arming a level of that product then
    only purges the tracker and warns. *)
Theorem onBestBidOffer_sets_price st event :
  let st' := onBestBidOffer parseFloat st event in
  let bid := normalizeStreamPrice parseFloat (bid_price event) in
  let ask := normalizeStreamPrice parseFloat (ask_price event) in
  mapGet (product_id event) (latestPrices st') = Some ((bid + ask) / 2)%float
  ∧ (∀ pid, (product_id event =? pid)%float = false →
            is_nan (product_id event) = false ∨ is_nan pid = false →
            mapGet pid (latestPrices st') = mapGet pid (latestPrices st))
  ∧ tracker st' = tracker st
  ∧ isRunning st' = isRunning st
  ∧ levels st' = levels st
  ∧ (JS.isFinite (parsedValue parseFloat (bid_price event)) = false →
     JS.isFinite (parsedValue parseFloat (ask_price event)) = false →
     knownPrice (latestPrices st') (product_id event) = None
     ∧ ∀ gw now sd lvl sz t,
         rearmLevel numToString gw now (latestPrices st') (product_id event)
           sd lvl sz t
         = (cleanup t, [Warn "No price to re-arm level"])).
Proof.
  intros st' bid ask.
  assert (mapGet (product_id event) (latestPrices st')
          = Some ((bid + ask) / 2)%float) as Hget.
  { unfold st', onBestBidOffer, Engine.onBestBidOffer. cbn [latestPrices fst snd].
    apply mapGet_mapSet. }
  split; [done|]. split.
  { intros pid Hne Hnan. unfold st', onBestBidOffer, Engine.onBestBidOffer.
    cbn [latestPrices fst snd]. apply mapGet_mapSet_other.
    unfold sameValueZero. rewrite Hne. by destruct Hnan as [-> | ->]; rewrite ?andb_false_r. }
  do 3 (split; [done|]).
  intros Hbid Hask.
  assert (knownPrice (latestPrices st') (product_id event) = None) as Hknown.
  { unfold knownPrice. rewrite Hget. unfold bid, ask, normalizeStreamPrice.
    cbv zeta. rewrite Hbid, Hask. done. }
  split; [done|]. intros gw now sd lvl sz t. unfold rearmLevel. cbv zeta.
  by rewrite Hknown.
Qed.

(** X22: a fill reported twice.  Once the fill of a pending entry has
    been committed (both exit orders accepted), a second fill event for
    the same entry order is ignored: no order is submitted again and the
    tracker is left as the first fill made it. *)
Theorem duplicate_fill_is_ignored om config now t event k p :
  resolve t (order_digest event) = Some (k, p) →
  status p = pending →
  success (tpResultOf om config (normalizeStreamPrice parseFloat (price event)) p)
  && success (slResultOf om config (normalizeStreamPrice parseFloat (price event)) p)
  = true →
  let t1 := (onFill parseFloat om config now t event).1 in
  ∀ om' config' now' event',
    order_digest event' = order_digest event →
    onFill parseFloat om' config' now' t1 event'
    = (t1, [LogDebug "Fill for non-pending position, ignoring"]).
Proof.
  intros Hres Hst Hboth t1 om' config' now' event' Hd.
  set (fp := normalizeStreamPrice parseFloat (price event)) in *.
  destruct (onFill_commit parseFloat om config now t event k p Hres Hst Hboth)
    as (p1 & _ & Hk1).
  fold t1 in Hk1. fold fp in Hk1.
  apply TrackerLaws.resolve_iff in Hres as (Hidx & Htr & Hk).
  assert (digestToPositionId t1 !! order_digest event = Some k) as Hidx1.
  { unfold t1. rewrite (onFill_pending parseFloat om config now t event k p)
      by (by apply TrackerLaws.resolve_iff || done).
    cbv zeta. fold fp. rewrite Hboth. cbn [fst].
    set (c := cancelOppositePendingEntries om now (productId p) (side p)
                (order_digest event) t).
    destruct (cancelOpposite_record om now (productId p) (side p)
                (order_digest event) t k p Hk) as (q & Hq & _).
    fold c in Hq.
    assert (resolve c.1 (order_digest event) = Some (k, q)) as Hresc.
    { apply TrackerLaws.resolve_iff. unfold c. by rewrite cancelOpposite_index. }
    unfold markFilled. rewrite Hresc. cbn [fst digestToPositionId].
    destruct (decide (digest (slResultOf om config fp p) = order_digest event))
      as [->|Hsl]; [apply lookup_insert_eq|].
    rewrite lookup_insert_ne by done.
    destruct (decide (digest (tpResultOf om config fp p) = order_digest event))
      as [->|Htp]; [apply lookup_insert_eq|].
    rewrite lookup_insert_ne by done.
    unfold c. by rewrite cancelOpposite_index. }
  unfold onFill. cbv zeta. unfold getByEntryDigest.
  assert (resolve t1 (order_digest event')
          = Some (k, setFilled now fp (digest (tpResultOf om config fp p))
                       (digest (slResultOf om config fp p)) p1)) as ->.
  { rewrite Hd. by apply TrackerLaws.resolve_iff. }
  done.
Qed.

(** *** The cancellation pass of the fill handler *)

Lemma isOppositePending_fields pid sd d p :
  isOppositePending pid sd d p = true →
  status p = pending
  ∧ ∃ e, entryOrderDigest p = Some e ∧ JS.truthy e = true ∧ e ≠ d.
Proof.
  unfold isOppositePending. intros H.
  repeat (apply andb_prop in H as [H ?]).
  match goal with Hst : bool_decide (status p = pending) = true |- _ =>
    apply bool_decide_eq_true in Hst end.
  split; [done|].
  destruct (entryOrderDigest p) as [e|]; [|done].
  exists e. split; [done|]. split; [done|]. intros ->.
  match goal with Hne : negb (bool_decide _) = true |- _ =>
    rewrite bool_decide_eq_true_2 in Hne by done; done end.
Qed.

Lemma elem_of_candidates pid sd d t pos :
  pos ∈ filter (λ p, isOppositePending pid sd d p = true) (getActivePositions t)
  ↔ isOppositePending pid sd d pos = true ∧ ∃ k, positions t !! k = Some pos.
Proof.
  rewrite list_elem_of_filter, elem_of_getActivePositions. split.
  - intros [Hopp [_ Hk]]. done.
  - intros [Hopp Hk]. split; [done|]. split; [|done].
    apply isOppositePending_fields in Hopp as [-> _]. done.
Qed.

Lemma cancelStep_calls om now acc pos d' pid' :
  CallCancelOrder d' pid' ∈ (cancelStep om now acc pos).2 ↔
  CallCancelOrder d' pid' ∈ acc.2
  ∨ (entryOrderDigest pos = Some d' ∧ JS.truthy d' = true ∧ pid' = productId pos).
Proof.
  unfold cancelStep. destruct (entryOrderDigest pos) as [e|];
    [|split; [by left|by intros [?|(? & _)]]].
  destruct (JS.truthy e) eqn:Htr.
  - destruct (cancelOrder om e (productId pos)); cbn [snd];
      rewrite elem_of_app, ?elem_of_cons, elem_of_nil; split.
    + intros [H|[H|[]]]; [by left|]. right. by injection H as -> ->.
    + intros [H|([= ->] & _ & ->)]; [by left|]. right. by left.
    + intros [H|[H|[H|[]]]]; [by left| |done]. right. by injection H as -> ->.
    + intros [H|([= ->] & _ & ->)]; [by left|]. right. by left.
  - split; [by left|]. intros [?|([= <-] & Htr' & _)]; [done|congruence].
Qed.

Lemma cancelLoop_calls om now cands : ∀ acc d' pid',
  CallCancelOrder d' pid' ∈ (foldl (cancelStep om now) acc cands).2 ↔
  CallCancelOrder d' pid' ∈ acc.2
  ∨ ∃ pos, pos ∈ cands ∧ entryOrderDigest pos = Some d' ∧ JS.truthy d' = true
           ∧ pid' = productId pos.
Proof.
  induction cands as [|pos cands IH]; intros acc d' pid'; simpl.
  - split; [by left|]. intros [?|(pos & Hin & _)]; [done|by apply elem_of_nil in Hin].
  - rewrite IH, cancelStep_calls. split.
    + intros [[H|H]|(pos' & Hin & H)]; [by left| |].
      * right. exists pos. split; [apply list_elem_of_here|done].
      * right. exists pos'. split; [by apply list_elem_of_further|done].
    + intros [H|(pos' & Hin & H)]; [by left; left|].
      apply elem_of_cons in Hin as [->|Hin]; [left; by right|right; eauto].
Qed.

(** A step leaves the record under [k] alone unless its order is indexed
    to [k], [k] is not empty and the manager confirmed the cancellation. *)
Lemma cancelStep_untouched om now acc pos k :
  (∀ d, entryOrderDigest pos = Some d → JS.truthy d = true →
        digestToPositionId acc.1 !! d = Some k → JS.truthy k = true →
        cancelOrder om d (productId pos) = false) →
  positions (cancelStep om now acc pos).1 !! k = positions acc.1 !! k.
Proof.
  intros Hother. unfold cancelStep.
  destruct (entryOrderDigest pos) as [d|]; [|done].
  destruct (JS.truthy d) eqn:Hd; [|done].
  destruct (cancelOrder om d (productId pos)) eqn:Hc; [|done].
  cbn [fst]. rewrite markCancelled_positions.
  destruct (resolve acc.1 d) as [[posId position]|] eqn:Hres; [|done].
  case_decide as H; [|done]. destruct H as [-> _].
  apply TrackerLaws.resolve_iff in Hres as (Hidx & Htr & _).
  specialize (Hother d eq_refl Hd Hidx Htr). congruence.
Qed.

Lemma cancelLoop_untouched om now cands : ∀ acc k,
  (∀ pos d, pos ∈ cands → entryOrderDigest pos = Some d → JS.truthy d = true →
            digestToPositionId acc.1 !! d = Some k → JS.truthy k = true →
            cancelOrder om d (productId pos) = false) →
  positions (foldl (cancelStep om now) acc cands).1 !! k = positions acc.1 !! k.
Proof.
  induction cands as [|pos cands IH]; intros acc k Hother; [done|].
  simpl. rewrite IH.
  - apply cancelStep_untouched. intros d. apply Hother, list_elem_of_here.
  - intros pos' d Hin. rewrite cancelStep_index. by apply Hother, list_elem_of_further.
Qed.

(** The step for a pending position whose order is indexed to its own
    key, when the manager confirms: the record is cancelled. *)
Lemma cancelStep_confirmed om now acc p k e q :
  entryOrderDigest p = Some e → JS.truthy e = true →
  cancelOrder om e (productId p) = true →
  digestToPositionId acc.1 !! e = Some k → JS.truthy k = true →
  positions acc.1 !! k = Some q →
  sameOrCancelled now p q →
  status p = pending →
  positions (cancelStep om now acc p).1 !! k = Some (setStatus cancelled now p).
Proof.
  intros He Htr Hc Hidx Hk Hq Hsame Hst. unfold cancelStep.
  rewrite He, Htr, Hc. cbn [fst]. rewrite markCancelled_positions.
  assert (resolve acc.1 e = Some (k, q)) as ->
    by (by apply TrackerLaws.resolve_iff).
  destruct Hsame as [->|[_ ->]].
  - rewrite decide_True by done. done.
  - rewrite decide_False by (by intros [_ ?]). done.
Qed.

Lemma cancelOpposite_as_loop om now pid sd d t :
  ∃ l0,
    (∀ d' pid', CallCancelOrder d' pid' ∉ l0)
    ∧ (cancelOppositePendingEntries om now pid sd d t).1
    = (foldl (cancelStep om now) (t, l0)
         (filter (λ p, isOppositePending pid sd d p = true) (getActivePositions t))).1
    ∧ ∀ d' pid',
        CallCancelOrder d' pid' ∈ (cancelOppositePendingEntries om now pid sd d t).2
        ↔ CallCancelOrder d' pid'
          ∈ (foldl (cancelStep om now) (t, l0)
               (filter (λ p, isOppositePending pid sd d p = true)
                  (getActivePositions t))).2.
Proof.
  unfold cancelOppositePendingEntries.
  destruct (filter (λ p, isOppositePending _ _ _ p = true) _) as [|q qs].
  - exists []. split; [|done]. intros d' pid' Hin. by apply elem_of_nil in Hin.
  - exists [LogInfo "Cancelling opposite pending entries"]. split; [|done].
    intros d' pid' Hin. by apply list_elem_of_singleton in Hin.
Qed.

(** The cancellation pass in terms of the filter of the handler. *)
Lemma cancelOpposite_pass om now pid sd d t :
  let r := cancelOppositePendingEntries om now pid sd d t in
  (∀ d' pid',
      CallCancelOrder d' pid' ∈ r.2 ↔
      ∃ k pos, positions t !! k = Some pos
               ∧ isOppositePending pid sd d pos = true
               ∧ entryOrderDigest pos = Some d' ∧ pid' = productId pos)
  ∧ (indexConsistent t →
     ∀ k p, positions t !! k = Some p →
       positions r.1 !! k
       = Some (if isOppositePending pid sd d p && JS.truthy k
                  && match entryOrderDigest p with
                     | Some e => cancelOrder om e (productId p)
                     | None => false
                     end
               then setStatus cancelled now p else p)).
Proof.
  intros r. unfold r.
  destruct (cancelOpposite_as_loop om now pid sd d t)
    as (l0 & Hl0 & Htracker & Hcalls).
  set (cands := filter (λ p, isOppositePending pid sd d p = true)
                  (getActivePositions t)) in *.
  split.
  - intros d' pid'. rewrite Hcalls, cancelLoop_calls. cbn [snd]. split.
    + intros [Hin|(pos & Hin & He & Htr & ->)]; [by apply Hl0 in Hin|].
      apply elem_of_candidates in Hin as [Hopp [k Hk]]. by exists k, pos.
    + intros (k & pos & Hk & Hopp & He & ->). right. exists pos.
      split; [apply elem_of_candidates; eauto|]. split; [done|]. split; [|done].
      apply isOppositePending_fields in Hopp as [_ (e & He' & Htr & _)]. congruence.
  - intros Hcons k p Hk. rewrite Htracker.
    assert (∀ pos e, pos ∈ cands → entryOrderDigest pos = Some e →
                     JS.truthy e = true →
                     digestToPositionId t !! e = Some k → pos = p) as Hsame.
    { intros pos e Hin He Htr Hidx.
      apply elem_of_candidates in Hin as [_ [k' Hk']].
      rewrite (Hcons k' pos e Hk' He Htr) in Hidx. injection Hidx as ->. congruence. }
    destruct (isOppositePending pid sd d p && JS.truthy k
              && match entryOrderDigest p with
                 | Some e => cancelOrder om e (productId p)
                 | None => false
                 end) eqn:Hcond.
    + apply andb_prop in Hcond as [Hcond Hc]. apply andb_prop in Hcond as [Hopp Htrk].
      destruct (isOppositePending_fields _ _ _ _ Hopp) as [Hst (e & He & Htr & _)].
      rewrite He in Hc.
      assert (p ∈ cands) as Hin by (apply elem_of_candidates; eauto).
      apply list_elem_of_split in Hin as (l1 & l2 & Hsplit). rewrite Hsplit.
      rewrite foldl_app. simpl.
      set (acc1 := foldl (cancelStep om now) (t, l0) l1).
      destruct (cancelLoop_record om now l1 (t, l0) k p Hk) as (q1 & Hq1 & Hsame1).
      fold acc1 in Hq1.
      assert (positions (cancelStep om now acc1 p).1 !! k
              = Some (setStatus cancelled now p)) as Hstep.
      { apply (cancelStep_confirmed om now acc1 p k e q1); try done.
        unfold acc1. rewrite cancelLoop_index. cbn [fst]. by apply (Hcons k p e). }
      destruct (cancelLoop_record om now l2 _ k _ Hstep) as (q2 & Hq2 & [->|[Hp _]]);
        [done|done].
    + rewrite cancelLoop_untouched; [done|].
      intros pos e Hin He Htr Hidx Htrk. cbn [fst] in Hidx.
      pose proof (Hsame pos e Hin He Htr Hidx) as ->.
      assert (isOppositePending pid sd d p = true) as Hopp
        by (by apply elem_of_candidates in Hin as [? _]).
      rewrite Hopp, Htrk, He in Hcond. done.
Qed.

Lemma truthy_iff (x : string) : JS.truthy x = true ↔ x ≠ "".
Proof. by destruct x. Qed.

Lemma isOppositePending_iff pid sd d pos :
  isOppositePending pid sd d pos = true ↔ ∃ e, oppositePendingEntry pid sd d pos e.
Proof.
  unfold isOppositePending, oppositePendingEntry. split.
  - intros H. repeat (apply andb_prop in H as [H ?]).
    repeat match goal with
           | Hb : bool_decide _ = true |- _ => apply bool_decide_eq_true in Hb
           | Hb : negb (bool_decide _) = true |- _ =>
               apply negb_true_iff, bool_decide_eq_false in Hb
           end.
    destruct (entryOrderDigest pos) as [e|]; [|done]. exists e.
    split; [done|]. split; [done|].
    split; [by destruct (side pos), sd|]. split; [done|].
    split; [by apply truthy_iff|]. congruence.
  - intros (e & Hpid & Hst & Hside & He & Hne & Hd).
    rewrite Hpid, He. rewrite (bool_decide_eq_true_2 _ Hst).
    rewrite bool_decide_eq_true_2 by (by destruct (side pos), sd).
    cbn [JS.truthyOpt andb]. rewrite (proj2 (truthy_iff e) Hne).
    rewrite bool_decide_eq_false_2 by congruence. done.
Qed.

(** X23: the cancellation pass of the fill handler.  The cancellations it
    asks for are exactly those of the entry orders of the pending
    positions of the filled product on the other side, for an entry digest
    that is not empty and is not the filled entry's.  In a tracker whose index is consistent, such a
    position becomes cancelled when the order manager confirms its
    cancellation (its key not being the empty string, which no slot
    identity is), and every other record, as well as a record whose
    cancellation the manager refused, is left as it was. *)
Theorem cancelOpposite_targets_opposite_pending om now pid sd d t :
  let r := cancelOppositePendingEntries om now pid sd d t in
  (∀ d' pid',
      CallCancelOrder d' pid' ∈ r.2 ↔
      ∃ k pos, positions t !! k = Some pos
               ∧ (productId pos =? pid)%float = true
               ∧ status pos = pending
               ∧ side pos ≠ sd
               ∧ entryOrderDigest pos = Some d'
               ∧ d' ≠ "" ∧ d' ≠ d
               ∧ pid' = productId pos)
  ∧ (indexConsistent t →
     ∀ k p, positions t !! k = Some p →
       ((∃ e, oppositePendingEntry pid sd d p e ∧ k ≠ ""
              ∧ cancelOrder om e (productId p) = true) →
        ∃ q, positions r.1 !! k = Some q
             ∧ status q = cancelled
             ∧ q = setStatus cancelled now p)
       ∧ (¬ (∃ e, oppositePendingEntry pid sd d p e ∧ k ≠ ""
                  ∧ cancelOrder om e (productId p) = true) →
          positions r.1 !! k = Some p)).
Proof.
  intros r. destruct (cancelOpposite_pass om now pid sd d t) as [Hcalls Hrecords].
  fold r in Hcalls, Hrecords. split.
  - intros d' pid'. rewrite Hcalls. split.
    + intros (k & pos & Hk & Hopp & He & ->).
      apply isOppositePending_iff in Hopp as (e & Hpid & Hst & Hside & He' & Hne & Hd).
      exists k, pos. rewrite He in He'. injection He' as <-. done.
    + intros (k & pos & Hk & Hpid & Hst & Hside & He & Hne & Hd & ->).
      exists k, pos. split; [done|]. split; [|done].
      apply isOppositePending_iff. by exists d'.
  - intros Hcons k p Hk. rewrite (Hrecords Hcons k p Hk). split.
    + intros (e & Hopp & Hkey & Hok).
      rewrite (proj2 (isOppositePending_iff pid sd d p) (ex_intro _ e Hopp)).
      rewrite (proj2 (truthy_iff k) Hkey).
      destruct Hopp as (_ & _ & _ & -> & _). rewrite Hok. eauto.
    + intros Hnot.
      destruct (isOppositePending pid sd d p) eqn:Hopp; [|done].
      destruct (JS.truthy k) eqn:Hkey; [|done].
      apply isOppositePending_iff in Hopp as (e & Hopp).
      pose proof Hopp as (_ & _ & _ & He & _). rewrite He.
      destruct (cancelOrder om e (productId p)) eqn:Hok; [|done].
      exfalso. apply Hnot. exists e. split; [done|]. split; [by apply truthy_iff|done].
Qed.

End HandlerFacts.

(** *** The handlers on a concrete book *)

(** The book of [sampleTracker] after the fill of e1 was committed with
    exits tp1 and sl1. *)
Definition filledBook : PositionTracker :=
  (markFilled 2 "e1" 100 "tp1" "sl1" sampleTracker).1.

(** A gateway that accepts every entry and answers with digest e9. *)
Definition gwAccepting : Gateway :=
  {| placeLimitOrder := λ _ p _, mkOrderResult "e9" true (Some p) None |}.

(** A running engine on a given book, with product 4 quoted at 105. *)
Definition sampleEngine (t : PositionTracker) : EngineState :=
  {| tracker := t; isRunning := true;
     latestPrices := [(4%float, 105%float)]; levels := [] |}.

(** An update that reports the entry order of a filled position as filled
    is ignored. *)
Lemma onOrderUpdate_ignored_events_witness :
  onOrderUpdate JS.numToStringInt gwAccepting 3 (sampleEngine filledBook)
    {| updateDigest := "e1"; reason := "filled" |}
  = (filledBook, []).
Proof.
  apply (onOrderUpdate_ignored_events JS.numToStringInt gwAccepting 3
           (sampleEngine filledBook) {| updateDigest := "e1"; reason := "filled" |}).
  intros position Hget.
  assert (getByDigest filledBook "e1" = Some sampleFilled) as H
    by (vm_compute; reflexivity).
  cbn [tracker sampleEngine updateDigest] in Hget. rewrite H in Hget.
  injection Hget as <-. right. left.
  split; [reflexivity|]. split; discriminate.
Defined.

(** The take-profit of the filled position is hit while the engine runs
    with the price at 105, above the long level 100: the stop-loss is
    cancelled and the level is re-armed. *)
Lemma exit_fill_rearms_and_retires_digests_witness :
  let st := sampleEngine filledBook in
  let event := {| updateDigest := "tp1"; reason := "filled" |} in
  let r := onOrderUpdate JS.numToStringInt gwAccepting 3 st event in
  getByDigest (tracker st) "tp1" = Some sampleFilled
  ∧ filter (λ a, isCancel a = true) r.2 = [CancelTriggerOrder "sl1" 4]
  ∧ TrackerLaws.noTerminal r.1
  ∧ onOrderUpdate JS.numToStringInt gwAccepting 4
      {| tracker := r.1; isRunning := true; latestPrices := []; levels := [] |}
      {| updateDigest := "sl1"; reason := "filled" |} = (r.1, []).
Proof.
  intros st event r.
  assert (getByDigest (tracker st) "tp1" = Some sampleFilled) as Hget
    by (vm_compute; reflexivity).
  split; [exact Hget|].
  destruct (exit_fill_rearms_and_retires_digests JS.numToStringInt gwAccepting 3 st
              event sampleFilled Hget eq_refl (or_introl eq_refl) eq_refl)
    as (Hcancel & Hno & _ & Hlater).
  split; [exact Hcancel|]. split; [exact Hno|].
  exact (Hlater "sl1" (or_intror eq_refl) gwAccepting 4%Z
           {| tracker := r.1; isRunning := true; latestPrices := []; levels := [] |}
           eq_refl).
Defined.

(** The pending entry e1 is cancelled from outside. *)
Lemma external_cancel_retires_entry_witness :
  let st := sampleEngine sampleTracker in
  let event := {| updateDigest := "e1"; reason := "cancelled" |} in
  let r := onOrderUpdate JS.numToStringInt gwAccepting 3 st event in
  getByDigest (tracker st) "e1" = Some samplePosition
  ∧ r.2 = []
  ∧ getByDigest r.1 "e1" = Some (setStatus cancelled 3 samplePosition)
  ∧ onFill parseNoNumber omAccepting sampleConfig 4 r.1 (sampleFill (SNumber 100))
    = (r.1, [LogDebug "Fill for non-pending position, ignoring"]).
Proof.
  intros st event r.
  assert (getByDigest (tracker st) "e1" = Some samplePosition) as Hget
    by (vm_compute; reflexivity).
  split; [exact Hget|].
  destruct (external_cancel_retires_entry JS.numToStringInt parseNoNumber gwAccepting
              3 st event samplePosition Hget eq_refl eq_refl eq_refl)
    as (Hacts & Hafter & _ & _ & Hfill).
  split; [exact Hacts|]. split; [exact Hafter|].
  exact (Hfill omAccepting sampleConfig 4%Z (sampleFill (SNumber 100)) eq_refl).
Defined.

(** The fill of e1 in [sampleBook] is committed; the same fill reported
    again is ignored. *)
Lemma duplicate_fill_is_ignored_witness :
  let t1 := (onFill parseNoNumber omAccepting sampleConfig 5 sampleBook
               (sampleFill (SNumber 100))).1 in
  resolve sampleBook "e1" = Some ("4-long-100", samplePosition)
  ∧ onFill parseNoNumber omAccepting sampleConfig 6 t1 (sampleFill (SNumber 100))
    = (t1, [LogDebug "Fill for non-pending position, ignoring"]).
Proof.
  intros t1.
  assert (resolve sampleBook "e1" = Some ("4-long-100", samplePosition)) as Hres
    by (vm_compute; reflexivity).
  split; [exact Hres|].
  exact (duplicate_fill_is_ignored parseNoNumber omAccepting sampleConfig 5 sampleBook
           (sampleFill (SNumber 100)) "4-long-100" samplePosition Hres eq_refl eq_refl
           omAccepting sampleConfig 6%Z (sampleFill (SNumber 100)) eq_refl).
Defined.

(** A gateway that snaps every price to a whole number and reports the
    snapped price, as the order manager reports the price it submitted. *)
Definition gwSnapping : Gateway :=
  {| placeLimitOrder := λ _ p _, mkOrderResult "e9" true (Some (JS.Math_round p)) None |}.

Set Warnings "-inexact-float".

(** With such a gateway a record can be replaced.  The level 100.04 has no
    active position of its own slot, so its entry is placed; the order is
    reported at 100, and the new pending position is stored under the slot
    of 100, where the filled position of [filledBook] was. *)
Lemma placeInitialOrders_can_replace_a_filled_record :
  let st := {| tracker := filledBook; isRunning := true;
               latestPrices := [(4%float, 105%float)];
               levels := [mkTradingLevel 4 100.04 long 1] |} in
  let r := placeInitialOrders JS.numToStringInt gwSnapping 9 st in
  status <$> positions filledBook !! "4-long-100" = Some filled
  ∧ hasActivePosition JS.numToStringInt 4 long 100.04 filledBook = false
  ∧ r.2 = [PlaceLimitOrder 4 100.04 1]
  ∧ status <$> positions r.1 !! "4-long-100" = Some pending
  ∧ fillPrice <$> positions r.1 !! "4-long-100" = Some None
  ∧ entryOrderDigest <$> positions r.1 !! "4-long-100" = Some (Some "e9").
Proof. vm_compute. done. Qed.

End EngineLaws.
